(** * RapidScan web front end: scan sessions and output streaming

    A shallow embedding of [rapidscan/webapp/app.py] and the properties of
    its session manager: the line sanitizer, the progress extractor, the
    construction of the scanner's command line, the session registry, the
    two output pumps, the event stream generator and the stop and status
    handlers.

    Text is a list of characters; a character is a code point below 256
    (Rocq's [ascii]), so the character classes of Python's [re] and [str]
    methods are the ones of that range. *)

From Stdlib Require Import Ascii String ZArith NArith List Bool Lia.
From Stdlib Require DecimalString DecimalZ DecimalPos DecimalFacts.
From stdpp Require Import base option list gmap strings.
Import ListNotations.

Open Scope list_scope.

(** ** Text *)

Definition text := list ascii.

Coercion list_ascii_of_string : string >-> list.

Definition code (c : ascii) : N := N_of_ascii c.

(** [lo <= c <= hi] on code points: a range [lo-hi] of a character set. *)
Definition char_range (lo hi c : ascii) : bool :=
  ((code lo <=? code c) && (code c <=? code hi))%N.

Definition is_char (a c : ascii) : bool := Ascii.eqb a c.

(** Whitespace as [str.isspace] and [\s] see it on code points below 256:
    TAB LF VT FF CR, FS GS RS US, SPACE, NEL and NBSP. *)
Definition is_space (c : ascii) : bool :=
  ((9 <=? code c) && (code c <=? 13) ||
   (28 <=? code c) && (code c <=? 32) ||
   (code c =? 133) || (code c =? 160))%N.

(** The whitespace [int] skips around a number: TAB LF VT FF CR and SPACE,
    and NEL and NBSP, which it turns into spaces first. FS GS RS US are
    whitespace for [str.strip] and [\s], not for [int]. *)
Definition is_int_space (c : ascii) : bool :=
  ((9 <=? code c) && (code c <=? 13) ||
   (code c =? 32) || (code c =? 133) || (code c =? 160))%N.

(** [\d]: the decimal digits of that range are [0-9]. *)
Definition is_digit (c : ascii) : bool := char_range "0" "9" c.

Arguments char_range : simpl never.
Arguments is_char : simpl never.
Arguments is_space : simpl never.
Arguments is_int_space : simpl never.
Arguments is_digit : simpl never.

Definition newline : ascii := "010"%char.
Definition ESC : ascii := "027"%char.
Definition BEL : ascii := "007"%char.

Fixpoint lstrip_chars (f : ascii -> bool) (s : text) : text :=
  match s with
  | c :: s' => if f c then lstrip_chars f s' else s
  | [] => []
  end.

Definition rstrip_chars (f : ascii -> bool) (s : text) : text :=
  rev (lstrip_chars f (rev s)).

(** [s.strip()] *)
Definition strip (s : text) : text := rstrip_chars is_space (lstrip_chars is_space s).

(** [s.rstrip('\n')] *)
Definition rstrip_nl (s : text) : text := rstrip_chars (is_char newline) s.

(** ** The fragment of [re] the program uses

    Every pattern of the program is a sequence of one-character atoms, each
    taken once, or under [*] or [+]. Matching is Python's: greedy, with
    backtracking, the first success in priority order. *)

Inductive quant := Once | Star | Plus.

Record item := Item { icls : ascii -> bool; iquant : quant }.

Definition pattern := list item.

(** What a successful match at a position gives: the piece of text every
    item has matched, and the text left after the match. *)
Definition matched : Type := list text * text.

(** [x*] followed by the continuation [k]: as many [x] as possible, one
    fewer each time [k] fails. *)
Fixpoint greedy (cls : ascii -> bool) (k : text -> option matched) (s : text)
  : option (text * matched) :=
  match s with
  | c :: s' =>
      if cls c then
        match greedy cls k s' with
        | Some (m, r) => Some (c :: m, r)
        | None => pair [] <$> k s
        end
      else pair [] <$> k s
  | [] => pair [] <$> k []
  end.

Fixpoint match_here (p : pattern) (s : text) : option matched :=
  match p with
  | [] => Some ([], s)
  | Item cls q :: p' =>
      match q with
      | Once =>
          match s with
          | c :: s' =>
              if cls c then
                match match_here p' s' with
                | Some (ps, r) => Some ([c] :: ps, r)
                | None => None
                end
              else None
          | [] => None
          end
      | Star =>
          match greedy cls (match_here p') s with
          | Some (m, (ps, r)) => Some (m :: ps, r)
          | None => None
          end
      | Plus =>
          match s with
          | c :: s' =>
              if cls c then
                match greedy cls (match_here p') s' with
                | Some (m, (ps, r)) => Some ((c :: m) :: ps, r)
                | None => None
                end
              else None
          | [] => None
          end
      end
  end.

(** [re.search]: the leftmost position with a match. The result holds the
    text before the match, the pieces and the text after it. *)
Fixpoint re_search (p : pattern) (s : text) : option (text * list text * text) :=
  match match_here p s with
  | Some (ps, r) => Some ([], ps, r)
  | None =>
      match s with
      | c :: s' =>
          match re_search p s' with
          | Some (pre, ps, r) => Some (c :: pre, ps, r)
          | None => None
          end
      | [] => None
      end
  end.

(** [p.sub('', s)]: the non-overlapping matches, leftmost first, deleted.
    The scan restarts after each match, so the recursion is on a bound of
    the length of what is left. An empty match deletes nothing and the scan
    moves one character on. *)
Fixpoint sub_empty_from (p : pattern) (fuel : nat) (s : text) : text :=
  match fuel with
  | O => s
  | S fuel' =>
      match s with
      | [] => []
      | c :: s' =>
          match match_here p s with
          | Some (ps, r) =>
              match concat ps with
              | [] => c :: sub_empty_from p fuel' s'
              | _ :: _ => sub_empty_from p fuel' r
              end
          | None => c :: sub_empty_from p fuel' s'
          end
      end
  end.

Definition re_sub_empty (p : pattern) (s : text) : text :=
  sub_empty_from p (length s) s.

(** [re.split(p, s)] for a pattern without groups that matches no empty
    text (an empty match is stepped over): the fields between the matches.
    [cur] is the field being read. *)
Fixpoint split_from (p : pattern) (fuel : nat) (cur : text) (s : text) : list text :=
  match fuel with
  | O => [cur ++ s]
  | S fuel' =>
      match s with
      | [] => [cur]
      | c :: s' =>
          match match_here p s with
          | Some (ps, r) =>
              match concat ps with
              | [] => split_from p fuel' (cur ++ [c]) s'
              | _ :: _ => cur :: split_from p fuel' [] r
              end
          | None => split_from p fuel' (cur ++ [c]) s'
          end
      end
  end.

Definition re_split (p : pattern) (s : text) : list text :=
  split_from p (length s) [] s.

Definition lit (a : ascii) : item := Item (is_char a) Once.

Definition literal (s : string) : pattern := map lit s.

(** ** Python's [int] on text *)

Definition digit_value (c : ascii) : Z := Z.of_N (code c) - 48.

(** The digits of a decimal literal, single underscores allowed between
    digits: the value and the number of digit characters, or [None] where
    [int] raises [ValueError]. *)
Fixpoint int_digits (acc : Z) (n : nat) (after_digit : bool) (s : text)
  : option (Z * nat) :=
  match s with
  | [] => if after_digit then Some (acc, n) else None
  | c :: s' =>
      if is_digit c then int_digits (10 * acc + digit_value c) (S n) true s'
      else if is_char "_" c then
        if after_digit then int_digits acc n false s' else None
      else None
  end.

Definition nonempty (s : text) : bool :=
  match s with [] => false | _ :: _ => true end.

Section Server.

(** [sys.get_int_max_str_digits()]: the interpreter's bound on the number of
    digits [int] converts, 4300 unless configured otherwise; 0 when there is
    no bound (also on interpreters that predate it). *)
Variable int_max_str_digits : nat.

(** [os.path.join(BASE_DIR, 'rapidscan.py')] *)
Variable RAPIDSCAN_PATH : text.

(** [int(s)]: surrounding whitespace, a sign, the digits. [None] is
    [ValueError]. *)
Definition py_int (s : text) : option Z :=
  let t := rstrip_chars is_int_space (lstrip_chars is_int_space s) in
  let '(neg, body) :=
    match t with
    | c :: t' =>
        if is_char "-" c then (true, t')
        else if is_char "+" c then (false, t')
        else (false, t)
    | [] => (false, t)
    end in
  match int_digits 0 0 false body with
  | Some (v, n) =>
      if (0 <? int_max_str_digits)%nat && (int_max_str_digits <? n)%nat then None
      else Some (if neg then - v else v)%Z
  | None => None
  end.

(** [ansi_escape = re.compile(r"\x1B\[[0-?]*[ -/]*[@-~]")] *)
Definition ansi_escape : pattern :=
  [ lit ESC; lit "[";
    Item (char_range "0" "?") Star;
    Item (char_range " " "/") Star;
    Item (char_range "@" "~") Once ].

(** [clean = ansi_escape.sub('', line.rstrip('\n'))] *)
Definition clean_line (line : text) : text :=
  re_sub_empty ansi_escape (rstrip_nl line).

(** [r"Deploying\s+(\d+)\/(\d+)"]; the groups are the items 10 and 12. *)
Definition deploying : pattern :=
  literal "Deploying" ++
  [ Item is_space Plus; Item is_digit Plus; lit "/"; Item is_digit Plus ].

Definition group1 (ps : list text) : text := nth 10 ps [].
Definition group2 (ps : list text) : text := nth 12 ps [].

(** The progress parsing of [_enqueue_output]: the pair to store, or [None]
    when the pattern is absent or a conversion raises, which the [except]
    clause swallows. *)
Definition parse_progress (clean : text) : option (Z * Z) :=
  match re_search deploying clean with
  | Some (_, ps, _) =>
      match py_int (group1 ps) with
      | Some cur =>
          match py_int (group2 ps) with
          | Some total => Some (cur, total)
          | None => None
          end
      | None => None
      end
  | None => None
  end.

(** [r"[,\s]+"] *)
Definition skip_sep : pattern :=
  [ Item (fun c => is_char "," c || is_space c) Plus ].

(** The [--skip] arguments of [start_scan]. *)
Definition skip_args (skip_raw : text) : list text :=
  if nonempty skip_raw then
    flat_map
      (fun tok => let tok := strip tok in
                  if nonempty tok then ["--skip" : text; tok] else [])
      (re_split skip_sep skip_raw)
  else [].

(** [cmd] as [start_scan] builds it from the stripped fields. *)
Definition build_cmd (target skip_raw : text) : list text :=
  (["python3" : text; "-u" : text; RAPIDSCAN_PATH; "-n" : text]
     ++ skip_args skip_raw) ++ [target].

(** ** Sessions

    [scans] maps a scan id to its [meta] dictionary. The dictionary is shared
    by the registry, the two pump threads and every stream generator; the
    store [sessions] holds the dictionaries by allocation order and the
    others hold references into it. *)

(** The [Popen] object: the child process as the server sees it. *)
Record process := Process {
  p_cmd : list text;
  p_exited : bool;          (* the child has terminated *)
  p_stdout_closed : bool;   (* [proc.stdout.close()] was called *)
  p_stderr_closed : bool    (* [proc.stderr.close()] was called *)
}.

(** [meta = { 'proc': proc, 'queue': q, 'progress': 0, 'total': 0,
    'done': False }]; the [queue.Queue] is held with its contents, oldest
    first. *)
Record meta := Meta {
  proc : process;
  queue : list text;
  progress : Z;
  total : Z;
  done : bool
}.

(** Where the thread of [_enqueue_output] stands: in its [for] loop, blocked
    in [proc.wait()], or returned. *)
Inductive out_pc := OutReading | OutWaiting | OutReturned.

(** Where the thread of [_enqueue_err] stands. *)
Inductive err_pc := ErrReading | ErrReturned.

Record session := Session {
  s_meta : meta;
  s_out : out_pc;
  s_err : err_pc
}.

(** Where a generator [event_stream()] stands: before [q.get]; before the
    locked reads; after them and before the [yield] of the progress event,
    with the values of [done], [prog] and [total] it has read; before the
    test [done and q.empty()] with that value of [done]; or finished after
    its [complete] event. *)
Inductive stream_pc :=
  | AtGet
  | AtSnapshot
  | AtProgress (done_seen : bool) (prog tot : Z)
  | AtCheck (done_seen : bool)
  | Closed.

Record generator := Generator {
  g_meta : nat;        (* the [meta] the handler looked up, by reference *)
  g_pc : stream_pc
}.

(** Where a handler of [status] stands once it has found its [meta]: it
    reads [meta['progress']], [meta['total']] and [meta['done']] one after
    the other, without the lock, and answers with what it has read. *)
Inductive poll_pc :=
  | ReadProgress
  | ReadTotal (prog : Z)
  | ReadDone (prog tot : Z)
  | Answered.

Record poll := Poll {
  h_meta : nat;        (* the [meta] the handler looked up, by reference *)
  h_pc : poll_pc
}.

Record world := World {
  scans : gmap string nat;
  sessions : list session;
  streams : list generator;
  polls : list poll
}.

Definition init : world := World ∅ [] [] [].

(** The JSON body of [POST /start]: a field is [None] when absent or null. *)
Record request := Request {
  req_target : option text;
  req_skip : option text
}.

(** What [event_stream] yields: ["data: <line>\n\n"],
    ["event: progress\ndata: {\"progress\": <prog>, \"total\": <total>}\n\n"]
    and ["event: complete\ndata: done\n\n"]. *)
Inductive event :=
  | Data (line : text)
  | Progress (prog tot : Z)
  | Complete.

Inductive response :=
  | TargetRequired                    (* [{'error': 'target is required'}], 400 *)
  | ScanId (scan_id : string)         (* [{'scan_id': scan_id}] *)
  | InvalidScanId                     (* [{'error': 'Invalid scan id'}], 404 *)
  | EventStream (k : nat)             (* [Response(event_stream(), ...)] *)
  | Stopping                          (* [{'status': 'stopping'}] *)
  | StatusOf (prog tot : Z) (d : bool)
  | SpawnError.                       (* the exception of [Popen] leaves the handler *)

(** What a step of the server lets the outside observe. *)
Inductive obs :=
  | Responded (r : response)
  | Spawned (ref : nat) (cmd : list text)
  | Put (ref : nat) (line : text)
  | Yielded (k : nat) (e : event)
  | SendSigint (ref : nat) (ok : bool)
  | Terminate (ref : nat) (ok : bool).

Definition NUL : ascii := "000"%char.

(** [Popen(cmd, ...)]: no child when the system cannot start one ([os_ok]
    false) or when an argument holds a NUL character ([ValueError]). *)
Definition Popen (os_ok : bool) (cmd : list text) : option process :=
  if os_ok && forallb (forallb (fun c => negb (is_char NUL c))) cmd
  then Some (Process cmd false false false)
  else None.

Definition set_progress (m : meta) (cur tot : Z) : meta :=
  Meta (proc m) (queue m) cur tot (done m).

Definition q_put (m : meta) (line : text) : meta :=
  Meta (proc m) (queue m ++ [line]) (progress m) (total m) (done m).

Definition set_queue (m : meta) (q : list text) : meta :=
  Meta (proc m) q (progress m) (total m) (done m).

Definition set_done (m : meta) : meta :=
  Meta (proc m) (queue m) (progress m) (total m) true.

Definition set_proc (m : meta) (p : process) : meta :=
  Meta p (queue m) (progress m) (total m) (done m).

Definition close_stdout (p : process) : process :=
  Process (p_cmd p) (p_exited p) true (p_stderr_closed p).

Definition close_stderr (p : process) : process :=
  Process (p_cmd p) (p_exited p) (p_stdout_closed p) true.

Definition exit_process (p : process) : process :=
  Process (p_cmd p) true (p_stdout_closed p) (p_stderr_closed p).

(** [q.empty()] *)
Definition q_empty (m : meta) : bool :=
  match queue m with [] => true | _ :: _ => false end.

(** The body of the [for] loop of [_enqueue_output] on one line. The two
    stores of [progress] and [total] are made under the lock and are taken
    together: a reader that takes the lock cannot come between them. *)
Definition enqueue_output_line (m : meta) (line : text) : meta :=
  let clean := clean_line line in
  let m1 := match parse_progress clean with
            | Some (cur, tot) => set_progress m cur tot
            | None => m
            end in
  q_put m1 clean.

(** The body of the [for] loop of [_enqueue_err] on one line. *)
Definition enqueue_err_line (m : meta) (line : text) : meta :=
  q_put m (clean_line line).

Definition with_sessions (w : world) (ss : list session) : world :=
  World (scans w) ss (streams w) (polls w).

Definition with_streams (w : world) (gs : list generator) : world :=
  World (scans w) (sessions w) gs (polls w).

Definition with_polls (w : world) (hs : list poll) : world :=
  World (scans w) (sessions w) (streams w) hs.

(** [start_scan()], with the id [uuid.uuid4().hex] gives. *)
Definition start_scan (w : world) (data : request) (scan_id : string) (os_ok : bool)
  : world * list obs :=
  let target := strip (default [] (req_target data)) in
  let skip_raw := strip (default [] (req_skip data)) in
  if negb (nonempty target) then (w, [Responded TargetRequired])
  else
    let cmd := build_cmd target skip_raw in
    match Popen os_ok cmd with
    | None => (w, [Responded SpawnError])
    | Some p =>
        let ref := length (sessions w) in
        let m := Meta p [] 0 0 false in
        (World (<[scan_id := ref]> (scans w))
               (sessions w ++ [Session m OutReading ErrReading])
               (streams w)
               (polls w),
         [Spawned ref cmd; Responded (ScanId scan_id)])
    end.

(** [stream(scan_id)]: the generator is created, nothing of it has run. *)
Definition stream (w : world) (scan_id : string) : world * list obs :=
  match scans w !! scan_id with
  | None => (w, [Responded InvalidScanId])
  | Some ref =>
      (with_streams w (streams w ++ [Generator ref AtGet]),
       [Responded (EventStream (length (streams w)))])
  end.

(** [stop(scan_id)]; [sigint_ok] and [terminate_ok] tell whether
    [proc.send_signal] and [proc.terminate] return or raise. *)
Definition stop (w : world) (scan_id : string) (sigint_ok terminate_ok : bool)
  : world * list obs :=
  match scans w !! scan_id with
  | None => (w, [Responded InvalidScanId])
  | Some ref =>
      if sigint_ok then (w, [SendSigint ref true; Responded Stopping])
      else (w, [SendSigint ref false; Terminate ref terminate_ok; Responded Stopping])
  end.

(** [status(scan_id)] up to the lookup under the lock: an unknown id is
    answered at once; for a known one the handler holds the [meta] it found
    and has read nothing of it yet. *)
Definition status (w : world) (scan_id : string) : world * list obs :=
  match scans w !! scan_id with
  | None => (w, [Responded InvalidScanId])
  | Some ref => (with_polls w (polls w ++ [Poll ref ReadProgress]), [])
  end.

(** The handler [h] of [status] reads the next of [meta['progress']],
    [meta['total']] and [meta['done']], in the order the dictionary of the
    answer names them and without the lock, so that other threads can take
    steps between two reads; with the third it answers. *)
Definition status_read (w : world) (h : nat) : option (world * list obs) :=
  p ← polls w !! h;
  s ← sessions w !! h_meta p;
  let m := s_meta s in
  match h_pc p with
  | ReadProgress =>
      Some (with_polls w (<[h := Poll (h_meta p) (ReadTotal (progress m))]> (polls w)), [])
  | ReadTotal prog =>
      Some (with_polls w (<[h := Poll (h_meta p) (ReadDone prog (total m))]> (polls w)), [])
  | ReadDone prog tot =>
      Some (with_polls w (<[h := Poll (h_meta p) Answered]> (polls w)),
            [Responded (StatusOf prog tot (done m))])
  | Answered => None
  end.

(** The generator [k] at [line = q.get(timeout=0.5)]: the oldest line is
    taken from the queue and yielded, or the queue is empty and the wait
    ends in [queue.Empty]. *)
Definition stream_get (w : world) (k : nat) : option (world * list obs) :=
  g ← streams w !! k;
  match g_pc g with
  | AtGet =>
      s ← sessions w !! g_meta g;
      let gs := <[k := Generator (g_meta g) AtSnapshot]> (streams w) in
      match queue (s_meta s) with
      | line :: rest =>
          Some (World (scans w)
                      (<[g_meta g := Session (set_queue (s_meta s) rest) (s_out s) (s_err s)]>
                         (sessions w))
                      gs
                      (polls w),
                [Yielded k (Data line)])
      | [] => Some (with_streams w gs, [])
      end
  | _ => None
  end.

(** The generator [k] reads [done], [progress] and [total] under the lock,
    which the writes of the thread of [_enqueue_output] take as well. *)
Definition stream_snapshot (w : world) (k : nat) : option (world * list obs) :=
  g ← streams w !! k;
  match g_pc g with
  | AtSnapshot =>
      s ← sessions w !! g_meta g;
      let m := s_meta s in
      Some (with_streams w
              (<[k := Generator (g_meta g) (AtProgress (done m) (progress m) (total m))]>
                 (streams w)),
            [])
  | _ => None
  end.

(** The generator [k], the lock released, yields the progress event with
    the values it has read. *)
Definition stream_yield (w : world) (k : nat) : option (world * list obs) :=
  g ← streams w !! k;
  match g_pc g with
  | AtProgress d prog tot =>
      Some (with_streams w (<[k := Generator (g_meta g) (AtCheck d)]> (streams w)),
            [Yielded k (Progress prog tot)])
  | _ => None
  end.

(** The generator [k] at [if done and q.empty()]. *)
Definition stream_check (w : world) (k : nat) : option (world * list obs) :=
  g ← streams w !! k;
  match g_pc g with
  | AtCheck d =>
      s ← sessions w !! g_meta g;
      if d && q_empty (s_meta s)
      then Some (with_streams w (<[k := Generator (g_meta g) Closed]> (streams w)),
                 [Yielded k Complete])
      else Some (with_streams w (<[k := Generator (g_meta g) AtGet]> (streams w)), [])
  | _ => None
  end.

Definition with_session (w : world) (ref : nat) (s : session) : world :=
  with_sessions w (<[ref := s]> (sessions w)).

(** The thread of [_enqueue_output] on the session [ref] gets [line] from
    [proc.stdout.readline()]: the empty text is the end of the stream, which
    ends the loop and closes the handle. *)
Definition out_read (w : world) (ref : nat) (line : text) : option (world * list obs) :=
  s ← sessions w !! ref;
  match s_out s with
  | OutReading =>
      if nonempty line then
        Some (with_session w ref
                (Session (enqueue_output_line (s_meta s) line) OutReading (s_err s)),
              [Put ref (clean_line line)])
      else
        Some (with_session w ref
                (Session (set_proc (s_meta s) (close_stdout (proc (s_meta s))))
                         OutWaiting (s_err s)),
              [])
  | _ => None
  end.

(** [proc.wait()] returns, which it does once the child has terminated, and
    the thread sets [done]. *)
Definition out_wait (w : world) (ref : nat) : option (world * list obs) :=
  s ← sessions w !! ref;
  match s_out s with
  | OutWaiting =>
      if p_exited (proc (s_meta s)) then
        Some (with_session w ref (Session (set_done (s_meta s)) OutReturned (s_err s)), [])
      else None
  | _ => None
  end.

(** The thread of [_enqueue_err] gets [line] from [proc.stderr.readline()]. *)
Definition err_read (w : world) (ref : nat) (line : text) : option (world * list obs) :=
  s ← sessions w !! ref;
  match s_err s with
  | ErrReading =>
      if nonempty line then
        Some (with_session w ref
                (Session (enqueue_err_line (s_meta s) line) (s_out s) ErrReading),
              [Put ref (clean_line line)])
      else
        Some (with_session w ref
                (Session (set_proc (s_meta s) (close_stderr (proc (s_meta s))))
                         (s_out s) ErrReturned),
              [])
  | _ => None
  end.

(** The child of the session [ref] terminates. *)
Definition child_exit (w : world) (ref : nat) : option (world * list obs) :=
  s ← sessions w !! ref;
  if p_exited (proc (s_meta s)) then None
  else Some (with_session w ref
               (Session (set_proc (s_meta s) (exit_process (proc (s_meta s))))
                        (s_out s) (s_err s)),
             []).

(** What can happen next: a request is handled, a thread or a generator
    takes its next step, a child terminates. *)
Inductive action :=
  | DoStart (data : request) (scan_id : string) (os_ok : bool)
  | DoStream (scan_id : string)
  | DoStop (scan_id : string) (sigint_ok terminate_ok : bool)
  | DoStatus (scan_id : string)
  | StatusRead (h : nat)
  | StreamGet (k : nat)
  | StreamSnapshot (k : nat)
  | StreamYield (k : nat)
  | StreamCheck (k : nat)
  | OutRead (ref : nat) (line : text)
  | OutWait (ref : nat)
  | ErrRead (ref : nat) (line : text)
  | ChildExit (ref : nat).

(** One step; [None] when the action cannot be taken in this world. *)
Definition step (w : world) (a : action) : option (world * list obs) :=
  match a with
  | DoStart data scan_id os_ok => Some (start_scan w data scan_id os_ok)
  | DoStream scan_id => Some (stream w scan_id)
  | DoStop scan_id sigint_ok terminate_ok => Some (stop w scan_id sigint_ok terminate_ok)
  | DoStatus scan_id => Some (status w scan_id)
  | StatusRead h => status_read w h
  | StreamGet k => stream_get w k
  | StreamSnapshot k => stream_snapshot w k
  | StreamYield k => stream_yield w k
  | StreamCheck k => stream_check w k
  | OutRead ref line => out_read w ref line
  | OutWait ref => out_wait w ref
  | ErrRead ref line => err_read w ref line
  | ChildExit ref => child_exit w ref
  end.

(** A schedule run from [w]: the world reached and all that was observed. *)
Fixpoint run (w : world) (acts : list action) : option (world * list obs) :=
  match acts with
  | [] => Some (w, [])
  | a :: acts' =>
      '(w1, o1) ← step w a;
      '(w2, o2) ← run w1 acts';
      Some (w2, o1 ++ o2)
  end.

(** ** Vocabulary of the specification *)

(** A piece of text is what an item can match. *)
Definition conforms (it : item) (piece : text) : Prop :=
  forallb (icls it) piece = true /\
  match iquant it with
  | Once => length piece = 1
  | Star => True
  | Plus => piece <> []
  end.

(** A control sequence as [ansi_escape] describes it: ESC, an opening
    bracket, parameter characters, intermediate characters, a final one. *)
Definition is_csi (e : text) : Prop :=
  exists params inter final,
    e = ESC :: "["%char :: params ++ inter ++ [final] /\
    forallb (char_range "0" "?") params = true /\
    forallb (char_range " " "/") inter = true /\
    char_range "@" "~" final = true.

Definition starts_csi (s : text) : Prop :=
  exists e r, is_csi e /\ s = e ++ r.

(** No control sequence starts anywhere in [s]. *)
Definition csi_free (s : text) : Prop :=
  forall pre post, s = pre ++ post -> ~ starts_csi post.

(** [csi_removed s o]: [o] is [s] with its control sequences deleted, read
    from the left; a character that starts none is kept. *)
Inductive csi_removed : text -> text -> Prop :=
  | removed_nil : csi_removed [] []
  | removed_csi e r o :
      is_csi e -> csi_removed r o -> csi_removed (e ++ r) o
  | removed_keep c r o :
      ~ starts_csi (c :: r) -> csi_removed r o -> csi_removed (c :: r) (c :: o).

(** An escape sequence of a VT100 or ANSI terminal, as ECMA-48 and ECMA-35
    have them: a control sequence; an operating system command, ESC and a
    closing bracket, printable text and BEL; or ESC, intermediate characters
    and a final character that opens neither of the two, such as ESC c
    (reset), ESC 7 and ESC 8 (save and restore the cursor) and ESC ( B
    (character set). *)
Definition is_escape_sequence (e : text) : Prop :=
  is_csi e \/
  (exists body,
      e = ESC :: "]"%char :: body ++ [BEL] /\
      forallb (char_range " " "~") body = true) \/
  (exists inter final,
      e = ESC :: inter ++ [final] /\
      forallb (char_range " " "/") inter = true /\
      char_range "0" "~" final = true /\
      final <> "["%char /\ final <> "]"%char).

(** The sanitizer read as removing every escape sequence: none is left in
    its result. *)
Definition all_sequences_removed : Prop :=
  forall line pre e post,
    clean_line line = pre ++ e ++ post -> ~ is_escape_sequence e.

(** The pieces of a match of [deploying]. *)
Definition deploying_pieces (ws d1 d2 : text) : list text :=
  map (fun c => [c]) "Deploying" ++ [ws; d1; ["/"%char]; d2].

(** The number a run of decimal digits denotes. *)
Definition decimal (d : text) : Z :=
  fold_left (fun acc c => 10 * acc + digit_value c)%Z d 0%Z.

Definition digits (d : text) : Prop := d <> [] /\ forallb is_digit d = true.

Definition spaces (ws : text) : Prop := ws <> [] /\ forallb is_space ws = true.

(** ["Deploying <current>/<total>"] stands in [s] after [pre]: whitespace
    [ws], the digits [d1], a slash and the whole run of digits [d2]. *)
Definition deploying_at (s pre ws d1 d2 post : text) : Prop :=
  s = pre ++ "Deploying" ++ ws ++ d1 ++ "/" ++ d2 ++ post /\
  spaces ws /\ digits d1 /\ digits d2 /\
  match post with c :: _ => is_digit c = false | [] => True end.

Definition has_deploying (s : text) : Prop :=
  exists pre ws d1 d2 post, deploying_at s pre ws d1 d2 post.

(** The leftmost occurrence. *)
Definition first_deploying (s pre ws d1 d2 post : text) : Prop :=
  deploying_at s pre ws d1 d2 post /\
  forall pre' ws' d1' d2' post',
    deploying_at s pre' ws' d1' d2' post' -> length pre <= length pre'.

(** [int] converts a run of [d] digits: there is no bound or the run is
    within it. *)
Definition within_limit (d : text) : bool :=
  (int_max_str_digits =? 0)%nat || (length d <=? int_max_str_digits)%nat.

(** A separator of the skip list: a comma or whitespace. *)
Definition is_sep (c : ascii) : bool := is_char "," c || is_space c.

(** No separator in [t]. *)
Definition no_sep (t : text) : bool := forallb (fun c => negb (is_sep c)) t.

(** The tokens of a skip list as the specification words them: the text is
    split on runs of commas and whitespace and empty tokens are discarded,
    which leaves the maximal runs of other characters, in order. [cur] is
    the token being read. *)
Fixpoint tokens_from (cur : text) (s : text) : list text :=
  match s with
  | [] => if nonempty cur then [cur] else []
  | c :: s' =>
      if is_sep c then (if nonempty cur then [cur] else []) ++ tokens_from [] s'
      else tokens_from (cur ++ [c]) s'
  end.

Definition skip_tokens (skip : text) : list text := tokens_from [] skip.

(** [tokenized s ts]: [s] is the tokens [ts], each non-empty and free of
    separators, with runs of separators between them and possibly around
    them. *)
Inductive tokenized : text -> list text -> Prop :=
  | tokenized_end seps :
      forallb is_sep seps = true -> tokenized seps []
  | tokenized_token seps tok rest ts :
      forallb is_sep seps = true ->
      tok <> [] -> no_sep tok = true ->
      match rest with c :: _ => is_sep c = true | [] => True end ->
      tokenized rest ts ->
      tokenized (seps ++ tok ++ rest) (tok :: ts).

(** The lines put on the queue of the session [ref], in order. *)
Definition lines_put (ref : nat) (tr : list obs) : list text :=
  flat_map (fun o => match o with
                     | Put r l => if decide (r = ref) then [l] else []
                     | _ => []
                     end) tr.

(** What the generator [k] has yielded, in order. *)
Definition yields (k : nat) (tr : list obs) : list event :=
  flat_map (fun o => match o with
                     | Yielded k' e => if decide (k' = k) then [e] else []
                     | _ => []
                     end) tr.

Definition data_lines (es : list event) : list text :=
  flat_map (fun e => match e with Data l => [l] | _ => [] end) es.

(** The data lines the generator [k] has yielded. *)
Definition lines_seen (k : nat) (tr : list obs) : list text :=
  data_lines (yields k tr).

Definition stream_on (w : world) (k ref : nat) : bool :=
  match streams w !! k with
  | Some g => bool_decide (g_meta g = ref)
  | None => false
  end.

(** The data lines the generators of the session [ref] have yielded, all
    together, in the order of the yields. *)
Definition lines_taken (w : world) (ref : nat) (tr : list obs) : list text :=
  flat_map (fun o => match o with
                     | Yielded k (Data l) => if stream_on w k ref then [l] else []
                     | _ => []
                     end) tr.

Definition queue_of (w : world) (ref : nat) : list text :=
  match sessions w !! ref with
  | Some s => queue (s_meta s)
  | None => []
  end.

(** What is observed after the subscription of the generator [k]. *)
Fixpoint after_subscription (k : nat) (tr : list obs) : list obs :=
  match tr with
  | [] => []
  | Responded (EventStream k') :: tr' =>
      if decide (k' = k) then tr' else after_subscription k tr'
  | _ :: tr' => after_subscription k tr'
  end.

(** What is observed up to the [complete] event of the generator [k]. *)
Fixpoint until_complete (k : nat) (tr : list obs) : list obs :=
  match tr with
  | [] => []
  | Yielded k' Complete :: tr' =>
      if decide (k' = k) then [] else Yielded k' Complete :: until_complete k tr'
  | o :: tr' => o :: until_complete k tr'
  end.

(** The event buffer read as a broadcast log: a generator that has run to
    its end has yielded every line put on the queue of its session between
    its subscription and its [complete] event. *)
Definition broadcast_log : Prop :=
  forall acts w tr k g,
    run init acts = Some (w, tr) ->
    streams w !! k = Some g ->
    g_pc g = Closed ->
    sublist (lines_put (g_meta g) (until_complete k (after_subscription k tr)))
            (lines_seen k tr).




(** The [except] clause of the progress parsing read as dead code: a match
    always gives a pair. *)
Definition conversion_never_raises : Prop :=
  forall clean pre ps post,
    re_search deploying clean = Some (pre, ps, post) ->
    exists cur tot, parse_progress clean = Some (cur, tot).

(** How a step changes the session [ref]: a generator takes the oldest line
    of the queue, a pump thread takes its next step, or the child
    terminates. *)
Inductive session_trans : action -> nat -> session -> session -> Prop :=
  | trans_take k ref s line rest :
      queue (s_meta s) = line :: rest ->
      session_trans (StreamGet k) ref s
        (Session (set_queue (s_meta s) rest) (s_out s) (s_err s))
  | trans_out_line ref line s :
      s_out s = OutReading -> nonempty line = true ->
      session_trans (OutRead ref line) ref s
        (Session (enqueue_output_line (s_meta s) line) OutReading (s_err s))
  | trans_out_eof ref line s :
      s_out s = OutReading -> nonempty line = false ->
      session_trans (OutRead ref line) ref s
        (Session (set_proc (s_meta s) (close_stdout (proc (s_meta s)))) OutWaiting (s_err s))
  | trans_out_wait ref s :
      s_out s = OutWaiting -> p_exited (proc (s_meta s)) = true ->
      session_trans (OutWait ref) ref s
        (Session (set_done (s_meta s)) OutReturned (s_err s))
  | trans_err_line ref line s :
      s_err s = ErrReading -> nonempty line = true ->
      session_trans (ErrRead ref line) ref s
        (Session (enqueue_err_line (s_meta s) line) (s_out s) ErrReading)
  | trans_err_eof ref line s :
      s_err s = ErrReading -> nonempty line = false ->
      session_trans (ErrRead ref line) ref s
        (Session (set_proc (s_meta s) (close_stderr (proc (s_meta s)))) (s_out s) ErrReturned)
  | trans_exit ref s :
      p_exited (proc (s_meta s)) = false ->
      session_trans (ChildExit ref) ref s
        (Session (set_proc (s_meta s) (exit_process (proc (s_meta s)))) (s_out s) (s_err s)).

(** What the thread of [_enqueue_output] has done of its work: [done] is set
    when it has returned and only then, after the end of the child's output
    was read, the handle closed and the child found terminated. *)
Definition session_ok (s : session) : Prop :=
  match s_out s with
  | OutReading =>
      done (s_meta s) = false /\ p_stdout_closed (proc (s_meta s)) = false
  | OutWaiting =>
      done (s_meta s) = false /\ p_stdout_closed (proc (s_meta s)) = true
  | OutReturned =>
      done (s_meta s) = true /\ p_stdout_closed (proc (s_meta s)) = true /\
      p_exited (proc (s_meta s)) = true
  end.

(** The events of whole passes through the loop of [event_stream]: each
    pass yields one progress event, after the data event if it got a line. *)
Inductive iterations : list event -> Prop :=
  | iter_none : iterations []
  | iter_quiet es p t : iterations es -> iterations (es ++ [Progress p t])
  | iter_data es l p t : iterations es -> iterations (es ++ [Data l; Progress p t]).

(** What a generator standing at [pc] has yielded so far. *)
Definition stream_shape (pc : stream_pc) (es : list event) : Prop :=
  match pc with
  | AtGet => iterations es
  | AtSnapshot | AtProgress _ _ _ =>
      iterations es \/ exists es' l, es = es' ++ [Data l] /\ iterations es'
  | AtCheck _ => iterations es /\ es <> []
  | Closed => exists es', es = es' ++ [Complete] /\ iterations es' /\ es' <> []
  end.

(** Every generator has the history its position tells; there is no history
    of a generator that does not exist. *)
Definition streams_shaped (w : world) (hist : nat -> list event) : Prop :=
  forall k,
    match streams w !! k with
    | Some g => stream_shape (g_pc g) (hist k)
    | None => hist k = []
    end.

(** How a step of the generator [k], which is [g] in [w], moves it: the
    position it reaches and what it yields. *)
Inductive gen_trans (w : world) (k : nat) (g : generator)
  : action -> stream_pc -> list event -> Prop :=
  | gen_get_empty s :
      g_pc g = AtGet -> sessions w !! g_meta g = Some s -> queue (s_meta s) = [] ->
      gen_trans w k g (StreamGet k) AtSnapshot []
  | gen_get_line s line rest :
      g_pc g = AtGet -> sessions w !! g_meta g = Some s ->
      queue (s_meta s) = line :: rest ->
      gen_trans w k g (StreamGet k) AtSnapshot [Data line]
  | gen_snapshot s :
      g_pc g = AtSnapshot -> sessions w !! g_meta g = Some s ->
      gen_trans w k g (StreamSnapshot k)
        (AtProgress (done (s_meta s)) (progress (s_meta s)) (total (s_meta s))) []
  | gen_yield d p t :
      g_pc g = AtProgress d p t ->
      gen_trans w k g (StreamYield k) (AtCheck d) [Progress p t]
  | gen_complete s :
      g_pc g = AtCheck true -> sessions w !! g_meta g = Some s ->
      queue (s_meta s) = [] ->
      gen_trans w k g (StreamCheck k) Closed [Complete]
  | gen_again s d :
      g_pc g = AtCheck d -> sessions w !! g_meta g = Some s ->
      d = false \/ queue (s_meta s) <> [] ->
      gen_trans w k g (StreamCheck k) AtGet [].

(** ** Vocabulary for runs *)

(** The non-empty lines the two pump threads of the session [ref] read in a
    schedule, sanitized, in reading order. *)
Definition lines_read (ref : nat) (acts : list action) : list text :=
  flat_map (fun a => match a with
                     | OutRead r l | ErrRead r l =>
                         if decide (r = ref) then
                           if nonempty l then [clean_line l] else []
                         else []
                     | _ => []
                     end) acts.

(** The non-empty lines the thread of [_enqueue_output] of the session
    [ref] reads in a schedule. *)
Definition stdout_lines (ref : nat) (acts : list action) : list text :=
  flat_map (fun a => match a with
                     | OutRead r l =>
                         if decide (r = ref) then if nonempty l then [l] else [] else []
                     | _ => []
                     end) acts.

(** The pair of the last of [lines] that gives one, [start] when none does. *)
Definition latest_progress (start : Z * Z) (lines : list text) : Z * Z :=
  fold_left (fun acc l => default acc (parse_progress (clean_line l))) lines start.

(** The pair [(progress, total)] the session [ref] holds. *)
Definition pair_of (w : world) (ref : nat) : Z * Z :=
  match sessions w !! ref with
  | Some s => (progress (s_meta s), total (s_meta s))
  | None => (0, 0)%Z
  end.

(** Every reference of the registry and of the generators is one of the
    store. *)
Definition refs_valid (w : world) : Prop :=
  (forall id ref, scans w !! id = Some ref -> ref < length (sessions w)) /\
  (forall k g, streams w !! k = Some g -> g_meta g < length (sessions w)).

(** The children spawned, with the reference of their session. *)
Definition spawned (tr : list obs) : list (nat * list text) :=
  flat_map (fun o => match o with Spawned ref cmd => [(ref, cmd)] | _ => [] end) tr.

(** One pass of the generator [k] through its loop, and [n] passes. *)
Definition pass (k : nat) : list action :=
  [StreamGet k; StreamSnapshot k; StreamYield k; StreamCheck k].

Fixpoint passes (k n : nat) : list action :=
  match n with
  | O => []
  | S n' => pass k ++ passes k n'
  end.



(** Both pump threads of a session have left their loops. *)
Definition pumps_ended (s : session) : Prop :=
  s_out s <> OutReading /\ s_err s = ErrReturned.


(** The session a step works on: that of the thread or the child, or that
    of the generator that takes a line. The handlers work on none. *)
Definition works_on (w : world) (a : action) : option nat :=
  match a with
  | OutRead r _ | OutWait r | ErrRead r _ | ChildExit r => Some r
  | StreamGet k => g_meta <$> streams w !! k
  | _ => None
  end.

(** A generator that has read [done] as true, or has finished, belongs to a
    session that is done. *)
Definition finished_are_done (w : world) : Prop :=
  forall k g s,
    streams w !! k = Some g -> sessions w !! g_meta g = Some s ->
    (exists p t, g_pc g = AtProgress true p t) \/ g_pc g = AtCheck true \/ g_pc g = Closed ->
    done (s_meta s) = true.

(** The events of a generator that empties a queue and finishes. *)
Definition drained (q : list text) (p t : Z) : list event :=
  match q with
  | [] => [Progress p t; Complete]
  | _ :: _ => flat_map (fun l => [Data l; Progress p t]) q ++ [Complete]
  end.


(** ** The text of the events *)

Definition quote : ascii := "034"%char.
Definition CR : ascii := "013"%char.

Definition int_digits_of (d : Decimal.int) : nat :=
  match d with Decimal.Pos u | Decimal.Neg u => Decimal.nb_digits u end.

(** [str(z)] of an integer, as an f-string formats it: the decimal digits,
    after a minus sign when negative. [None] is the [ValueError] of an
    integer with more digits than the bound. *)
Definition py_str (z : Z) : option text :=
  let d := Z.to_int z in
  if (int_max_str_digits =? 0)%nat || (int_digits_of d <=? int_max_str_digits)%nat
  then Some (list_ascii_of_string (DecimalString.NilZero.string_of_int d))
  else None.

(** The string [event_stream] yields for an event; [None] when formatting
    it raises. *)
Definition event_text (e : event) : option text :=
  match e with
  | Data line => Some ("data: " ++ line ++ [newline; newline])
  | Progress prog tot =>
      sp ← py_str prog;
      st ← py_str tot;
      Some (("event: progress" ++ [newline] ++
             "data: {" ++ [quote] ++ "progress" ++ [quote] ++ ": ") ++
            sp ++ (", " ++ [quote] ++ "total" ++ [quote] ++ ": ") ++
            st ++ ("}" ++ [newline; newline]))
  | Complete => Some ("event: complete" ++ [newline] ++ "data: done" ++ [newline; newline])
  end.

(** An integer the progress event can show: not negative, and [str] converts
    it. *)
Definition printable (z : Z) : Prop := (0 <= z)%Z /\ is_Some (py_str z).

Definition session_printable (s : session) : Prop :=
  printable (progress (s_meta s)) /\ printable (total (s_meta s)).

(** The pair a generator holds between its locked read and its [yield]. *)
Definition generator_printable (g : generator) : Prop :=
  match g_pc g with
  | AtProgress _ p t => printable p /\ printable t
  | _ => True
  end.

(** What the sessions hold and what the generators have read of it can be
    shown. *)
Definition world_printable (w : world) : Prop :=
  (forall ref s, sessions w !! ref = Some s -> session_printable s) /\
  (forall k g, streams w !! k = Some g -> generator_printable g).

(** A text of digits as a numeral. *)
Fixpoint numeral (d : text) : Decimal.uint :=
  match d with
  | [] => Decimal.Nil
  | c :: d' =>
      match c with
      | "0" => Decimal.D0 | "1" => Decimal.D1 | "2" => Decimal.D2
      | "3" => Decimal.D3 | "4" => Decimal.D4 | "5" => Decimal.D5
      | "6" => Decimal.D6 | "7" => Decimal.D7 | "8" => Decimal.D8
      | _ => Decimal.D9
      end%char (numeral d')
  end.

(** The characters [str] of an integer is made of. *)
Definition num_char (c : ascii) : bool := is_digit c || is_char "-" c.

(** What [readline] gives on a pipe opened with universal newlines: no
    carriage return, and no newline but a last one. *)
Definition readline_line (l : text) : Prop :=
  exists body, (l = body \/ l = body ++ [newline]) /\ ~ In newline body /\ ~ In CR body.

(** Every line the pump threads read in a schedule is one of [readline]. *)
Definition readline_lines (acts : list action) : Prop :=
  forall r l, In (OutRead r l) acts \/ In (ErrRead r l) acts -> readline_line l.

(** A text that is one event of an event stream: it ends in a blank line,
    and there is no blank line and no carriage return before. *)
Definition one_frame (t : text) : Prop :=
  exists body,
    t = body ++ [newline; newline] /\
    ~ In CR body /\
    last body <> Some newline /\
    forall pre post, body <> pre ++ [newline; newline] ++ post.


(** The lines of every queue are free of newlines and carriage returns. *)
Definition queues_clean (w : world) : Prop :=
  forall ref s x,
    sessions w !! ref = Some s -> In x (queue (s_meta s)) ->
    ~ In newline x /\ ~ In CR x.

(** ** Examples *)

(** A scan with two stream requests: the child writes one line, the first
    generator takes it, the child ends, both generators run to their end. *)
Definition two_readers : list action :=
  [ DoStart (Request (Some (" example.com " : text)) (Some ("a, b  c" : text))) "id0" true;
    DoStream "id0";
    DoStream "id0";
    OutRead 0 ("Deploying 1/10" ++ [newline]);
    StreamGet 0; StreamSnapshot 0; StreamYield 0; StreamCheck 0;
    StreamGet 1; StreamSnapshot 1; StreamYield 1; StreamCheck 1;
    OutRead 0 [];
    ErrRead 0 [];
    ChildExit 0;
    OutWait 0;
    StreamGet 0; StreamSnapshot 0; StreamYield 0; StreamCheck 0;
    StreamGet 1; StreamSnapshot 1; StreamYield 1; StreamCheck 1 ].


Definition example_path : text := "/srv/rapidscan/rapidscan.py".

(** A progress line whose total has more digits than the default bound. *)
Definition long_total : text := "Deploying 1/" ++ repeat "9"%char 4301.


Definition example_meta : meta := Meta (Process [] false false false) [] 7 9 false.

Definition coloured_line : text :=
  "abc" ++ [ESC] ++ "[31;1mred" ++ [ESC] ++ "[0m" ++ [newline].

(** A scan whose child writes to both pipes and ends before the one
    generator has taken a line. *)
Definition backlog : list action :=
  [ DoStart (Request (Some ("example.com" : text)) None) "id0" true;
    DoStream "id0";
    OutRead 0 ("Deploying 1/10" ++ [newline]);
    ErrRead 0 ("Deploying 7/10" ++ [newline]);
    OutRead 0 ("Deploying 5/10" ++ [newline]);
    OutRead 0 [];
    ErrRead 0 [];
    ChildExit 0;
    OutWait 0 ].

(** Two scans, the first of which has a line in its queue. *)
Definition two_scans : list action :=
  [ DoStart (Request (Some ("a.example" : text)) None) "id0" true;
    DoStart (Request (Some ("b.example" : text)) None) "id1" true;
    OutRead 0 ("up" ++ [newline]) ].

(** The sequence that resets the colours. *)
Definition reset_colours : text := [ESC] ++ "[0m".

(** The sequence that resets the terminal, and one that sets the title of
    its window. *)
Definition reset_terminal : text := [ESC] ++ "c".
Definition window_title : text := [ESC] ++ "]0;scan" ++ [BEL].



(** * Properties *)

(** ** Text *)

Lemma lstrip_chars_split f s :
  exists ws, s = ws ++ lstrip_chars f s /\ forallb f ws = true.
Proof.
  induction s as [|c s IH]; simpl.
  - exists []. auto.
  - destruct (f c) eqn:Hc.
    + destruct IH as (ws & Hs & Hws). exists (c :: ws). simpl.
      rewrite Hc, Hws. split; [congruence | reflexivity].
    + exists []. auto.
Qed.

Lemma lstrip_chars_head f s :
  match lstrip_chars f s with c :: _ => f c = false | [] => True end.
Proof.
  induction s as [|c s IH]; simpl; [exact I|].
  destruct (f c) eqn:Hc; [exact IH | exact Hc].
Qed.

Lemma forallb_rev (f : ascii -> bool) l : forallb f (rev l) = forallb f l.
Proof.
  induction l as [|c l IH]; simpl; [reflexivity|].
  rewrite forallb_app, IH. simpl. rewrite andb_true_r. apply andb_comm.
Qed.

Lemma rstrip_chars_split f s :
  exists ws, s = rstrip_chars f s ++ ws /\ forallb f ws = true.
Proof.
  unfold rstrip_chars.
  destruct (lstrip_chars_split f (rev s)) as (ws & Hs & Hws).
  exists (rev ws). split.
  - rewrite <- rev_app_distr, <- Hs, rev_involutive. reflexivity.
  - rewrite forallb_rev. exact Hws.
Qed.

Lemma lstrip_chars_id f c s : f c = false -> lstrip_chars f (c :: s) = c :: s.
Proof. intros H. simpl. rewrite H. reflexivity. Qed.

Lemma rstrip_chars_snoc_keep f s c :
  f c = false -> rstrip_chars f (s ++ [c]) = s ++ [c].
Proof.
  intros H. unfold rstrip_chars. rewrite rev_app_distr. simpl.
  rewrite H. simpl. rewrite rev_involutive. reflexivity.
Qed.

Lemma rstrip_chars_snoc_drop f s c :
  f c = true -> rstrip_chars f (s ++ [c]) = rstrip_chars f s.
Proof.
  intros H. unfold rstrip_chars. rewrite rev_app_distr. simpl.
  rewrite H. reflexivity.
Qed.

Lemma rstrip_chars_app_drop f s ws :
  forallb f ws = true -> rstrip_chars f (s ++ ws) = rstrip_chars f s.
Proof.
  revert s. induction ws as [|c ws IH] using rev_ind; intros s H.
  - rewrite app_nil_r. reflexivity.
  - rewrite forallb_app in H. apply andb_true_iff in H as [H1 H2].
    simpl in H2. rewrite andb_true_r in H2.
    rewrite app_assoc, rstrip_chars_snoc_drop by exact H2. apply IH, H1.
Qed.

(** ** The matcher *)

Lemma greedy_sound cls k s m r :
  greedy cls k s = Some (m, r) ->
  forallb cls m = true /\ exists s', s = m ++ s' /\ k s' = Some r.
Proof.
  revert m r. induction s as [|c s IH]; intros m r; simpl.
  - destruct (k []) eqn:Hk; simpl; [|discriminate].
    intros [= <- <-]. split; [reflexivity|]. exists []. auto.
  - destruct (cls c) eqn:Hc.
    + destruct (greedy cls k s) as [[m' r']|] eqn:Hg.
      * intros [= <- <-]. destruct (IH _ _ eq_refl) as (Hm & s' & -> & Hk).
        simpl. rewrite Hc, Hm. split; [reflexivity|]. exists s'. auto.
      * destruct (k (c :: s)) eqn:Hk; simpl; [|discriminate].
        intros [= <- <-]. split; [reflexivity|]. exists (c :: s). auto.
    + destruct (k (c :: s)) eqn:Hk; simpl; [|discriminate].
      intros [= <- <-]. split; [reflexivity|]. exists (c :: s). auto.
Qed.

Lemma greedy_complete cls k m s' :
  forallb cls m = true -> is_Some (k s') -> is_Some (greedy cls k (m ++ s')).
Proof.
  intros Hm [r Hk]. induction m as [|c m IH]; simpl in *.
  - destruct s' as [|c s]; simpl; [rewrite Hk; eauto|].
    destruct (cls c); [|rewrite Hk; simpl; eauto].
    destruct (greedy cls k s) as [[m' r']|]; [eauto|]. rewrite Hk. simpl. eauto.
  - apply andb_true_iff in Hm as [Hc Hm]. rewrite Hc.
    destruct (IH Hm) as [[m' r'] ->]. eauto.
Qed.

(** The last starred item takes all it can. *)
Lemma greedy_last cls s :
  exists m r,
    greedy cls (match_here []) s = Some (m, ([], r)) /\
    s = m ++ r /\ forallb cls m = true /\
    match r with c :: _ => cls c = false | [] => True end.
Proof.
  induction s as [|c s IH]; cbn [greedy].
  - exists [], []. auto.
  - destruct (cls c) eqn:Hc.
    + destruct IH as (m & r & -> & -> & Hm & Hr).
      exists (c :: m), r. simpl. rewrite Hc, Hm. auto.
    + exists [], (c :: s). simpl. auto.
Qed.

Lemma match_here_sound p s ps r :
  match_here p s = Some (ps, r) ->
  s = concat ps ++ r /\ Forall2 conforms p ps.
Proof.
  revert s ps r. induction p as [|[cls q] p IH]; intros s ps r; simpl.
  - intros [= <- <-]. split; [reflexivity | constructor].
  - destruct q.
    + destruct s as [|c s]; [discriminate|].
      destruct (cls c) eqn:Hc; [|discriminate].
      destruct (match_here p s) as [[ps' r']|] eqn:Hm; [|discriminate].
      intros [= <- <-]. destruct (IH _ _ _ Hm) as [-> HF].
      split; [reflexivity|]. constructor; [|exact HF].
      split; simpl; [rewrite Hc|]; reflexivity.
    + destruct (greedy cls (match_here p) s) as [[m [ps' r']]|] eqn:Hg; [|discriminate].
      intros [= <- <-]. apply greedy_sound in Hg as (Hm & s' & -> & Hk).
      destruct (IH _ _ _ Hk) as [-> HF].
      split; [simpl; rewrite app_assoc; reflexivity|].
      constructor; [|exact HF]. split; simpl; auto.
    + destruct s as [|c s]; [discriminate|].
      destruct (cls c) eqn:Hc; [|discriminate].
      destruct (greedy cls (match_here p) s) as [[m [ps' r']]|] eqn:Hg; [|discriminate].
      intros [= <- <-]. apply greedy_sound in Hg as (Hm & s' & -> & Hk).
      destruct (IH _ _ _ Hk) as [-> HF].
      split; [simpl; rewrite app_assoc; reflexivity|].
      constructor; [|exact HF]. split; simpl; [rewrite Hc, Hm; reflexivity | discriminate].
Qed.

Lemma match_here_complete p ps r :
  Forall2 conforms p ps -> is_Some (match_here p (concat ps ++ r)).
Proof.
  induction 1 as [|[cls q] piece p ps [Hcls Hq] HF IH]; simpl in *; [eauto|].
  rewrite <- app_assoc. destruct q.
  - destruct piece as [|c [|? ?]]; simpl in Hq; try discriminate.
    simpl in *. rewrite andb_true_r in Hcls. rewrite Hcls.
    destruct IH as [[ps' r'] ->]. eauto.
  - destruct (greedy_complete cls (match_here p) piece _ Hcls IH) as [[m [ps' r']] ->].
    eauto.
  - destruct piece as [|c piece]; [congruence|]. simpl in *.
    apply andb_true_iff in Hcls as [Hc Hcls]. rewrite Hc.
    destruct (greedy_complete cls (match_here p) piece _ Hcls IH) as [[m [ps' r']] ->].
    eauto.
Qed.

Lemma re_search_sound p s pre ps r :
  re_search p s = Some (pre, ps, r) ->
  s = pre ++ concat ps ++ r /\ match_here p (concat ps ++ r) = Some (ps, r) /\
  forall pre1 pre2, pre = pre1 ++ pre2 -> pre2 <> [] ->
                    match_here p (pre2 ++ concat ps ++ r) = None.
Proof.
  revert pre. induction s as [|c s IH]; intros pre; simpl.
  - destruct (match_here p []) as [[ps' r']|] eqn:Hm; [|discriminate].
    intros [= <- <- <-]. destruct (match_here_sound _ _ _ _ Hm) as [He _].
    rewrite <- He. split; [reflexivity|]. split; [exact Hm|].
    intros [|] ? ? ?; simpl in *; congruence.
  - destruct (match_here p (c :: s)) as [[ps' r']|] eqn:Hm.
    + intros [= <- <- <-]. destruct (match_here_sound _ _ _ _ Hm) as [He _].
      rewrite <- He. split; [reflexivity|]. split; [exact Hm|].
      intros [|] ? ? ?; simpl in *; congruence.
    + destruct (re_search p s) as [[[pre' ps'] r']|] eqn:Hs; [|discriminate].
      intros [= <- <- <-]. destruct (IH _ eq_refl) as (-> & Hh & Hleft).
      split; [reflexivity|]. split; [exact Hh|].
      intros pre1 pre2 Hsplit Hne. destruct pre1 as [|c1 pre1]; simpl in Hsplit.
      * subst pre2. simpl. exact Hm.
      * injection Hsplit as <- Hsplit. eapply Hleft; eauto.
Qed.

Lemma re_search_none p s :
  re_search p s = None ->
  forall pre post, s = pre ++ post -> match_here p post = None.
Proof.
  induction s as [|c s IH]; simpl.
  - destruct (match_here p []) as [[? ?]|] eqn:Hm; [discriminate|].
    intros _ pre post H. symmetry in H. apply app_eq_nil in H as [_ ->]. exact Hm.
  - destruct (match_here p (c :: s)) as [[? ?]|] eqn:Hm; [discriminate|].
    destruct (re_search p s) as [[[? ?] ?]|] eqn:Hs; [discriminate|].
    intros _ pre post H. destruct pre as [|c' pre]; simpl in H.
    + subst post. exact Hm.
    + injection H as _ H. eapply IH; eauto.
Qed.

Lemma re_search_complete p s pre post :
  s = pre ++ post -> is_Some (match_here p post) -> is_Some (re_search p s).
Proof.
  intros Hs Hm. destruct (re_search p s) eqn:Hr; [eauto|].
  rewrite (re_search_none _ _ Hr _ _ Hs) in Hm. destruct Hm. discriminate.
Qed.

(** ** Character classes *)

Ltac by_cases_on c :=
  destruct c as [[] [] [] [] [] [] [] []]; vm_compute; intuition congruence.

Lemma is_char_eq a c : is_char a c = true <-> c = a.
Proof. unfold is_char. rewrite Ascii.eqb_eq. split; congruence. Qed.

Lemma param_not_inter c : char_range "0" "?" c = true -> char_range " " "/" c = false.
Proof. by_cases_on c. Qed.

Lemma param_not_final c : char_range "0" "?" c = true -> char_range "@" "~" c = false.
Proof. by_cases_on c. Qed.

Lemma inter_not_final c : char_range " " "/" c = true -> char_range "@" "~" c = false.
Proof. by_cases_on c. Qed.

Lemma digit_not_space c : is_digit c = true -> is_space c = false.
Proof. by_cases_on c. Qed.

Lemma digit_not_sign c :
  is_digit c = true -> is_char "-" c = false /\ is_char "+" c = false.
Proof. by_cases_on c. Qed.

Lemma space_is_sep c : is_space c = true -> is_sep c = true.
Proof. unfold is_sep. intros ->. apply orb_true_r. Qed.

(** A run of characters of a class, followed by a character outside it, is
    read in one way only. *)
Lemma run_unique (f : ascii -> bool) m m' r r' :
  forallb f m = true -> forallb f m' = true ->
  m ++ r = m' ++ r' ->
  match r with c :: _ => f c = false | [] => True end ->
  match r' with c :: _ => f c = false | [] => True end ->
  m = m' /\ r = r'.
Proof.
  revert m'. induction m as [|c m IH]; intros m' Hm Hm' He Hr Hr'.
  - destruct m' as [|c' m']; [auto|]. simpl in *. subst r.
    apply andb_true_iff in Hm' as [Hc _]. congruence.
  - destruct m' as [|c' m']; simpl in *.
    + subst r'. apply andb_true_iff in Hm as [Hc _]. congruence.
    + injection He as <- He.
      apply andb_true_iff in Hm as [_ Hm]. apply andb_true_iff in Hm' as [_ Hm'].
      destruct (IH m' Hm Hm' He Hr Hr') as [-> ->]. auto.
Qed.

(** ** The line sanitizer *)

Lemma csi_nonempty e : is_csi e -> e <> [].
Proof. intros (? & ? & ? & -> & _). discriminate. Qed.

Lemma csi_prefix_unique e e' r r' :
  is_csi e -> is_csi e' -> e ++ r = e' ++ r' -> e = e' /\ r = r'.
Proof.
  intros (pa & im & fi & -> & Hpa & Him & Hfi) (pa' & im' & fi' & -> & Hpa' & Him' & Hfi') He.
  simpl in He. injection He as He. rewrite <- !app_assoc in He.
  assert (Hhead : forall (i : text) (f : ascii) (t : text),
             forallb (char_range " " "/") i = true -> char_range "@" "~" f = true ->
             match i ++ [f] ++ t with
             | c :: _ => char_range "0" "?" c = false
             | [] => True
             end).
  { intros [|c i] f t Hi Hf; simpl in *.
    - destruct (char_range "0" "?" f) eqn:E; [|reflexivity].
      apply param_not_final in E. congruence.
    - apply andb_true_iff in Hi as [Hc _].
      destruct (char_range "0" "?" c) eqn:E; [|reflexivity].
      apply param_not_inter in E. congruence. }
  destruct (run_unique _ _ _ _ _ Hpa Hpa' He (Hhead im fi r Him Hfi) (Hhead im' fi' r' Him' Hfi'))
    as [-> He2].
  assert (Hfin : forall (f : ascii) (t : text), char_range "@" "~" f = true ->
             match [f] ++ t with
             | c :: _ => char_range " " "/" c = false
             | [] => True
             end).
  { intros f t Hf. simpl. destruct (char_range " " "/" f) eqn:E; [|reflexivity].
    apply inter_not_final in E. congruence. }
  destruct (run_unique _ _ _ _ _ Him Him' He2 (Hfin fi r Hfi) (Hfin fi' r' Hfi')) as [-> He3].
  injection He3 as -> ->. auto.
Qed.

Lemma match_ansi_sound s ps r :
  match_here ansi_escape s = Some (ps, r) -> is_csi (concat ps) /\ s = concat ps ++ r.
Proof.
  intros H. apply match_here_sound in H as [-> HF]. split; [|reflexivity].
  unfold ansi_escape in HF.
  repeat match goal with
         | H : Forall2 _ (_ :: _) _ |- _ => inversion H; clear H; subst
         | H : Forall2 _ [] _ |- _ => inversion H; clear H; subst
         end.
  repeat match goal with H : conforms _ _ |- _ => destruct H as [? ?] end.
  simpl in *.
  repeat match goal with
         | H : length ?y = 1 |- _ =>
             destruct y as [|? [|? ?]]; simpl in H; try discriminate; clear H
         end.
  simpl in *. rewrite !andb_true_r in *.
  repeat match goal with H : is_char _ _ = true |- _ => apply is_char_eq in H; subst end.
  do 3 eexists. split; [reflexivity|]. auto.
Qed.

Lemma match_ansi_complete e r : is_csi e -> is_Some (match_here ansi_escape (e ++ r)).
Proof.
  intros (pa & im & fi & -> & Hpa & Him & Hfi).
  replace ((ESC :: "["%char :: pa ++ im ++ [fi]) ++ r)
    with (concat [[ESC]; ["["%char]; pa; im; [fi]] ++ r) by reflexivity.
  apply match_here_complete.
  unfold ansi_escape, lit.
  repeat constructor; simpl; auto; rewrite ?andb_true_r; auto.
Qed.

Lemma match_ansi_none s : match_here ansi_escape s = None -> ~ starts_csi s.
Proof.
  intros H (e & r & He & ->). destruct (match_ansi_complete e r He) as [? Hs]. congruence.
Qed.

Lemma sub_empty_from_removed fuel s :
  length s <= fuel -> csi_removed s (sub_empty_from ansi_escape fuel s).
Proof.
  revert s. induction fuel as [|fuel IH]; intros s Hlen.
  - destruct s; simpl in *; [constructor | lia].
  - destruct s as [|c s]; [constructor|]. cbn [sub_empty_from].
    destruct (match_here ansi_escape (c :: s)) as [[ps r]|] eqn:Hm.
    + destruct (match_ansi_sound _ _ _ Hm) as [Hcsi He].
      destruct (concat ps) as [|c' e'] eqn:Hps; [destruct (csi_nonempty _ Hcsi eq_refl)|].
      rewrite He. apply removed_csi; [exact Hcsi|]. apply IH.
      apply (f_equal (@length ascii)) in He. rewrite length_app in He. simpl in *. lia.
    + apply removed_keep; [apply match_ansi_none, Hm|]. apply IH. simpl in Hlen. lia.
Qed.

Lemma csi_removed_fun s o1 :
  csi_removed s o1 -> forall o2, csi_removed s o2 -> o1 = o2.
Proof.
  induction 1 as [|e r o He Hr IH|c r o Hn Hr IH]; intros o2 H2.
  - inversion H2 as [|e' r' o' He' Hr' Heq|]; subst; [reflexivity|].
    apply csi_nonempty in He'. destruct e'; [congruence | discriminate].
  - remember (e ++ r) as s eqn:Hs.
    destruct H2 as [|e' r' o' He' Hr'|c r' o' Hn' Hr'].
    + symmetry in Hs. apply app_eq_nil in Hs as [-> _]. destruct (csi_nonempty _ He eq_refl).
    + destruct (csi_prefix_unique _ _ _ _ He' He Hs) as [-> ->]. apply IH, Hr'.
    + destruct Hn'. exists e, r. auto.
  - remember (c :: r) as s eqn:Hs.
    destruct H2 as [|e' r' o' He' Hr'|c' r' o' Hn' Hr'].
    + discriminate.
    + destruct Hn. exists e', r'. auto.
    + injection Hs as -> ->. f_equal. apply IH, Hr'.
Qed.

Lemma csi_removed_sublist s o : csi_removed s o -> sublist o s.
Proof.
  induction 1 as [|e r o He Hr IH|c r o Hn Hr IH].
  - constructor.
  - apply sublist_inserts_l, IH.
  - apply sublist_skip, IH.
Qed.

Lemma csi_removed_free s : csi_free s -> csi_removed s s.
Proof.
  induction s as [|c s IH]; intros Hf; [constructor|].
  apply removed_keep.
  - apply (Hf [] (c :: s) eq_refl).
  - apply IH. intros pre post -> . apply (Hf (c :: pre) post eq_refl).
Qed.

Lemma csi_free_no_esc s : ~ In ESC s -> csi_free s.
Proof.
  intros Hno pre post -> (e & r & (pa & im & fi & -> & _) & ->).
  apply Hno. rewrite in_app_iff. right. left. reflexivity.
Qed.

Lemma rstrip_nl_last line : last (rstrip_nl line) <> Some newline.
Proof.
  unfold rstrip_nl, rstrip_chars.
  pose proof (lstrip_chars_head (is_char newline) (rev line)) as H.
  destruct (lstrip_chars (is_char newline) (rev line)) as [|c t]; [discriminate|].
  simpl. rewrite last_snoc. intros [= ->]. vm_compute in H. discriminate.
Qed.

(** C9, as the code has it. The line sanitizer is a total function of the
    line alone. Its result is the line without its trailing newlines and
    with the control sequences of the pattern (ESC, bracket, parameters,
    intermediates, final character) deleted in one pass from the left; that
    result is unique and a subsequence of the line; text in which no such
    sequence starts, be it a lone ESC, a sequence cut short or an escape
    sequence of another kind, is returned as it is; trailing newlines change
    nothing, and the result of a line whose only newlines are trailing ones
    holds no newline. *)
Theorem clean_line_spec (line : text) :
  csi_removed (rstrip_nl line) (clean_line line) /\
  (forall o, csi_removed (rstrip_nl line) o -> o = clean_line line) /\
  sublist (clean_line line) (rstrip_nl line) /\
  (csi_free (rstrip_nl line) -> clean_line line = rstrip_nl line) /\
  (exists nls, line = rstrip_nl line ++ nls /\ forallb (is_char newline) nls = true) /\
  last (rstrip_nl line) <> Some newline /\
  (forall n, clean_line (line ++ repeat newline n) = clean_line line) /\
  (forall body n,
      line = body ++ repeat newline n -> ~ In newline body ->
      ~ In newline (clean_line line)).
Proof.
  assert (H : csi_removed (rstrip_nl line) (clean_line line))
    by (apply sub_empty_from_removed; reflexivity).
  split; [exact H|].
  split; [intros o Ho; apply (csi_removed_fun _ _ Ho _ H)|].
  split; [apply csi_removed_sublist, H|].
  split; [intros Hf; apply (csi_removed_fun _ _ H), csi_removed_free, Hf|].
  split; [apply rstrip_chars_split|].
  split; [apply rstrip_nl_last|].
  assert (Hdrop : forall (t : text) n, rstrip_nl (t ++ repeat newline n) = rstrip_nl t).
  { intros t n. unfold rstrip_nl. apply rstrip_chars_app_drop.
    induction n as [|n IH]; simpl; [reflexivity | exact IH]. }
  split; [intros n; unfold clean_line; rewrite Hdrop; reflexivity|].
  intros body n -> Hbody Hin.
  apply csi_removed_sublist in H. rewrite Hdrop in H.
  destruct (rstrip_chars_split (is_char newline) body) as (nls & Hb & _).
  apply Hbody. rewrite Hb. apply in_app_iff. left.
  apply list_elem_of_In. eapply elem_of_sublist; [|exact H]. apply list_elem_of_In, Hin.
Qed.

(** ** The progress extractor *)

Lemma match_here_plus cls p s :
  match_here (Item cls Plus :: p) s =
    match s with
    | c :: s' =>
        if cls c then
          match greedy cls (match_here p) s' with
          | Some (m, (ps, r)) => Some ((c :: m) :: ps, r)
          | None => None
          end
        else None
    | [] => None
    end.
Proof. reflexivity. Qed.

Lemma match_here_last_plus p cls s ps r :
  match_here (p ++ [Item cls Plus]) s = Some (ps, r) ->
  match r with c :: _ => cls c = false | [] => True end.
Proof.
  revert s ps r. induction p as [|[cls' q] p IH]; intros s ps r.
  - cbn [app]. rewrite match_here_plus.
    destruct s as [|c s]; [discriminate|]. destruct (cls c); [|discriminate].
    destruct (greedy_last cls s) as (m & r' & -> & _ & _ & Hr).
    intros [= <- <-]. exact Hr.
  - cbn [app match_here]. destruct q.
    + destruct s as [|c s]; [discriminate|]. destruct (cls' c); [|discriminate].
      destruct (match_here (p ++ [Item cls Plus]) s) as [[ps' r']|] eqn:Hm; [|discriminate].
      intros [= <- <-]. eapply IH, Hm.
    + destruct (greedy cls' (match_here (p ++ [Item cls Plus])) s)
        as [[m [ps' r']]|] eqn:Hg; [|discriminate].
      intros [= <- <-]. apply greedy_sound in Hg as (_ & s' & _ & Hk). eapply IH, Hk.
    + destruct s as [|c s]; [discriminate|]. destruct (cls' c); [|discriminate].
      destruct (greedy cls' (match_here (p ++ [Item cls Plus])) s)
        as [[m [ps' r']]|] eqn:Hg; [|discriminate].
      intros [= <- <-]. apply greedy_sound in Hg as (_ & s' & _ & Hk). eapply IH, Hk.
Qed.

Lemma match_deploying_sound s ps r :
  match_here deploying s = Some (ps, r) ->
  exists ws d1 d2,
    ps = deploying_pieces ws d1 d2 /\
    s = "Deploying" ++ ws ++ d1 ++ "/" ++ d2 ++ r /\
    spaces ws /\ digits d1 /\ digits d2 /\
    match r with c :: _ => is_digit c = false | [] => True end.
Proof.
  intros H.
  pose proof (match_here_last_plus
                (literal "Deploying" ++ [Item is_space Plus; Item is_digit Plus; lit "/"])
                is_digit s ps r) as Hlast.
  rewrite <- app_assoc in Hlast. specialize (Hlast H).
  apply match_here_sound in H as [-> HF].
  unfold deploying, literal in HF. cbn [list_ascii_of_string map app] in HF.
  repeat match goal with
         | H : Forall2 _ (_ :: _) _ |- _ => inversion H; clear H; subst
         | H : Forall2 _ [] _ |- _ => inversion H; clear H; subst
         end.
  repeat match goal with H : conforms _ _ |- _ => destruct H as [? ?] end.
  cbn [lit icls iquant] in *.
  repeat match goal with
         | H : length ?y = 1 |- _ =>
             destruct y as [|? [|? ?]]; simpl in H; try discriminate; clear H
         end.
  cbn [forallb] in *. rewrite !andb_true_r in *.
  repeat match goal with H : is_char _ _ = true |- _ => apply is_char_eq in H; subst end.
  do 3 eexists. split; [reflexivity|]. split; [cbn; rewrite app_nil_r, <- ?app_assoc; reflexivity|].
  unfold spaces, digits. auto 10.
Qed.

Lemma match_deploying_complete ws d1 d2 r :
  spaces ws -> digits d1 -> digits d2 ->
  is_Some (match_here deploying ("Deploying" ++ ws ++ d1 ++ "/" ++ d2 ++ r)).
Proof.
  intros [Hws1 Hws2] [Hd11 Hd12] [Hd21 Hd22].
  replace ("Deploying" ++ ws ++ d1 ++ "/" ++ d2 ++ r)
    with (concat (deploying_pieces ws d1 d2) ++ r)
    by (cbn; rewrite app_nil_r, <- ?app_assoc; reflexivity).
  apply match_here_complete.
  unfold deploying, literal, deploying_pieces. cbn [list_ascii_of_string map app].
  repeat (constructor; [split; cbn [lit icls iquant forallb length];
                        rewrite ?andb_true_r; auto|]).
  constructor.
Qed.

Lemma int_digits_run d acc n b :
  forallb is_digit d = true -> (b = true \/ d <> []) ->
  int_digits acc n b d =
    Some (fold_left (fun a c => 10 * a + digit_value c)%Z d acc, (n + length d)%nat).
Proof.
  revert acc n b. induction d as [|c d IH]; intros acc n b Hd Hb; simpl in *.
  - destruct Hb as [-> | []]; [|reflexivity]. f_equal. f_equal. lia.
  - apply andb_true_iff in Hd as [Hc Hd]. rewrite Hc.
    rewrite IH by auto. f_equal. f_equal. lia.
Qed.

Lemma digit_not_int_space c : is_digit c = true -> is_int_space c = false.
Proof. by_cases_on c. Qed.

Lemma int_strip_digits d :
  digits d -> rstrip_chars is_int_space (lstrip_chars is_int_space d) = d.
Proof.
  intros [Hne Hd].
  destruct d as [|c d]; [congruence|].
  pose proof Hd as Hd'. simpl in Hd'. apply andb_true_iff in Hd' as [Hc _].
  rewrite lstrip_chars_id by (apply digit_not_int_space, Hc).
  destruct (exists_last (l := c :: d)) as (d' & c' & He); [discriminate|].
  rewrite He in Hd |- *. rewrite forallb_app in Hd. apply andb_true_iff in Hd as [_ Hc'].
  simpl in Hc'. rewrite andb_true_r in Hc'.
  apply rstrip_chars_snoc_keep, digit_not_int_space, Hc'.
Qed.

Lemma py_int_digits d :
  digits d -> py_int d = if within_limit d then Some (decimal d) else None.
Proof.
  intros Hd. unfold py_int. rewrite (int_strip_digits d Hd).
  destruct Hd as [Hne Hd]. destruct d as [|c d]; [congruence|].
  pose proof Hd as Hd'. simpl in Hd'. apply andb_true_iff in Hd' as [Hc _].
  destruct (digit_not_sign c Hc) as [-> ->].
  rewrite int_digits_run by auto. unfold within_limit, decimal.
  cbn [Nat.add].
  destruct (Nat.ltb_spec 0 int_max_str_digits), (Nat.eqb_spec int_max_str_digits 0),
    (Nat.ltb_spec int_max_str_digits (length (c :: d))),
    (Nat.leb_spec (length (c :: d)) int_max_str_digits); simpl; try reflexivity; lia.
Qed.

Lemma deploying_at_match s pre ws d1 d2 post :
  deploying_at s pre ws d1 d2 post ->
  is_Some (match_here deploying ("Deploying" ++ ws ++ d1 ++ "/" ++ d2 ++ post)).
Proof. intros (_ & Hws & Hd1 & Hd2 & _). apply match_deploying_complete; auto. Qed.

Lemma re_search_deploying s pre ps post :
  re_search deploying s = Some (pre, ps, post) ->
  exists ws d1 d2,
    ps = deploying_pieces ws d1 d2 /\ first_deploying s pre ws d1 d2 post.
Proof.
  intros H. apply re_search_sound in H as (Hs & Hm & Hleft).
  destruct (match_deploying_sound _ _ _ Hm) as (ws & d1 & d2 & -> & He & Hws & Hd1 & Hd2 & Hp).
  exists ws, d1, d2. split; [reflexivity|]. split.
  - split; [|auto]. rewrite Hs, He. reflexivity.
  - intros pre' ws' d1' d2' post' Hocc.
    destruct (Nat.le_gt_cases (length pre) (length pre')) as [|Hlt]; [assumption|exfalso].
    pose proof (deploying_at_match _ _ _ _ _ _ Hocc) as Hsome.
    destruct Hocc as (Hs' & _). rewrite Hs in Hs'.
    apply app_eq_app in Hs' as [l [[-> Hl] | [-> Hl]]].
    + destruct l as [|c l]; [rewrite app_nil_r in Hlt; lia|].
      rewrite Hl, (Hleft pre' (c :: l) eq_refl) in Hsome by discriminate.
      destruct Hsome; discriminate.
    + rewrite length_app in Hlt. lia.
Qed.

Lemma has_deploying_search s :
  has_deploying s -> is_Some (re_search deploying s).
Proof.
  intros (pre & ws & d1 & d2 & post & Hocc).
  eapply re_search_complete; [apply Hocc | eapply deploying_at_match, Hocc].
Qed.

Lemma first_deploying_unique s pre ws d1 d2 post pre' ws' d1' d2' post' :
  first_deploying s pre ws d1 d2 post ->
  first_deploying s pre' ws' d1' d2' post' ->
  pre = pre' /\ ws = ws' /\ d1 = d1' /\ d2 = d2' /\ post = post'.
Proof.
  intros [Hocc Hmin] [Hocc' Hmin'].
  pose proof (Hmin _ _ _ _ _ Hocc') as Hle. pose proof (Hmin' _ _ _ _ _ Hocc) as Hle'.
  destruct Hocc as (Hs & [Hws0 Hws] & [Hd10 Hd1] & [Hd20 Hd2] & Hp).
  destruct Hocc' as (Hs' & [Hws0' Hws'] & [Hd10' Hd1'] & [Hd20' Hd2'] & Hp').
  rewrite Hs in Hs'.
  apply app_inj_1 in Hs' as [-> Hs']; [|lia].
  apply app_inv_head in Hs'.
  assert (Hafter_ws : forall (d t : text), d <> [] -> forallb is_digit d = true ->
            match d ++ t with c :: _ => is_space c = false | [] => True end).
  { intros [|c d] t Hne Hd; [congruence|]. simpl in *.
    apply andb_true_iff in Hd as [Hc _]. apply digit_not_space, Hc. }
  destruct (run_unique _ _ _ _ _ Hws Hws' Hs'
              (Hafter_ws d1 ("/" ++ d2 ++ post) Hd10 Hd1)
              (Hafter_ws d1' ("/" ++ d2' ++ post') Hd10' Hd1'))
    as [-> Hs2].
  assert (Hslash : forall t : text,
            match "/" ++ t with c :: _ => is_digit c = false | [] => True end)
    by (intros t; reflexivity).
  destruct (run_unique _ _ _ _ _ Hd1 Hd1' Hs2 (Hslash (d2 ++ post)) (Hslash (d2' ++ post')))
    as [-> Hs3].
  injection Hs3 as Hs3.
  destruct (run_unique _ _ _ _ _ Hd2 Hd2' Hs3 Hp Hp') as [-> ->].
  auto.
Qed.

Lemma parse_progress_first clean pre ws d1 d2 post :
  first_deploying clean pre ws d1 d2 post ->
  parse_progress clean =
    if within_limit d1 && within_limit d2 then Some (decimal d1, decimal d2) else None.
Proof.
  intros Hfirst.
  destruct (has_deploying_search clean) as [[[pre' ps] post'] Hs].
  { destruct Hfirst as [Hocc _]. do 5 eexists. exact Hocc. }
  unfold parse_progress. rewrite Hs.
  apply re_search_deploying in Hs as (ws' & d1' & d2' & -> & Hfirst').
  destruct (first_deploying_unique _ _ _ _ _ _ _ _ _ _ _ Hfirst Hfirst')
    as (<- & <- & <- & <- & <-).
  change (group1 (deploying_pieces ws d1 d2)) with d1.
  change (group2 (deploying_pieces ws d1 d2)) with d2.
  destruct Hfirst as [(_ & _ & Hd1 & Hd2 & _) _].
  rewrite (py_int_digits d1 Hd1), (py_int_digits d2 Hd2).
  destruct (within_limit d1), (within_limit d2); reflexivity.
Qed.

Lemma parse_progress_absent clean :
  ~ has_deploying clean -> parse_progress clean = None.
Proof.
  intros Hno. unfold parse_progress.
  destruct (re_search deploying clean) as [[[pre ps] post]|] eqn:Hs; [|reflexivity].
  apply re_search_deploying in Hs as (ws & d1 & d2 & _ & [Hocc _]).
  destruct Hno. do 5 eexists. exact Hocc.
Qed.

Lemma has_deploying_first clean :
  has_deploying clean ->
  exists pre ws d1 d2 post, first_deploying clean pre ws d1 d2 post.
Proof.
  intros H. destruct (has_deploying_search clean H) as [[[pre ps] post] Hs].
  apply re_search_deploying in Hs as (ws & d1 & d2 & _ & Hfirst).
  do 5 eexists. exact Hfirst.
Qed.

(** C2. On every line the primary pump puts the sanitized line on the queue
    and keeps reading, whatever the line holds. When the sanitized line
    contains ["Deploying"], whitespace, digits, a slash and digits, the pair
    stored is the one of the leftmost occurrence, provided [int] converts
    both runs of digits; when a conversion raises, or when the line holds no
    such pattern, the pair is left as it was. *)
Theorem progress_extraction (m : meta) (line : text) :
  let clean := clean_line line in
  let m' := enqueue_output_line m line in
  queue m' = queue m ++ [clean] /\ done m' = done m /\ proc m' = proc m /\
  (forall pre ws d1 d2 post,
      first_deploying clean pre ws d1 d2 post ->
      (progress m', total m') =
        if within_limit d1 && within_limit d2 then (decimal d1, decimal d2)
        else (progress m, total m)) /\
  (has_deploying clean ->
   exists pre ws d1 d2 post, first_deploying clean pre ws d1 d2 post) /\
  (~ has_deploying clean -> (progress m', total m') = (progress m, total m)) /\
  (forall w ref s,
      sessions w !! ref = Some s -> s_meta s = m -> s_out s = OutReading ->
      nonempty line = true ->
      out_read w ref line =
        Some (with_session w ref (Session m' OutReading (s_err s)), [Put ref clean])).
Proof.
  intros clean m'. subst m'. unfold enqueue_output_line. fold clean.
  split; [destruct (parse_progress clean) as [[? ?]|]; reflexivity|].
  split; [destruct (parse_progress clean) as [[? ?]|]; reflexivity|].
  split; [destruct (parse_progress clean) as [[? ?]|]; reflexivity|].
  split.
  { intros pre ws d1 d2 post Hfirst. rewrite (parse_progress_first _ _ _ _ _ _ Hfirst).
    destruct (within_limit d1 && within_limit d2); reflexivity. }
  split; [apply has_deploying_first|].
  split.
  { intros Hno. rewrite (parse_progress_absent _ Hno). reflexivity. }
  intros w ref s Hs Hm Hout Hline. unfold out_read. rewrite Hs. simpl.
  rewrite Hout, Hline, Hm. unfold enqueue_output_line. reflexivity.
Qed.

(** C10, as the code has it. When the pattern matches and each of the two
    groups is within the interpreter's bound on the digits [int] converts
    (any run when there is no bound), no conversion raises and the pair of
    the two numbers is stored. *)
Theorem match_within_limit_updates (clean pre : text) (ps : list text) (post : text) :
  re_search deploying clean = Some (pre, ps, post) ->
  within_limit (group1 ps) = true ->
  within_limit (group2 ps) = true ->
  digits (group1 ps) /\ digits (group2 ps) /\
  py_int (group1 ps) = Some (decimal (group1 ps)) /\
  py_int (group2 ps) = Some (decimal (group2 ps)) /\
  parse_progress clean = Some (decimal (group1 ps), decimal (group2 ps)).
Proof.
  intros Hs H1 H2. unfold parse_progress. rewrite Hs.
  apply re_search_deploying in Hs as (ws & d1 & d2 & -> & [(_ & _ & Hd1 & Hd2 & _) _]).
  change (group1 (deploying_pieces ws d1 d2)) with d1 in *.
  change (group2 (deploying_pieces ws d1 d2)) with d2 in *.
  rewrite (py_int_digits d1 Hd1), (py_int_digits d2 Hd2), H1, H2. auto.
Qed.

(** ** The command line *)

Lemma strip_id s : forallb (fun c => negb (is_space c)) s = true -> strip s = s.
Proof.
  intros Hs. unfold strip. destruct s as [|c s]; [reflexivity|].
  pose proof Hs as Hs'. simpl in Hs'. apply andb_true_iff in Hs' as [Hc _].
  rewrite lstrip_chars_id by (apply negb_true_iff, Hc).
  destruct (exists_last (l := c :: s)) as (s' & c' & He); [discriminate|].
  rewrite He in Hs |- *. rewrite forallb_app in Hs. apply andb_true_iff in Hs as [_ Hc'].
  simpl in Hc'. rewrite andb_true_r in Hc'.
  apply rstrip_chars_snoc_keep, negb_true_iff, Hc'.
Qed.

Lemma no_sep_strip t : no_sep t = true -> strip t = t.
Proof.
  intros H. apply strip_id. unfold no_sep in H.
  rewrite forallb_forall in *. intros c Hc. specialize (H c Hc).
  apply negb_true_iff. apply negb_true_iff in H.
  destruct (is_space c) eqn:E; [|reflexivity]. apply space_is_sep in E. congruence.
Qed.

Lemma tokens_all_seps ws cur :
  forallb is_sep ws = true ->
  tokens_from cur ws = if nonempty cur then [cur] else [].
Proof.
  revert cur. induction ws as [|c ws IH]; intros cur H; simpl in *; [reflexivity|].
  apply andb_true_iff in H as [Hc H]. rewrite Hc, (IH [] H). simpl. apply app_nil_r.
Qed.

Lemma tokens_leading_seps ws s :
  forallb is_sep ws = true -> tokens_from [] (ws ++ s) = tokens_from [] s.
Proof.
  induction ws as [|c ws IH]; intros H; simpl in *; [reflexivity|].
  apply andb_true_iff in H as [Hc H]. rewrite Hc. simpl. apply IH, H.
Qed.

Lemma tokens_trailing_seps s ws cur :
  forallb is_sep ws = true -> tokens_from cur (s ++ ws) = tokens_from cur s.
Proof.
  intros H. revert cur. induction s as [|c s IH]; intros cur; simpl.
  - apply tokens_all_seps, H.
  - destruct (is_sep c); [rewrite IH; reflexivity | apply IH].
Qed.

Lemma forallb_space_sep ws : forallb is_space ws = true -> forallb is_sep ws = true.
Proof.
  rewrite !forallb_forall. intros H c Hc. apply space_is_sep, H, Hc.
Qed.

Lemma skip_tokens_strip skip : skip_tokens (strip skip) = skip_tokens skip.
Proof.
  unfold skip_tokens, strip.
  destruct (lstrip_chars_split is_space skip) as (ws & Hl & Hws).
  destruct (rstrip_chars_split is_space (lstrip_chars is_space skip)) as (ws' & Hr & Hws').
  rewrite Hl at 2. rewrite tokens_leading_seps by (apply forallb_space_sep, Hws).
  rewrite Hr at 2. rewrite tokens_trailing_seps by (apply forallb_space_sep, Hws').
  reflexivity.
Qed.

Lemma tokens_from_ok cur s :
  no_sep cur = true ->
  Forall (fun tok => tok <> [] /\ no_sep tok = true) (tokens_from cur s).
Proof.
  revert cur. induction s as [|c s IH]; intros cur Hcur; simpl.
  - destruct cur; simpl; constructor; [split; [discriminate | exact Hcur] | constructor].
  - destruct (is_sep c) eqn:Hc.
    + apply Forall_app. split; [|apply IH; reflexivity].
      destruct cur; simpl; constructor; [split; [discriminate | exact Hcur] | constructor].
    + apply IH. unfold no_sep in *. rewrite forallb_app, Hcur. simpl. rewrite Hc. reflexivity.
Qed.

Lemma tokens_from_concat cur s :
  concat (tokens_from cur s) = cur ++ List.filter (fun c => negb (is_sep c)) s.
Proof.
  revert cur. induction s as [|c s IH]; intros cur; cbn [tokens_from List.filter].
  - destruct cur; simpl; rewrite ?app_nil_r; reflexivity.
  - destruct (is_sep c) eqn:Hc; cbn [negb].
    + rewrite concat_app, IH. destruct cur; simpl; rewrite ?app_nil_r; reflexivity.
    + rewrite IH, <- app_assoc. reflexivity.
Qed.

Lemma match_skip_sep c s :
  match_here skip_sep (c :: s) =
    if is_sep c then
      match greedy is_sep (match_here []) s with
      | Some (m, (ps, r)) => Some ((c :: m) :: ps, r)
      | None => None
      end
    else None.
Proof. reflexivity. Qed.

Lemma split_from_tokens fuel s cur :
  length s <= fuel -> no_sep cur = true ->
  flat_map (fun tok => if nonempty (strip tok) then ["--skip" : text; strip tok] else [])
           (split_from skip_sep fuel cur s) =
  flat_map (fun tok => ["--skip" : text; tok]) (tokens_from cur s).
Proof.
  assert (Hone : forall cur, no_sep cur = true ->
            (if nonempty (strip cur) then ["--skip" : text; strip cur] else []) =
            flat_map (fun tok => ["--skip" : text; tok]) (if nonempty cur then [cur] else [])).
  { intros t Ht. rewrite (no_sep_strip t Ht). destruct t; reflexivity. }
  revert s cur. induction fuel as [|fuel IH]; intros s cur Hlen Hcur.
  - destruct s; simpl in Hlen; [|lia]. cbn [split_from tokens_from flat_map].
    rewrite !app_nil_r. apply Hone, Hcur.
  - destruct s as [|c s]; cbn [split_from tokens_from].
    + cbn [flat_map]. rewrite app_nil_r. apply Hone, Hcur.
    + rewrite match_skip_sep. destruct (is_sep c) eqn:Hc.
      * destruct (greedy_last is_sep s) as (m & r & -> & Hs & Hm & _).
        cbn [concat app]. cbn [flat_map].
        rewrite (Hone cur Hcur), flat_map_app. f_equal.
        rewrite IH; [|subst s; simpl in Hlen; rewrite length_app in Hlen; lia | reflexivity].
        rewrite Hs, tokens_leading_seps by exact Hm. reflexivity.
      * apply IH; [simpl in Hlen; lia|].
        unfold no_sep in *. rewrite forallb_app, Hcur. simpl. rewrite Hc. reflexivity.
Qed.

Lemma skip_args_tokens raw :
  skip_args raw = flat_map (fun tok => ["--skip" : text; tok]) (skip_tokens raw).
Proof.
  unfold skip_args, re_split, skip_tokens. destruct raw as [|c raw]; [reflexivity|].
  cbn [nonempty]. apply (split_from_tokens (length (c :: raw)) (c :: raw) []); reflexivity.
Qed.

Lemma tokenized_sep c s ts : is_sep c = true -> tokenized s ts -> tokenized (c :: s) ts.
Proof.
  intros Hc [seps Hs | seps tok rest ts' Hs Hne Hns Hr Ht].
  - apply tokenized_end. simpl. rewrite Hc. exact Hs.
  - apply (tokenized_token (c :: seps)); auto. simpl. rewrite Hc. exact Hs.
Qed.

Lemma tokenized_one tok rest ts :
  tok <> [] -> no_sep tok = true ->
  match rest with c :: _ => is_sep c = true | [] => True end ->
  tokenized rest ts -> tokenized (tok ++ rest) (tok :: ts).
Proof. intros. apply (tokenized_token [] tok rest ts); auto. Qed.

Lemma tokens_from_tokenized s cur :
  no_sep cur = true ->
  tokenized (cur ++ s) (tokens_from cur s).
Proof.
  revert cur. induction s as [|c s IH]; intros cur Hcur; cbn [tokens_from].
  - destruct cur as [|c cur]; [apply tokenized_end; reflexivity|].
    cbn [nonempty]. apply tokenized_one;
      [discriminate | exact Hcur | exact I | apply tokenized_end; reflexivity].
  - destruct (is_sep c) eqn:Hc.
    + pose proof (tokenized_sep c s _ Hc (IH [] eq_refl)) as Ht.
      destruct cur as [|c' cur]; [exact Ht|].
      cbn [nonempty]. apply (tokenized_one (c' :: cur) (c :: s));
        [discriminate | exact Hcur | exact Hc | exact Ht].
    + replace (cur ++ c :: s) with ((cur ++ [c]) ++ s) by (rewrite <- app_assoc; reflexivity).
      apply IH. unfold no_sep in *. rewrite forallb_app, Hcur. simpl. rewrite Hc. reflexivity.
Qed.

Lemma tokens_from_token tok cur rest :
  no_sep tok = true -> tokens_from cur (tok ++ rest) = tokens_from (cur ++ tok) rest.
Proof.
  revert cur. induction tok as [|c tok IH]; intros cur H; simpl in *.
  - rewrite app_nil_r. reflexivity.
  - apply andb_true_iff in H as [Hc H]. apply negb_true_iff in Hc. rewrite Hc.
    rewrite IH by exact H. rewrite <- app_assoc. reflexivity.
Qed.

Lemma tokenized_unique s ts : tokenized s ts -> ts = skip_tokens s.
Proof.
  unfold skip_tokens. induction 1 as [seps Hs | seps tok rest ts Hs Hne Hns Hr Ht IH].
  - rewrite (tokens_all_seps seps [] Hs). reflexivity.
  - rewrite tokens_leading_seps by exact Hs. rewrite tokens_from_token by exact Hns.
    cbn [app]. rewrite IH. destruct rest as [|c rest]; cbn [tokens_from].
    + destruct tok; [congruence | reflexivity].
    + rewrite Hr. destruct tok; [congruence | reflexivity].
Qed.

Lemma skip_tokens_example :
  skip_tokens "a, b  c" = ["a" : text; "b" : text; "c" : text].
Proof. reflexivity. Qed.

(** C3. The argument list of the child is the interpreter and the scanner's
    path, the flag [-n], a pair [--skip <token>] for each token of the skip
    list in the order of the list, and the stripped target last. The tokens
    are the non-empty runs of characters between runs of commas and
    whitespace, and the only way to read the list so; a skip list of
    whitespace alone gives none; ["a, b  c"] gives [a], [b] and [c]. This
    is the list [start_scan] hands to [Popen]. *)
Theorem command_line (data : request) :
  let target := strip (default [] (req_target data)) in
  let skip := default [] (req_skip data) in
  let cmd := build_cmd target (strip skip) in
  cmd = ["python3" : text; "-u" : text; RAPIDSCAN_PATH; "-n" : text]
          ++ flat_map (fun tok => ["--skip" : text; tok]) (skip_tokens skip)
          ++ [target] /\
  tokenized skip (skip_tokens skip) /\
  (forall ts, tokenized skip ts -> ts = skip_tokens skip) /\
  Forall (fun tok => tok <> [] /\ no_sep tok = true) (skip_tokens skip) /\
  concat (skip_tokens skip) = List.filter (fun c => negb (is_sep c)) skip /\
  (forallb is_space skip = true -> skip_tokens skip = []) /\
  skip_tokens "a, b  c" = ["a" : text; "b" : text; "c" : text] /\
  (forall w scan_id os_ok p,
      nonempty target = true -> Popen os_ok cmd = Some p ->
      snd (start_scan w data scan_id os_ok) =
        [Spawned (length (sessions w)) cmd; Responded (ScanId scan_id)]).
Proof.
  intros target skip cmd.
  split.
  { subst cmd. unfold build_cmd.
    rewrite skip_args_tokens, skip_tokens_strip, <- app_assoc. reflexivity. }
  split; [apply (tokens_from_tokenized skip []); reflexivity|].
  split; [apply tokenized_unique|].
  split; [apply tokens_from_ok; reflexivity|].
  split; [apply tokens_from_concat|].
  split.
  { intros H. unfold skip_tokens. apply (tokens_all_seps skip []), forallb_space_sep, H. }
  split; [exact skip_tokens_example|].
  intros w scan_id os_ok p Ht Hp. unfold start_scan.
  fold target. fold skip. fold cmd. rewrite Ht, Hp. reflexivity.
Qed.

(** ** Session creation *)




(** ** Steps *)

Ltac step_inv H :=
  repeat match type of H with
         | (?x ≫= _) = Some _ => destruct x eqn:?; simpl in H; [|discriminate H]
         | match ?x with _ => _ end = Some _ => destruct x eqn:?; try discriminate H
         | Some _ = Some _ => injection H as <- <-
         end.

Lemma stream_get_inv w k w' o :
  stream_get w k = Some (w', o) ->
  exists g s,
    streams w !! k = Some g /\ g_pc g = AtGet /\ sessions w !! g_meta g = Some s /\
    streams w' = <[k := Generator (g_meta g) AtSnapshot]> (streams w) /\
    scans w' = scans w /\
    ((queue (s_meta s) = [] /\ sessions w' = sessions w /\ o = []) \/
     (exists line rest,
         queue (s_meta s) = line :: rest /\
         sessions w' = <[g_meta g := Session (set_queue (s_meta s) rest) (s_out s) (s_err s)]>
                         (sessions w) /\
         o = [Yielded k (Data line)])).
Proof.
  unfold stream_get. intros H. step_inv H; do 2 eexists; simpl; eauto 12.
Qed.

Lemma stream_snapshot_inv w k w' o :
  stream_snapshot w k = Some (w', o) ->
  exists g s,
    streams w !! k = Some g /\ g_pc g = AtSnapshot /\ sessions w !! g_meta g = Some s /\
    streams w' =
      <[k := Generator (g_meta g)
               (AtProgress (done (s_meta s)) (progress (s_meta s)) (total (s_meta s)))]>
        (streams w) /\
    scans w' = scans w /\ sessions w' = sessions w /\ o = [].
Proof.
  unfold stream_snapshot. intros H. step_inv H; do 2 eexists; simpl; eauto 12.
Qed.

Lemma stream_yield_inv w k w' o :
  stream_yield w k = Some (w', o) ->
  exists g d p t,
    streams w !! k = Some g /\ g_pc g = AtProgress d p t /\
    streams w' = <[k := Generator (g_meta g) (AtCheck d)]> (streams w) /\
    scans w' = scans w /\ sessions w' = sessions w /\
    o = [Yielded k (Progress p t)].
Proof.
  unfold stream_yield. intros H. step_inv H; do 4 eexists; simpl; eauto 12.
Qed.

Lemma status_read_inv w h w' o :
  status_read w h = Some (w', o) ->
  exists p s pc',
    polls w !! h = Some p /\ sessions w !! h_meta p = Some s /\
    w' = with_polls w (<[h := Poll (h_meta p) pc']> (polls w)) /\
    ((h_pc p = ReadProgress /\ pc' = ReadTotal (progress (s_meta s)) /\ o = []) \/
     (exists prog,
         h_pc p = ReadTotal prog /\ pc' = ReadDone prog (total (s_meta s)) /\ o = []) \/
     (exists prog tot,
         h_pc p = ReadDone prog tot /\ pc' = Answered /\
         o = [Responded (StatusOf prog tot (done (s_meta s)))])).
Proof.
  unfold status_read. intros H. step_inv H; do 3 eexists; simpl; eauto 12.
Qed.

Lemma stream_check_inv w k w' o :
  stream_check w k = Some (w', o) ->
  exists g s d,
    streams w !! k = Some g /\ g_pc g = AtCheck d /\ sessions w !! g_meta g = Some s /\
    scans w' = scans w /\ sessions w' = sessions w /\
    ((d = true /\ queue (s_meta s) = [] /\
      streams w' = <[k := Generator (g_meta g) Closed]> (streams w) /\
      o = [Yielded k Complete]) \/
     ((d = false \/ queue (s_meta s) <> []) /\
      streams w' = <[k := Generator (g_meta g) AtGet]> (streams w) /\
      o = [])).
Proof.
  unfold stream_check, q_empty. intros H. step_inv H; do 3 eexists; simpl.
  - do 5 (split; [eauto|]). left.
    match goal with E : _ && _ = true |- _ => apply andb_true_iff in E as [-> E] end.
    destruct (queue (s_meta _)); [auto | discriminate].
  - do 5 (split; [eauto|]). right.
    match goal with E : _ && _ = false |- _ => apply andb_false_iff in E as [-> | E] end;
      [auto|]. destruct (queue (s_meta _)); [discriminate | split; [right|]; auto; discriminate].
Qed.

Lemma thread_step_inv w a w' o :
  step w a = Some (w', o) ->
  match a with
  | OutRead ref line | ErrRead ref line =>
      exists s s',
        sessions w !! ref = Some s /\ session_trans a ref s s' /\
        w' = with_session w ref s' /\
        o = if nonempty line then [Put ref (clean_line line)] else []
  | OutWait ref | ChildExit ref =>
      exists s s',
        sessions w !! ref = Some s /\ session_trans a ref s s' /\
        w' = with_session w ref s' /\ o = []
  | _ => True
  end.
Proof.
  intros H. destruct a; try exact I; cbn [step] in H.
  - unfold out_read in H. step_inv H; do 2 eexists; (split; [eauto|]);
      (split; [|auto]); constructor; auto.
  - unfold out_wait in H. step_inv H; do 2 eexists; (split; [eauto|]);
      (split; [|auto]); constructor; auto.
  - unfold err_read in H. step_inv H; do 2 eexists; (split; [eauto|]);
      (split; [|auto]); constructor; auto.
  - unfold child_exit in H. step_inv H; do 2 eexists; (split; [eauto|]);
      (split; [|auto]); constructor; auto.
Qed.

Lemma request_step_inv w a w' o :
  step w a = Some (w', o) ->
  match a with
  | DoStart data scan_id os_ok =>
      (w' = w /\ (o = [Responded TargetRequired] \/ o = [Responded SpawnError])) \/
      (exists p cmd,
          Popen os_ok cmd = Some p /\
          w' = World (<[scan_id := length (sessions w)]> (scans w))
                     (sessions w ++ [Session (Meta p [] 0 0 false) OutReading ErrReading])
                     (streams w) (polls w) /\
          o = [Spawned (length (sessions w)) cmd; Responded (ScanId scan_id)])
  | DoStream scan_id =>
      (w' = w /\ o = [Responded InvalidScanId]) \/
      (exists ref,
          scans w !! scan_id = Some ref /\
          w' = with_streams w (streams w ++ [Generator ref AtGet]) /\
          o = [Responded (EventStream (length (streams w)))])
  | DoStop scan_id sigint_ok terminate_ok =>
      w' = w /\
      (o = [Responded InvalidScanId] \/
       exists ref, o = [SendSigint ref true; Responded Stopping] \/
                   o = [SendSigint ref false; Terminate ref terminate_ok; Responded Stopping])
  | DoStatus scan_id =>
      (w' = w /\ o = [Responded InvalidScanId]) \/
      (exists ref,
          scans w !! scan_id = Some ref /\
          w' = with_polls w (polls w ++ [Poll ref ReadProgress]) /\ o = [])
  | StatusRead h =>
      exists hs, w' = with_polls w hs /\ (o = [] \/ exists r, o = [Responded r])
  | _ => True
  end.
Proof.
  intros H. destruct a; try exact I; cbn [step] in H;
    [injection H as H | injection H as H | injection H as H | injection H as H |].
  - unfold start_scan in H. repeat case_match; simplify_eq; eauto 10.
  - unfold stream in H. repeat case_match; simplify_eq; eauto 10.
  - unfold stop in H. repeat case_match; simplify_eq; eauto 10.
  - unfold status in H. repeat case_match; simplify_eq; eauto 10.
  - apply status_read_inv in H
      as (p & s & pc' & _ & _ & -> & [(_ & _ & ->) | [(? & _ & _ & ->) | (? & ? & _ & _ & ->)]]);
      eauto 10.
Qed.

Lemma Popen_new os_ok cmd p :
  Popen os_ok cmd = Some p -> p = Process cmd false false false.
Proof. unfold Popen. case_match; congruence. Qed.

Lemma step_sessions w a w' o :
  step w a = Some (w', o) ->
  sessions w' = sessions w \/
  (exists cmd,
      sessions w' =
        sessions w ++
        [Session (Meta (Process cmd false false false) [] 0 0 false) OutReading ErrReading]) \/
  (exists ref s s',
      sessions w !! ref = Some s /\ sessions w' = <[ref := s']> (sessions w) /\
      session_trans a ref s s').
Proof.
  intros H. pose proof (request_step_inv _ _ _ _ H) as Hr.
  pose proof (thread_step_inv _ _ _ _ H) as Ht. destruct a; cbn [step] in H.
  - destruct Hr as [[-> _] | (p & cmd & Hp & -> & _)]; [auto|].
    apply Popen_new in Hp as ->. right. left. eauto.
  - destruct Hr as [[-> _] | (ref & _ & -> & _)]; auto.
  - destruct Hr as [-> _]; auto.
  - destruct Hr as [[-> _] | (ref & _ & -> & _)]; auto.
  - destruct Hr as (hs & -> & _); auto.
  - apply stream_get_inv in H as (g & s & Hg & Hpc & Hs & _ & _ & [(_ & -> & _) | (l & r & Hq & -> & _)]);
      [auto|]. right. right. do 3 eexists. split; [exact Hs|]. split; [reflexivity|].
    eapply trans_take, Hq.
  - apply stream_snapshot_inv in H as (g & s & _ & _ & _ & _ & _ & -> & _). auto.
  - apply stream_yield_inv in H as (g & d & p & t & _ & _ & _ & _ & -> & _). auto.
  - apply stream_check_inv in H as (g & s & d & _ & _ & _ & _ & -> & _). auto.
  - destruct Ht as (s & s' & Hs & Htr & -> & _). right. right. eauto 10.
  - destruct Ht as (s & s' & Hs & Htr & -> & _). right. right. eauto 10.
  - destruct Ht as (s & s' & Hs & Htr & -> & _). right. right. eauto 10.
  - destruct Ht as (s & s' & Hs & Htr & -> & _). right. right. eauto 10.
Qed.

Lemma step_session_at w a w' o ref s' :
  step w a = Some (w', o) -> sessions w' !! ref = Some s' ->
  match sessions w !! ref with
  | Some s => s' = s \/ session_trans a ref s s'
  | None =>
      exists cmd,
        s' = Session (Meta (Process cmd false false false) [] 0 0 false) OutReading ErrReading
  end.
Proof.
  intros H Hs'. destruct (step_sessions _ _ _ _ H) as [He | [(cmd & He) | (r & s & t & Hs & He & Ht)]];
    rewrite He in Hs'.
  - rewrite Hs'. auto.
  - destruct (sessions w !! ref) as [s|] eqn:Hs.
    + rewrite (lookup_app_l_Some _ _ _ _ Hs) in Hs'. left. congruence.
    + apply lookup_ge_None in Hs. rewrite lookup_app_r in Hs' by exact Hs.
      apply list_lookup_singleton_Some in Hs' as [_ <-]. eauto.
  - destruct (decide (r = ref)) as [->|Hne].
    + rewrite Hs. rewrite list_lookup_insert_eq in Hs' by (eapply lookup_lt_Some, Hs).
      injection Hs' as <-. right. exact Ht.
    + rewrite list_lookup_insert_ne in Hs' by exact Hne. rewrite Hs'. auto.
Qed.

Lemma run_cons_inv w a acts w' tr :
  run w (a :: acts) = Some (w', tr) ->
  exists w1 o1 o2,
    step w a = Some (w1, o1) /\ run w1 acts = Some (w', o2) /\ tr = o1 ++ o2.
Proof.
  simpl. destruct (step w a) as [[w1 o1]|]; simpl; [|discriminate].
  destruct (run w1 acts) as [[w2 o2]|] eqn:Hr; simpl; [|discriminate].
  intros [= <- <-]. eauto 10.
Qed.

(** An invariant of the sessions that every step keeps holds after a run. *)
Lemma run_invariant (P : world -> Prop) :
  (forall w a w' o, P w -> step w a = Some (w', o) -> P w') ->
  forall acts w w' tr, P w -> run w acts = Some (w', tr) -> P w'.
Proof.
  intros Hstep. induction acts as [|a acts IH]; intros w w' tr HP Hrun.
  - injection Hrun as <- _. exact HP.
  - apply run_cons_inv in Hrun as (w1 & o1 & o2 & Hs & Hr & _).
    eapply IH; [|exact Hr]. eapply Hstep; eauto.
Qed.

(** ** The done flag *)

Ltac fields :=
  cbn [s_meta s_out s_err done proc queue progress total
       set_queue set_done set_proc set_progress q_put enqueue_err_line
       close_stdout close_stderr exit_process
       p_exited p_stdout_closed p_stderr_closed p_cmd] in *.

Lemma enqueue_output_line_fields m line :
  done (enqueue_output_line m line) = done m /\
  proc (enqueue_output_line m line) = proc m /\
  queue (enqueue_output_line m line) = queue m ++ [clean_line line].
Proof.
  unfold enqueue_output_line. destruct (parse_progress (clean_line line)) as [[? ?]|]; auto.
Qed.

Lemma session_trans_ok a ref s s' :
  session_trans a ref s s' -> session_ok s -> session_ok s'.
Proof.
  unfold session_ok.
  destruct 1 as [k ref s line rest Hq | ref line s Ho Hl | ref line s Ho Hl | ref s Ho He
                | ref line s He Hl | ref line s He Hl | ref s He]; fields.
  - auto.
  - rewrite Ho. destruct (enqueue_output_line_fields (s_meta s) line) as (-> & -> & _). auto.
  - rewrite Ho. intros [? ?]. auto.
  - rewrite Ho. intros [? ?]. auto.
  - auto.
  - auto.
  - destruct (s_out s); intuition.
Qed.

Lemma session_trans_done a ref s s' :
  session_trans a ref s s' ->
  (done (s_meta s) = true -> done (s_meta s') = true) /\
  (done (s_meta s) = false -> done (s_meta s') = true ->
   a = OutWait ref /\ s_out s = OutWaiting /\ p_exited (proc (s_meta s)) = true).
Proof.
  destruct 1 as [k ref s line rest Hq | ref line s Ho Hl | ref line s Ho Hl | ref s Ho He
                | ref line s He Hl | ref line s He Hl | ref s He]; fields;
    try (split; [auto | congruence]).
  - destruct (enqueue_output_line_fields (s_meta s) line) as (-> & _). split; [auto | congruence].
  - auto.
Qed.

Lemma step_sessions_ok w a w' o :
  Forall session_ok (sessions w) -> step w a = Some (w', o) ->
  Forall session_ok (sessions w').
Proof.
  intros Hok H.
  destruct (step_sessions _ _ _ _ H) as [-> | [(cmd & ->) | (r & s & t & Hs & -> & Ht)]].
  - exact Hok.
  - apply Forall_app. split; [exact Hok|]. repeat constructor.
  - apply Forall_insert; [exact Hok|]. eapply session_trans_ok; [exact Ht|].
    eapply Forall_lookup_1; eauto.
Qed.

Lemma step_session_kept w a w' o ref s :
  step w a = Some (w', o) -> sessions w !! ref = Some s ->
  exists s', sessions w' !! ref = Some s'.
Proof.
  intros H Hs. apply lookup_lt_is_Some. apply lookup_lt_Some in Hs.
  destruct (step_sessions _ _ _ _ H) as [-> | [(cmd & ->) | (r & s0 & t & _ & -> & _)]].
  - exact Hs.
  - rewrite length_app. lia.
  - rewrite length_insert. exact Hs.
Qed.

Lemma run_done_stable acts w w' tr ref s :
  run w acts = Some (w', tr) ->
  sessions w !! ref = Some s -> done (s_meta s) = true ->
  exists s', sessions w' !! ref = Some s' /\ done (s_meta s') = true.
Proof.
  revert w s tr. induction acts as [|a acts IH]; intros w s tr Hrun Hs Hd.
  - injection Hrun as <- _. eauto.
  - apply run_cons_inv in Hrun as (w1 & o1 & o2 & Hstep & Hr & _).
    destruct (step_session_kept _ _ _ _ _ _ Hstep Hs) as [s1 Hs1].
    pose proof (step_session_at _ _ _ _ _ _ Hstep Hs1) as Hat. rewrite Hs in Hat.
    eapply IH; [exact Hr | exact Hs1 |].
    destruct Hat as [-> | Ht]; [exact Hd|]. apply (session_trans_done _ _ _ _ Ht), Hd.
Qed.

(** C7. In every world the server can reach: a session is created with
    [done] false; a step that finds [done] true leaves it true, and so does
    every run of further steps; the one step that turns it from false to
    true is the return of [proc.wait()] in the thread of [_enqueue_output],
    taken after that thread has read the end of the child's stdout and
    closed it, and with the child terminated. The thread of [_enqueue_err]
    and the handlers never write it. *)
Theorem done_set_once (acts : list action) (w : world) (tr : list obs) :
  run init acts = Some (w, tr) ->
  (forall ref s,
      sessions w !! ref = Some s -> done (s_meta s) = true ->
      s_out s = OutReturned /\ p_stdout_closed (proc (s_meta s)) = true /\
      p_exited (proc (s_meta s)) = true) /\
  (forall a w' o ref s',
      step w a = Some (w', o) -> sessions w' !! ref = Some s' ->
      match sessions w !! ref with
      | None => done (s_meta s') = false
      | Some s =>
          (done (s_meta s) = true -> done (s_meta s') = true) /\
          (done (s_meta s) = false -> done (s_meta s') = true ->
           a = OutWait ref /\ s_out s = OutWaiting /\
           p_stdout_closed (proc (s_meta s)) = true /\
           p_exited (proc (s_meta s)) = true)
      end) /\
  (forall acts' w' tr' ref s,
      run w acts' = Some (w', tr') ->
      sessions w !! ref = Some s -> done (s_meta s) = true ->
      exists s', sessions w' !! ref = Some s' /\ done (s_meta s') = true).
Proof.
  intros Hrun.
  assert (Hok : Forall session_ok (sessions w)).
  { apply (run_invariant (fun w => Forall session_ok (sessions w)) step_sessions_ok
             acts init w tr); [constructor | exact Hrun]. }
  split; [|split].
  - intros ref s Hs Hd. pose proof (Forall_lookup_1 _ _ _ _ Hok Hs) as Hs_ok.
    unfold session_ok in Hs_ok. destruct (s_out s); intuition congruence.
  - intros a w' o ref s' Hstep Hs'.
    pose proof (step_session_at _ _ _ _ _ _ Hstep Hs') as Hat.
    destruct (sessions w !! ref) as [s|] eqn:Hs.
    + destruct Hat as [-> | Ht]; [split; [auto | congruence]|].
      destruct (session_trans_done _ _ _ _ Ht) as [Hkeep Hflip].
      split; [exact Hkeep|]. intros Hf Ht'. destruct (Hflip Hf Ht') as (-> & Ho & He).
      pose proof (Forall_lookup_1 _ _ _ _ Hok Hs) as Hs_ok.
      unfold session_ok in Hs_ok. rewrite Ho in Hs_ok. intuition.
    + destruct Hat as [cmd ->]. reflexivity.
  - intros acts' w' tr' ref s Hrun' Hs Hd. eapply run_done_stable; eauto.
Qed.

(** ** Stop *)

(** C8. For a registered scan id, [stop] sends the interrupt signal; when
    that raises it calls [terminate], and it does so only then; whether these
    calls return or raise, the handler answers [stopping] and nothing of the
    server's state is written: the sessions, and with them [done], are as
    they were, also when the child has terminated. *)
Theorem stop_spec (w : world) (scan_id : string) (ref : nat) (sigint_ok terminate_ok : bool) :
  scans w !! scan_id = Some ref ->
  let out := if sigint_ok then [SendSigint ref true; Responded Stopping]
             else [SendSigint ref false; Terminate ref terminate_ok; Responded Stopping] in
  step w (DoStop scan_id sigint_ok terminate_ok) = Some (w, out) /\
  last out = Some (Responded Stopping) /\
  (forall r, In (Responded r) out -> r = Stopping) /\
  (forall s, sessions w !! ref = Some s ->
             p_exited (proc (s_meta s)) = true -> done (s_meta s) = true ->
             exists w', step w (DoStop scan_id sigint_ok terminate_ok) = Some (w', out) /\
                        sessions w' !! ref = Some s).
Proof.
  intros Hid out. subst out. cbn [step]. unfold stop. rewrite Hid.
  destruct sigint_ok; (split; [reflexivity|]); (split; [reflexivity|]); split;
    try (intros s Hs _ _; eexists; split; [reflexivity | exact Hs]);
    intros r Hr; simpl in Hr; intuition congruence.
Qed.

(** ** The stream generator *)

Lemma yields_app k tr1 tr2 : yields k (tr1 ++ tr2) = yields k tr1 ++ yields k tr2.
Proof. apply flat_map_app. Qed.

Lemma yields_one k k0 e :
  yields k [Yielded k0 e] = if decide (k0 = k) then [e] else [].
Proof. unfold yields. simpl. destruct (decide (k0 = k)); reflexivity. Qed.

Lemma step_stream_at w a w' o k :
  step w a = Some (w', o) ->
  match streams w !! k with
  | None =>
      yields k o = [] /\
      (streams w' !! k = None \/ exists ref, streams w' !! k = Some (Generator ref AtGet))
  | Some g =>
      exists pc',
        streams w' !! k = Some (Generator (g_meta g) pc') /\
        ((pc' = g_pc g /\ yields k o = []) \/ gen_trans w k g a pc' (yields k o))
  end.
Proof.
  intros H.
  assert (Hsame : streams w' = streams w -> yields k o = [] ->
            match streams w !! k with
            | None =>
                yields k o = [] /\
                (streams w' !! k = None \/
                 exists ref, streams w' !! k = Some (Generator ref AtGet))
            | Some g =>
                exists pc',
                  streams w' !! k = Some (Generator (g_meta g) pc') /\
                  ((pc' = g_pc g /\ yields k o = []) \/ gen_trans w k g a pc' (yields k o))
            end).
  { intros -> Hy. destruct (streams w !! k) as [[ref pc]|] eqn:Hk; eauto 10. }
  assert (Hmove : forall k0 g0 pc' es,
            streams w !! k0 = Some g0 ->
            streams w' = <[k0 := Generator (g_meta g0) pc']> (streams w) ->
            yields k0 o = es ->
            (forall k1, k1 <> k0 -> yields k1 o = []) ->
            gen_trans w k0 g0 a pc' es ->
            match streams w !! k with
            | None =>
                yields k o = [] /\
                (streams w' !! k = None \/
                 exists ref, streams w' !! k = Some (Generator ref AtGet))
            | Some g =>
                exists pc',
                  streams w' !! k = Some (Generator (g_meta g) pc') /\
                  ((pc' = g_pc g /\ yields k o = []) \/ gen_trans w k g a pc' (yields k o))
            end).
  { intros k0 g0 pc' es Hk0 -> Hy Hother Ht. destruct (decide (k = k0)) as [->|Hne].
    - rewrite Hk0. exists pc'. rewrite list_lookup_insert_eq by (eapply lookup_lt_Some, Hk0).
      rewrite Hy. auto.
    - rewrite list_lookup_insert_ne by congruence. rewrite (Hother k Hne).
      destruct (streams w !! k) as [[ref pc]|] eqn:Hk; eauto 10. }
  pose proof (request_step_inv _ _ _ _ H) as Hr.
  pose proof (thread_step_inv _ _ _ _ H) as Ht. destruct a; cbn [step] in H.
  - destruct Hr as [[-> [-> | ->]] | (p & cmd & _ & -> & ->)]; apply Hsame; reflexivity.
  - destruct Hr as [[-> ->] | (ref & _ & -> & ->)]; [apply Hsame; reflexivity|].
    cbn [streams with_streams].
    destruct (streams w !! k) as [[r pc]|] eqn:Hk.
    + exists pc. rewrite (lookup_app_l_Some _ _ _ _ Hk). auto.
    + split; [reflexivity|]. apply lookup_ge_None in Hk.
      rewrite lookup_app_r by exact Hk.
      destruct (k - length (streams w)) as [|n]; simpl; eauto.
  - destruct Hr as [-> [-> | [ref [-> | ->]]]]; apply Hsame; reflexivity.
  - destruct Hr as [[-> ->] | (ref & _ & -> & ->)]; apply Hsame; reflexivity.
  - destruct Hr as (hs & -> & [-> | [r ->]]); apply Hsame; reflexivity.
  - apply stream_get_inv in H
      as (g & s & Hg & Hpc & Hs & Hst & _ & [(Hq & _ & ->) | (l & r & Hq & _ & ->)]).
    + apply (Hmove k0 g AtSnapshot [] Hg Hst); [reflexivity | reflexivity|].
      eapply gen_get_empty; eauto.
    + apply (Hmove k0 g AtSnapshot [Data l] Hg Hst).
      * rewrite yields_one, decide_True; reflexivity.
      * intros k1 Hk1. rewrite yields_one, decide_False; congruence.
      * eapply gen_get_line; eauto.
  - apply stream_snapshot_inv in H as (g & s & Hg & Hpc & Hs & Hst & _ & _ & ->).
    apply (Hmove k0 g
             (AtProgress (done (s_meta s)) (progress (s_meta s)) (total (s_meta s)))
             [] Hg Hst); [reflexivity | reflexivity|].
    eapply gen_snapshot; eauto.
  - apply stream_yield_inv in H as (g & d & p & t & Hg & Hpc & Hst & _ & _ & ->).
    apply (Hmove k0 g (AtCheck d) [Progress p t] Hg Hst).
    + rewrite yields_one, decide_True; reflexivity.
    + intros k1 Hk1. rewrite yields_one, decide_False; congruence.
    + eapply gen_yield; eauto.
  - apply stream_check_inv in H
      as (g & s & d & Hg & Hpc & Hs & _ & _ & [(-> & Hq & Hst & ->) | (Hd & Hst & ->)]).
    + apply (Hmove k0 g Closed [Complete] Hg Hst).
      * rewrite yields_one, decide_True; reflexivity.
      * intros k1 Hk1. rewrite yields_one, decide_False; congruence.
      * eapply gen_complete; eauto.
    + apply (Hmove k0 g AtGet [] Hg Hst); [reflexivity | reflexivity|].
      eapply gen_again; eauto.
  - destruct Ht as (s & s' & _ & _ & -> & ->). apply Hsame; [reflexivity|].
    destruct (nonempty line); reflexivity.
  - destruct Ht as (s & s' & _ & _ & -> & ->). apply Hsame; reflexivity.
  - destruct Ht as (s & s' & _ & _ & -> & ->). apply Hsame; [reflexivity|].
    destruct (nonempty line); reflexivity.
  - destruct Ht as (s & s' & _ & _ & -> & ->). apply Hsame; reflexivity.
Qed.

Lemma iterations_no_complete es : iterations es -> ~ In Complete es.
Proof.
  induction 1 as [|es p t _ IH|es l p t _ IH]; [auto | |];
    rewrite in_app_iff; simpl; intuition congruence.
Qed.

Lemma gen_trans_shape w k g a pc' out es :
  gen_trans w k g a pc' out -> stream_shape (g_pc g) es -> stream_shape pc' (es ++ out).
Proof.
  destruct 1 as [s Hpc Hs Hq | s line rest Hpc Hs Hq | s Hpc Hs | d p t Hpc
                | s Hpc Hs Hq | s d Hpc Hs Hd];
    rewrite Hpc; cbn [stream_shape]; rewrite ?app_nil_r.
  - auto.
  - intros Hi. right. eauto.
  - auto.
  - intros [Hi | (es' & l & -> & Hi)].
    + split; [apply iter_quiet, Hi | intros E; apply app_eq_nil in E as [_ E]; discriminate].
    + rewrite <- app_assoc. split; [apply iter_data, Hi|].
      intros E; apply app_eq_nil in E as [_ E]; discriminate.
  - intros [Hi Hne]. eauto.
  - intros [Hi _]. exact Hi.
Qed.

Lemma step_streams_shaped w a w' o hist :
  streams_shaped w hist -> step w a = Some (w', o) ->
  streams_shaped w' (fun k => hist k ++ yields k o).
Proof.
  intros Hsh H k. specialize (Hsh k). pose proof (step_stream_at _ _ _ _ k H) as Hat.
  destruct (streams w !! k) as [g|].
  - destruct Hat as (pc' & -> & [[-> ->] | Ht]); cbn [g_pc].
    + rewrite app_nil_r. exact Hsh.
    + eapply gen_trans_shape; eauto.
  - destruct Hat as [-> [-> | [ref ->]]]; rewrite Hsh; [reflexivity | constructor].
Qed.

Lemma run_streams_shaped acts w w' tr hist :
  streams_shaped w hist -> run w acts = Some (w', tr) ->
  streams_shaped w' (fun k => hist k ++ yields k tr).
Proof.
  revert w tr hist. induction acts as [|a acts IH]; intros w tr hist Hsh Hrun.
  - injection Hrun as <- <-. intros k. specialize (Hsh k). simpl.
    rewrite app_nil_r. exact Hsh.
  - apply run_cons_inv in Hrun as (w1 & o1 & o2 & Hstep & Hr & ->).
    pose proof (IH _ _ _ (step_streams_shaped _ _ _ _ _ Hsh Hstep) Hr) as H.
    intros k. specialize (H k). cbn beta in H.
    rewrite yields_app, app_assoc. exact H.
Qed.

Lemma run_init_shaped acts w tr :
  run init acts = Some (w, tr) -> streams_shaped w (fun k => yields k tr).
Proof.
  intros Hrun. apply (run_streams_shaped acts init w tr (fun _ => [])); [|exact Hrun].
  intros k. reflexivity.
Qed.

Lemma shape_complete pc es :
  stream_shape pc es ->
  (In Complete es <-> pc = Closed) /\
  (forall es1 es2, es = es1 ++ Complete :: es2 -> es2 = [] /\ ~ In Complete es1).
Proof.
  intros Hsh.
  assert (Hopen : iterations es \/ (exists es' l, es = es' ++ [Data l] /\ iterations es') ->
            ~ In Complete es).
  { intros [Hi | (es' & l & -> & Hi)]; [apply iterations_no_complete, Hi|].
    rewrite in_app_iff. simpl. pose proof (iterations_no_complete _ Hi). intuition congruence. }
  destruct pc as [| |d p t|d|]; cbn [stream_shape] in Hsh.
  - assert (Hn : ~ In Complete es) by auto. split; [split; [tauto | discriminate]|].
    intros es1 es2 ->. destruct Hn. rewrite in_app_iff. simpl. auto.
  - assert (Hn : ~ In Complete es) by auto. split; [split; [tauto | discriminate]|].
    intros es1 es2 ->. destruct Hn. rewrite in_app_iff. simpl. auto.
  - assert (Hn : ~ In Complete es) by auto. split; [split; [tauto | discriminate]|].
    intros es1 es2 ->. destruct Hn. rewrite in_app_iff. simpl. auto.
  - destruct Hsh as [Hi _].
    assert (Hn : ~ In Complete es) by auto. split; [split; [tauto | discriminate]|].
    intros es1 es2 ->. destruct Hn. rewrite in_app_iff. simpl. auto.
  - destruct Hsh as (es' & -> & Hi & _). pose proof (iterations_no_complete _ Hi) as Hn.
    split; [split; [reflexivity | intros _; rewrite in_app_iff; simpl; auto]|].
    intros es1 es2 He. destruct es2 as [|e es2 _] using rev_ind.
    + apply app_inj_tail in He as [-> _]. auto.
    + exfalso. apply Hn. change (Complete :: es2 ++ [e]) with ((Complete :: es2) ++ [e]) in He.
      rewrite app_assoc in He. apply app_inj_tail in He as [-> _].
      rewrite in_app_iff. simpl. auto.
Qed.

Lemma closed_stays w a w' o k g :
  step w a = Some (w', o) -> streams w !! k = Some g -> g_pc g = Closed ->
  streams w' !! k = Some g /\ yields k o = [].
Proof.
  intros H Hk Hpc. pose proof (step_stream_at _ _ _ _ k H) as Hat. rewrite Hk in Hat.
  destruct Hat as (pc' & Hk' & [[-> Hy] | Ht]).
  - rewrite Hk'. destruct g; auto.
  - exfalso. destruct Ht; congruence.
Qed.

Lemma run_closed_stays acts w w' tr k g :
  run w acts = Some (w', tr) -> streams w !! k = Some g -> g_pc g = Closed ->
  streams w' !! k = Some g /\ yields k tr = [].
Proof.
  revert w tr. induction acts as [|a acts IH]; intros w tr Hrun Hk Hpc.
  - injection Hrun as <- <-. auto.
  - apply run_cons_inv in Hrun as (w1 & o1 & o2 & Hstep & Hr & ->).
    destruct (closed_stays _ _ _ _ _ _ Hstep Hk Hpc) as [Hk1 Hy1].
    destruct (IH _ _ Hr Hk1 Hpc) as [Hk2 Hy2].
    rewrite yields_app, Hy1, Hy2. auto.
Qed.

Lemma In_yields k e tr : In (Yielded k e) tr <-> In e (yields k tr).
Proof.
  unfold yields. rewrite in_flat_map. split.
  - intros Hin. eexists. split; [exact Hin|]. simpl. rewrite decide_True by reflexivity.
    simpl. auto.
  - intros (x & Hin & Hx). destruct x as [| | |k' e'| |]; simpl in Hx; try contradiction.
    destruct (decide (k' = k)) as [->|]; simpl in Hx; [|contradiction].
    destruct Hx as [<- | []]. exact Hin.
Qed.

Lemma complete_step w a w' o k :
  step w a = Some (w', o) ->
  (In (Yielded k Complete) o <->
   a = StreamCheck k /\
   exists g s, streams w !! k = Some g /\ g_pc g = AtCheck true /\
               sessions w !! g_meta g = Some s /\ queue (s_meta s) = []).
Proof.
  intros Hstep. rewrite In_yields. split.
  - intros Hin. pose proof (step_stream_at _ _ _ _ k Hstep) as Hat.
    destruct (streams w !! k) as [g|].
    + destruct Hat as (pc' & _ & [[_ Hy] | Ht]); [rewrite Hy in Hin; destruct Hin|].
      destruct Ht as [s Hpc Hs Hq | s line rest Hpc Hs Hq | s Hpc Hs | d p t Hpc
                     | s Hpc Hs Hq | s d Hpc Hs Hd];
        simpl in Hin; try (destruct Hin as [|[]]; congruence); try contradiction.
      split; [reflexivity|]. eauto 10.
    + destruct Hat as [Hy _]. rewrite Hy in Hin. destruct Hin.
  - intros [-> (g & s & Hg & Hpc & Hs & Hq)]. cbn [step] in Hstep.
    apply stream_check_inv in Hstep
      as (g' & s' & d & Hg' & Hpc' & Hs' & _ & _ & [(_ & _ & _ & ->) | (Hd & _)]).
    + rewrite yields_one, decide_True by reflexivity. simpl. auto.
    + rewrite Hg in Hg'. injection Hg' as <-. rewrite Hs in Hs'. injection Hs' as <-.
      rewrite Hpc in Hpc'. injection Hpc' as <-. destruct Hd; congruence.
Qed.

Lemma progress_flag_read w a w' o k g' d p t :
  step w a = Some (w', o) -> streams w' !! k = Some g' -> g_pc g' = AtProgress d p t ->
  streams w !! k = Some g' \/
  (a = StreamSnapshot k /\
   exists g s, streams w !! k = Some g /\ sessions w !! g_meta g = Some s /\
               done (s_meta s) = d /\ progress (s_meta s) = p /\ total (s_meta s) = t).
Proof.
  intros Hstep Hk' Hpc'. pose proof (step_stream_at _ _ _ _ k Hstep) as Hat.
  destruct (streams w !! k) as [g|].
  - destruct Hat as (pc' & Hk & [[-> _] | Ht]).
    + left. rewrite Hk' in Hk. injection Hk as ->. destruct g; reflexivity.
    + rewrite Hk' in Hk. injection Hk as ->. cbn [g_pc] in Hpc'.
      destruct Ht as [s Hpc Hs Hq | s line rest Hpc Hs Hq | s Hpc Hs | d' p' t' Hpc
                     | s Hpc Hs Hq | s d' Hpc Hs Hd];
        try discriminate.
      injection Hpc' as <- <- <-. right. split; [reflexivity|]. eauto 10.
  - destruct Hat as [_ [Hn | [ref Hn]]]; rewrite Hk' in Hn; [discriminate|].
    injection Hn as ->. discriminate.
Qed.

Lemma check_flag_read w a w' o k g' d :
  step w a = Some (w', o) -> streams w' !! k = Some g' -> g_pc g' = AtCheck d ->
  streams w !! k = Some g' \/
  (a = StreamYield k /\
   exists g p t, streams w !! k = Some g /\ g_pc g = AtProgress d p t).
Proof.
  intros Hstep Hk' Hpc'. pose proof (step_stream_at _ _ _ _ k Hstep) as Hat.
  destruct (streams w !! k) as [g|].
  - destruct Hat as (pc' & Hk & [[-> _] | Ht]).
    + left. rewrite Hk' in Hk. injection Hk as ->. destruct g; reflexivity.
    + rewrite Hk' in Hk. injection Hk as ->. cbn [g_pc] in Hpc'.
      destruct Ht as [s Hpc Hs Hq | s line rest Hpc Hs Hq | s Hpc Hs | d' p' t' Hpc
                     | s Hpc Hs Hq | s d' Hpc Hs Hd];
        try discriminate.
      injection Hpc' as <-. right. split; [reflexivity|]. eauto 10.
  - destruct Hat as [_ [Hn | [ref Hn]]]; rewrite Hk' in Hn; [discriminate|].
    injection Hn as ->. discriminate.
Qed.

Lemma final_pass w k g s :
  streams w !! k = Some g -> g_pc g = AtGet ->
  sessions w !! g_meta g = Some s ->
  done (s_meta s) = true -> queue (s_meta s) = [] ->
  exists w',
    run w [StreamGet k; StreamSnapshot k; StreamYield k; StreamCheck k] =
      Some (w', [Yielded k (Progress (progress (s_meta s)) (total (s_meta s)));
                 Yielded k Complete]) /\
    streams w' !! k = Some (Generator (g_meta g) Closed).
Proof.
  intros Hg Hpc Hs Hd Hq. pose proof (lookup_lt_Some _ _ _ Hg) as Hlt.
  cbn [run step]. unfold stream_get. rewrite Hg. cbn [mbind option_bind].
  rewrite Hpc, Hs. cbn [mbind option_bind]. rewrite Hq. cbn [mbind option_bind].
  unfold stream_snapshot. cbn [streams sessions with_streams].
  rewrite list_lookup_insert_eq by exact Hlt. cbn [mbind option_bind g_pc g_meta].
  rewrite Hs. cbn [mbind option_bind]. unfold stream_yield.
  cbn [streams sessions with_streams].
  rewrite list_lookup_insert_eq by (rewrite length_insert; exact Hlt).
  cbn [mbind option_bind g_pc g_meta]. unfold stream_check.
  cbn [streams sessions with_streams].
  rewrite list_lookup_insert_eq by (rewrite !length_insert; exact Hlt).
  cbn [mbind option_bind g_pc g_meta]. rewrite Hs. cbn [mbind option_bind].
  unfold q_empty. rewrite Hd, Hq. cbn [andb mbind option_bind app].
  eexists. split; [reflexivity|]. cbn [streams with_streams].
  apply list_lookup_insert_eq. rewrite !length_insert. exact Hlt.
Qed.

(** C5. A generator yields [complete] in the step that tests
    [done and q.empty()], when the [done] it has read under the lock is true
    and the queue is empty at the test, and in no other step; that value of
    [done] is the one of its last locked read, which it holds from the read
    over the [yield] of the progress event to the test. A pass that starts with
    [done] set and the queue empty ends with [complete]. Once it has yielded
    [complete] the generator is finished: in every run, [complete] is the
    last event of the generator and occurs once, the generators that have
    finished are those that have yielded it, and a finished generator takes
    no further step and yields nothing in whatever follows. *)
Theorem complete_spec (acts : list action) (w : world) (tr : list obs) (k : nat) :
  run init acts = Some (w, tr) ->
  (forall a w' o,
      step w a = Some (w', o) ->
      (In (Yielded k Complete) o <->
       a = StreamCheck k /\
       exists g s, streams w !! k = Some g /\ g_pc g = AtCheck true /\
                   sessions w !! g_meta g = Some s /\ queue (s_meta s) = [])) /\
  (forall a w' o g' d,
      step w a = Some (w', o) -> streams w' !! k = Some g' -> g_pc g' = AtCheck d ->
      streams w !! k = Some g' \/
      (a = StreamYield k /\
       exists g p t, streams w !! k = Some g /\ g_pc g = AtProgress d p t)) /\
  (forall a w' o g' d p t,
      step w a = Some (w', o) -> streams w' !! k = Some g' ->
      g_pc g' = AtProgress d p t ->
      streams w !! k = Some g' \/
      (a = StreamSnapshot k /\
       exists g s, streams w !! k = Some g /\ sessions w !! g_meta g = Some s /\
                   done (s_meta s) = d /\ progress (s_meta s) = p /\
                   total (s_meta s) = t)) /\
  (forall g s,
      streams w !! k = Some g -> g_pc g = AtGet ->
      sessions w !! g_meta g = Some s ->
      done (s_meta s) = true -> queue (s_meta s) = [] ->
      exists w',
        run w [StreamGet k; StreamSnapshot k; StreamYield k; StreamCheck k] =
          Some (w', [Yielded k (Progress (progress (s_meta s)) (total (s_meta s)));
                     Yielded k Complete]) /\
        streams w' !! k = Some (Generator (g_meta g) Closed)) /\
  (forall es1 es2, yields k tr = es1 ++ Complete :: es2 -> es2 = [] /\ ~ In Complete es1) /\
  (In Complete (yields k tr) <-> exists g, streams w !! k = Some g /\ g_pc g = Closed) /\
  (forall g acts' w' tr',
      streams w !! k = Some g -> g_pc g = Closed ->
      run w acts' = Some (w', tr') ->
      streams w' !! k = Some g /\ yields k tr' = [] /\
      forall a, In a [StreamGet k; StreamSnapshot k; StreamYield k; StreamCheck k] ->
                step w' a = None).
Proof.
  intros Hrun. pose proof (run_init_shaped _ _ _ Hrun k) as Hsh.
  split; [|split; [|split; [|split; [|split; [|split]]]]].
  - intros a w' o Hstep. apply (complete_step _ _ _ _ _ Hstep).
  - intros a w' o g' d. apply check_flag_read.
  - intros a w' o g' d p t. apply progress_flag_read.
  - apply final_pass.
  - destruct (streams w !! k) as [g|]; [apply (shape_complete _ _ Hsh)|].
    intros es1 es2 He. rewrite Hsh in He. destruct es1; discriminate.
  - destruct (streams w !! k) as [g|].
    + destruct (shape_complete _ _ Hsh) as [Hiff _]. rewrite Hiff. split; [eauto|].
      intros (g0 & [= <-] & Hpc). exact Hpc.
    + rewrite Hsh. split; [intros [] | intros (g & Hg & _); discriminate].
  - intros g acts' w' tr' Hg Hpc Hrun'.
    destruct (run_closed_stays _ _ _ _ _ _ Hrun' Hg Hpc) as [Hg' Hy].
    split; [exact Hg'|]. split; [exact Hy|].
    intros a [<- | [<- | [<- | [<- | []]]]]; cbn [step];
      unfold stream_get, stream_snapshot, stream_yield, stream_check;
      rewrite Hg'; simpl; rewrite Hpc; reflexivity.
Qed.

(** ** The event buffer *)

Lemma lines_put_app ref tr1 tr2 :
  lines_put ref (tr1 ++ tr2) = lines_put ref tr1 ++ lines_put ref tr2.
Proof. apply flat_map_app. Qed.

Lemma lines_taken_app w ref tr1 tr2 :
  lines_taken w ref (tr1 ++ tr2) = lines_taken w ref tr1 ++ lines_taken w ref tr2.
Proof. apply flat_map_app. Qed.

Lemma step_stream_kept w a w' o k g :
  step w a = Some (w', o) -> streams w !! k = Some g ->
  exists pc', streams w' !! k = Some (Generator (g_meta g) pc').
Proof.
  intros H Hk. pose proof (step_stream_at _ _ _ _ k H) as Hat. rewrite Hk in Hat.
  destruct Hat as (pc' & Hk' & _). eauto.
Qed.

Lemma run_stream_kept acts w w' tr k g :
  run w acts = Some (w', tr) -> streams w !! k = Some g ->
  exists pc', streams w' !! k = Some (Generator (g_meta g) pc').
Proof.
  revert w tr g. induction acts as [|a acts IH]; intros w tr g Hrun Hk.
  - injection Hrun as <- _. destruct g; eauto.
  - apply run_cons_inv in Hrun as (w1 & o1 & o2 & Hstep & Hr & _).
    destruct (step_stream_kept _ _ _ _ _ _ Hstep Hk) as [pc1 Hk1].
    apply (IH _ _ _ Hr Hk1).
Qed.

(** What a step puts on the queue of [ref] and what it takes from it. *)
Ltac no_data :=
  let Hin := fresh "Hin" in intros ? ? Hin; simpl in Hin; intuition discriminate.

Lemma step_queue w a w' o ref :
  step w a = Some (w', o) ->
  queue_of w ref ++ lines_put ref o = lines_taken w' ref o ++ queue_of w' ref /\
  (forall k l, In (Yielded k (Data l)) o -> is_Some (streams w' !! k)).
Proof.
  intros H. pose proof (request_step_inv _ _ _ _ H) as Hr.
  pose proof (thread_step_inv _ _ _ _ H) as Ht.
  assert (Hquiet : sessions w' = sessions w -> lines_put ref o = [] ->
                   lines_taken w' ref o = [] ->
                   queue_of w ref ++ lines_put ref o = lines_taken w' ref o ++ queue_of w' ref).
  { intros He -> ->. unfold queue_of. rewrite He, app_nil_r. reflexivity. }
  assert (Hthread : forall r s s' (out : list obs),
            sessions w !! r = Some s -> w' = with_session w r s' -> o = out ->
            lines_taken w' ref out = [] ->
            queue (s_meta s') = queue (s_meta s) ++ lines_put r out ->
            (forall r', r' <> r -> lines_put r' out = []) ->
            queue_of w ref ++ lines_put ref o = lines_taken w' ref o ++ queue_of w' ref).
  { intros r s s' out Hs -> -> Htk Hq Hoth. rewrite Htk. unfold queue_of.
    cbn [sessions with_session with_sessions]. destruct (decide (ref = r)) as [->|Hne].
    - rewrite Hs, list_lookup_insert_eq by (eapply lookup_lt_Some, Hs). rewrite Hq. reflexivity.
    - rewrite list_lookup_insert_ne by congruence. rewrite (Hoth ref Hne), app_nil_r.
      reflexivity. }
  assert (Hput : forall r l, lines_put r [Put r l] = [l])
    by (intros r l; unfold lines_put; simpl; rewrite decide_True by reflexivity; reflexivity).
  assert (Hput' : forall r r' l, r' <> r -> lines_put r' [Put r l] = [])
    by (intros r r' l Hne; unfold lines_put; simpl;
        rewrite decide_False by congruence; reflexivity).
  destruct a; cbn [step] in H.
  - destruct Hr as [[-> [-> | ->]] | (p & cmd & _ & -> & ->)];
      (split; [|no_data]); [apply Hquiet; reflexivity..|].
    unfold queue_of. cbn [sessions lines_put lines_taken flat_map app].
    destruct (sessions w !! ref) as [s|] eqn:Hs.
    + rewrite (lookup_app_l_Some _ _ _ _ Hs), app_nil_r. reflexivity.
    + apply lookup_ge_None in Hs. rewrite lookup_app_r by exact Hs.
      destruct (ref - length (sessions w)) as [|n]; reflexivity.
  - destruct Hr as [[-> ->] | (r & _ & -> & ->)];
      (split; [|no_data]); apply Hquiet; reflexivity.
  - destruct Hr as [-> [-> | [r [-> | ->]]]];
      (split; [|no_data]);
      apply Hquiet; reflexivity.
  - destruct Hr as [[-> ->] | (r & _ & -> & ->)]; (split; [|no_data]);
      apply Hquiet; reflexivity.
  - destruct Hr as (hs & -> & [-> | [r ->]]); (split; [|no_data]);
      apply Hquiet; reflexivity.
  - apply stream_get_inv in H
      as (g & s & Hg & Hpc & Hs & Hst & _ & [(Hq & Hss & ->) | (l & r & Hq & Hss & ->)]).
    + split; [|no_data]. apply Hquiet; auto.
    + split.
      * unfold queue_of, lines_taken, stream_on. cbn [lines_put flat_map app].
        rewrite Hst, Hss, list_lookup_insert_eq by (eapply lookup_lt_Some, Hg).
        cbn [g_meta]. rewrite app_nil_r. destruct (decide (ref = g_meta g)) as [->|Hne].
        -- rewrite Hs, Hq, list_lookup_insert_eq by (eapply lookup_lt_Some, Hs).
           rewrite bool_decide_eq_true_2 by reflexivity. reflexivity.
        -- rewrite list_lookup_insert_ne by congruence.
           rewrite bool_decide_eq_false_2 by congruence. reflexivity.
      * intros k' l' [[= <- <-] | []]. rewrite Hst.
        rewrite list_lookup_insert_eq by (eapply lookup_lt_Some, Hg). eauto.
  - apply stream_snapshot_inv in H as (g & s & Hg & Hpc & Hs & Hst & _ & Hss & ->).
    split; [|no_data]. apply Hquiet; auto.
  - apply stream_yield_inv in H as (g & d & p & t & Hg & Hpc & Hst & _ & Hss & ->).
    split; [|no_data]. apply Hquiet; auto.
  - apply stream_check_inv in H
      as (g & s & d & Hg & Hpc & Hs & _ & Hss & [(_ & _ & _ & ->) | (_ & _ & ->)]);
      (split; [|no_data]);
      apply Hquiet; auto.
  - destruct Ht as (s & s' & Hs & Htr & Hw & Ho).
    split; [|intros k' l' Hin; rewrite Ho in Hin; destruct (nonempty line);
             simpl in Hin; intuition discriminate].
    eapply Hthread; eauto.
    + destruct (nonempty line); reflexivity.
    + inversion Htr as [| ? ? ? Hout Hl | ? ? ? Hout Hl | | | |]; subst; rewrite Hl; fields.
      * rewrite Hput. apply enqueue_output_line_fields.
      * rewrite app_nil_r. reflexivity.
    + intros r' Hne. destruct (nonempty line); [apply Hput', Hne | reflexivity].
  - destruct Ht as (s & s' & Hs & Htr & Hw & Ho).
    split; [|intros k' l' Hin; rewrite Ho in Hin; destruct Hin].
    eapply Hthread; eauto.
    inversion Htr; subst; fields. rewrite app_nil_r. reflexivity.
  - destruct Ht as (s & s' & Hs & Htr & Hw & Ho).
    split; [|intros k' l' Hin; rewrite Ho in Hin; destruct (nonempty line);
             simpl in Hin; intuition discriminate].
    eapply Hthread; eauto.
    + destruct (nonempty line); reflexivity.
    + inversion Htr as [| | | | ? ? ? Hout Hl | ? ? ? Hout Hl |]; subst; rewrite Hl; fields.
      * rewrite Hput. reflexivity.
      * rewrite app_nil_r. reflexivity.
    + intros r' Hne. destruct (nonempty line); [apply Hput', Hne | reflexivity].
  - destruct Ht as (s & s' & Hs & Htr & Hw & Ho).
    split; [|intros k' l' Hin; rewrite Ho in Hin; destruct Hin].
    eapply Hthread; eauto.
    inversion Htr; subst; fields. rewrite app_nil_r. reflexivity.
Qed.

Lemma lines_taken_stable w1 w ref o :
  (forall k l, In (Yielded k (Data l)) o -> is_Some (streams w1 !! k)) ->
  (forall k g, streams w1 !! k = Some g ->
               exists pc, streams w !! k = Some (Generator (g_meta g) pc)) ->
  lines_taken w ref o = lines_taken w1 ref o.
Proof.
  intros Hex Hkept. induction o as [|x o IH]; [reflexivity|].
  unfold lines_taken in *. cbn [flat_map]. rewrite IH by (intros; eapply Hex; right; eauto).
  f_equal. destruct x as [| | |k [l| |]| |]; try reflexivity.
  destruct (Hex k l (or_introl eq_refl)) as [g Hg]. destruct (Hkept k g Hg) as [pc Hg'].
  unfold stream_on. rewrite Hg, Hg'. reflexivity.
Qed.

Lemma run_queue acts w w' tr ref :
  run w acts = Some (w', tr) ->
  queue_of w ref ++ lines_put ref tr = lines_taken w' ref tr ++ queue_of w' ref /\
  (forall k l, In (Yielded k (Data l)) tr -> is_Some (streams w' !! k)).
Proof.
  revert w tr. induction acts as [|a acts IH]; intros w tr Hrun.
  - injection Hrun as <- <-. split; [simpl; rewrite app_nil_r; reflexivity | intros ? ? []].
  - apply run_cons_inv in Hrun as (w1 & o1 & o2 & Hstep & Hr & ->).
    destruct (step_queue _ _ _ _ ref Hstep) as [Hq1 Hex1].
    destruct (IH _ _ Hr) as [Hq2 Hex2].
    assert (Hkept : forall k g, streams w1 !! k = Some g ->
                      exists pc, streams w' !! k = Some (Generator (g_meta g) pc))
      by (intros k g; apply (run_stream_kept _ _ _ _ _ _ Hr)).
    split.
    + rewrite lines_put_app, lines_taken_app, app_assoc, Hq1, <- app_assoc, Hq2, app_assoc.
      rewrite (lines_taken_stable w1 w' ref o1 Hex1 Hkept). reflexivity.
    + intros k l Hin. apply in_app_iff in Hin as [Hin | Hin]; [|eapply Hex2, Hin].
      destruct (Hex1 _ _ Hin) as [g Hg]. destruct (Hkept _ _ Hg) as [pc ->]. eauto.
Qed.

Lemma lines_seen_cons k x tr :
  lines_seen k (x :: tr) =
    match x with
    | Yielded k' (Data l) => if decide (k' = k) then [l] else []
    | _ => []
    end ++ lines_seen k tr.
Proof.
  unfold lines_seen, yields, data_lines. cbn [flat_map]. rewrite flat_map_app. f_equal.
  destruct x as [| | |k' [l| |]| |]; try reflexivity;
    match goal with |- context [decide ?P] => destruct (decide P) end; reflexivity.
Qed.

Lemma lines_seen_taken w ref k g tr :
  streams w !! k = Some g -> g_meta g = ref ->
  sublist (lines_seen k tr) (lines_taken w ref tr).
Proof.
  intros Hg Href. induction tr as [|x tr IH]; [constructor|].
  rewrite lines_seen_cons. unfold lines_taken in *. cbn [flat_map].
  destruct x as [| | |k' [l| |]| |]; cbn [app]; try exact IH.
  destruct (decide (k' = k)) as [->|Hne].
  - unfold stream_on. rewrite Hg, bool_decide_eq_true_2 by exact Href.
    cbn [app]. apply sublist_skip, IH.
  - apply sublist_inserts_l, IH.
Qed.

Lemma lines_seen_two w ref k1 k2 g1 g2 tr :
  k1 <> k2 ->
  streams w !! k1 = Some g1 -> streams w !! k2 = Some g2 ->
  g_meta g1 = ref -> g_meta g2 = ref ->
  length (lines_seen k1 tr) + length (lines_seen k2 tr) <= length (lines_taken w ref tr).
Proof.
  intros Hne Hg1 Hg2 Hr1 Hr2. induction tr as [|x tr IH]; [simpl; lia|].
  rewrite !lines_seen_cons. unfold lines_taken in *. cbn [flat_map].
  rewrite !length_app.
  destruct x as [| | |k' [l| |]| |]; cbn [length]; try lia.
  unfold stream_on in *.
  destruct (decide (k' = k1)) as [E1|Hn1]; [|destruct (decide (k' = k2)) as [E2|Hn2]].
  - subst k'. rewrite decide_False by congruence.
    rewrite Hg1, bool_decide_eq_true_2 by exact Hr1. simpl. lia.
  - subst k'. rewrite Hg2, bool_decide_eq_true_2 by exact Hr2. simpl. lia.
  - simpl. lia.
Qed.

Lemma lines_taken_single w ref k g tr :
  streams w !! k = Some g -> g_meta g = ref ->
  (forall k' g', streams w !! k' = Some g' -> g_meta g' = ref -> k' = k) ->
  lines_taken w ref tr = lines_seen k tr.
Proof.
  intros Hg Href Honly. induction tr as [|x tr IH]; [reflexivity|].
  rewrite lines_seen_cons. unfold lines_taken in *. cbn [flat_map]. rewrite IH. f_equal.
  destruct x as [| | |k' [l| |]| |]; try reflexivity.
  unfold stream_on. destruct (decide (k' = k)) as [->|Hne].
  - rewrite Hg, bool_decide_eq_true_2 by exact Href. reflexivity.
  - destruct (streams w !! k') as [g'|] eqn:Hg'; [|reflexivity].
    rewrite bool_decide_eq_false_2; [reflexivity|].
    intros E. apply Hne. eapply Honly; eauto.
Qed.

(** C1, as the code has it. The event buffer of a session is a queue that
    its generators share and empty: the lines put on it, in order, are the
    lines its generators have taken, all together and in the order they were
    taken, followed by the lines still waiting. A generator yields the lines
    it takes in the order they were put; a line taken by one generator is
    seen by no other, so two generators of a session have together seen no
    more lines than were put. The only generator of a session has seen all
    the lines put, but for those still waiting. *)
Theorem queue_delivery (acts : list action) (w : world) (tr : list obs) (ref : nat) :
  run init acts = Some (w, tr) ->
  lines_put ref tr = lines_taken w ref tr ++ queue_of w ref /\
  (forall k g,
      streams w !! k = Some g -> g_meta g = ref ->
      sublist (lines_seen k tr) (lines_put ref tr)) /\
  (forall k1 k2 g1 g2,
      k1 <> k2 ->
      streams w !! k1 = Some g1 -> streams w !! k2 = Some g2 ->
      g_meta g1 = ref -> g_meta g2 = ref ->
      length (lines_seen k1 tr) + length (lines_seen k2 tr) <= length (lines_put ref tr)) /\
  (forall k g,
      streams w !! k = Some g -> g_meta g = ref ->
      (forall k' g', streams w !! k' = Some g' -> g_meta g' = ref -> k' = k) ->
      lines_put ref tr = lines_seen k tr ++ queue_of w ref).
Proof.
  intros Hrun. destruct (run_queue _ _ _ _ ref Hrun) as [Hq _].
  change (queue_of init ref) with (@nil text) in Hq. cbn [app] in Hq.
  split; [exact Hq|]. split; [|split].
  - intros k g Hg Href. rewrite Hq. apply sublist_inserts_r.
    eapply lines_seen_taken; eauto.
  - intros k1 k2 g1 g2 Hne Hg1 Hg2 Hr1 Hr2. rewrite Hq, length_app.
    pose proof (lines_seen_two w ref k1 k2 g1 g2 tr Hne Hg1 Hg2 Hr1 Hr2). lia.
  - intros k g Hg Href Honly. rewrite Hq.
    rewrite (lines_taken_single w ref k g tr Hg Href Honly). reflexivity.
Qed.

(** * Further properties of the server *)

(** ** The registry *)

Lemma step_scans w a w' o :
  step w a = Some (w', o) ->
  (scans w' = scans w /\ forall id, ~ In (Responded (ScanId id)) o) \/
  (exists id cmd,
      scans w' = <[id := length (sessions w)]> (scans w) /\
      o = [Spawned (length (sessions w)) cmd; Responded (ScanId id)]).
Proof.
  intros H. pose proof (thread_step_inv _ _ _ _ H) as Ht. destruct a; cbn [step] in H.
  - injection H as H. unfold start_scan in H.
    repeat case_match; simplify_eq; cbn [scans]; eauto;
      left; (split; [reflexivity|]); intros id [|[]]; discriminate.
  - injection H as H. unfold stream in H.
    repeat case_match; simplify_eq; left; (split; [reflexivity|]);
      intros id [|[]]; discriminate.
  - injection H as H. unfold stop in H.
    repeat case_match; simplify_eq; left; (split; [reflexivity|]);
      intros id Hin; simpl in Hin; intuition discriminate.
  - injection H as H. unfold status in H.
    repeat case_match; simplify_eq; left; (split; [reflexivity|]);
      intros id Hin; simpl in Hin; intuition discriminate.
  - apply status_read_inv in H
      as (p & s & pc' & _ & _ & -> & [(_ & _ & ->) | [(? & _ & _ & ->) | (? & ? & _ & _ & ->)]]);
      left; (split; [reflexivity|]); intros id Hin; simpl in Hin; intuition discriminate.
  - apply stream_get_inv in H
      as (g & s & _ & _ & _ & _ & -> & [(_ & _ & ->) | (l & r & _ & _ & ->)]);
      left; (split; [reflexivity|]); intros id Hin; simpl in Hin; intuition discriminate.
  - apply stream_snapshot_inv in H as (g & s & _ & _ & _ & _ & -> & _ & ->).
    left. split; [reflexivity|]. intros id [].
  - apply stream_yield_inv in H as (g & d & p & t & _ & _ & _ & -> & _ & ->).
    left. split; [reflexivity|]. intros id [|[]]; discriminate.
  - apply stream_check_inv in H
      as (g & s & d & _ & _ & _ & -> & _ & [(_ & _ & _ & ->) | (_ & _ & ->)]);
      left; (split; [reflexivity|]); intros id Hin; simpl in Hin; intuition discriminate.
  - destruct Ht as (s & s' & _ & _ & -> & ->). left. split; [reflexivity|].
    intros id Hin. destruct (nonempty line); simpl in Hin; intuition discriminate.
  - destruct Ht as (s & s' & _ & _ & -> & ->). left. split; [reflexivity|]. intros id [].
  - destruct Ht as (s & s' & _ & _ & -> & ->). left. split; [reflexivity|].
    intros id Hin. destruct (nonempty line); simpl in Hin; intuition discriminate.
  - destruct Ht as (s & s' & _ & _ & -> & ->). left. split; [reflexivity|]. intros id [].
Qed.

Lemma run_scans acts w w' tr id :
  run w acts = Some (w', tr) ->
  (is_Some (scans w' !! id) <->
   is_Some (scans w !! id) \/ In (Responded (ScanId id)) tr).
Proof.
  revert w tr. induction acts as [|a acts IH]; intros w tr Hrun.
  - injection Hrun as <- <-. simpl. tauto.
  - apply run_cons_inv in Hrun as (w1 & o1 & o2 & Hstep & Hr & ->).
    rewrite (IH _ _ Hr), in_app_iff.
    destruct (step_scans _ _ _ _ Hstep) as [[-> Hno] | (id' & cmd & -> & ->)].
    + specialize (Hno id). tauto.
    + destruct (decide (id' = id)) as [->|Hne].
      * rewrite lookup_insert_eq. simpl. split; [intros _|]; eauto 10.
      * rewrite lookup_insert_ne by exact Hne. simpl.
        split; [intros [?|?]; auto | intros [?|[[|[[=]|[]]]|?]]; auto]; try discriminate.
        congruence.
Qed.

(** X1. The registry holds the ids the server has handed out and no other:
    after every run, a scan id is registered exactly when a [start] request
    of the run was answered with it. For an id that was never handed out,
    [stream], [stop] and [status] answer that the id is invalid and do
    nothing else: no generator is made, no signal sent, no state written. *)
Theorem registry_issued (acts : list action) (w : world) (tr : list obs) (scan_id : string) :
  run init acts = Some (w, tr) ->
  (is_Some (scans w !! scan_id) <-> In (Responded (ScanId scan_id)) tr) /\
  (~ In (Responded (ScanId scan_id)) tr ->
   step w (DoStream scan_id) = Some (w, [Responded InvalidScanId]) /\
   (forall sigint_ok terminate_ok,
       step w (DoStop scan_id sigint_ok terminate_ok) =
         Some (w, [Responded InvalidScanId])) /\
   step w (DoStatus scan_id) = Some (w, [Responded InvalidScanId])).
Proof.
  intros Hrun. pose proof (run_scans _ _ _ _ scan_id Hrun) as Hiff.
  assert (Hinit : ~ is_Some (scans init !! scan_id)).
  { cbn [scans init]. rewrite lookup_empty. intros [? [=]]. }
  split; [tauto|]. intros Hno.
  assert (Hnone : scans w !! scan_id = None).
  { destruct (scans w !! scan_id) eqn:E; [|reflexivity]. exfalso.
    destruct (proj1 Hiff) as [? | ?]; eauto. }
  cbn [step]. unfold stream, stop, status. rewrite Hnone. auto.
Qed.


(** What a step does to the registry, the store and the generators, all
    at once: a session is started, a generator is made, or the step writes
    at most one session and one generator that are there. *)
Lemma step_effect w a w' o :
  step w a = Some (w', o) ->
  (exists id cmd,
      scans w' = <[id := length (sessions w)]> (scans w) /\
      sessions w' =
        sessions w ++
        [Session (Meta (Process cmd false false false) [] 0 0 false) OutReading ErrReading] /\
      streams w' = streams w /\
      o = [Spawned (length (sessions w)) cmd; Responded (ScanId id)]) \/
  (exists id ref,
      scans w !! id = Some ref /\ scans w' = scans w /\ sessions w' = sessions w /\
      streams w' = streams w ++ [Generator ref AtGet] /\
      o = [Responded (EventStream (length (streams w)))]) \/
  (scans w' = scans w /\ spawned o = [] /\
   (sessions w' = sessions w \/
    exists ref s s',
      sessions w !! ref = Some s /\ sessions w' = <[ref := s']> (sessions w) /\
      session_trans a ref s s') /\
   (streams w' = streams w \/
    exists k g pc',
      streams w !! k = Some g /\
      streams w' = <[k := Generator (g_meta g) pc']> (streams w))).
Proof.
  intros H. pose proof (request_step_inv _ _ _ _ H) as Hr.
  pose proof (thread_step_inv _ _ _ _ H) as Ht. destruct a; cbn [step] in H.
  - destruct Hr as [[-> [-> | ->]] | (p & cmd & Hp & -> & ->)];
      [right; right; auto | right; right; auto|].
    apply Popen_new in Hp as ->. left. eauto 10.
  - destruct Hr as [[-> ->] | (ref & Hid & -> & ->)]; [right; right; auto|].
    right. left. eauto 10.
  - destruct Hr as [-> [-> | [ref [-> | ->]]]]; right; right; auto.
  - destruct Hr as [[-> ->] | (ref & _ & -> & ->)]; right; right; auto.
  - destruct Hr as (hs & -> & [-> | [r ->]]); right; right; auto.
  - apply stream_get_inv in H
      as (g & s & Hg & _ & Hs & Hst & Hsc & [(_ & Hss & ->) | (l & r & Hq & Hss & ->)]);
      right; right; (split; [exact Hsc|]); (split; [reflexivity|]).
    + split; [auto|]. right. eauto.
    + split; right; [|eauto]. do 3 eexists. split; [exact Hs|]. split; [exact Hss|].
      eapply trans_take, Hq.
  - apply stream_snapshot_inv in H as (g & s & Hg & _ & _ & Hst & Hsc & Hss & ->).
    right. right. split; [exact Hsc|]. split; [reflexivity|]. split; [auto|]. right. eauto.
  - apply stream_yield_inv in H as (g & d & p & t & Hg & _ & Hst & Hsc & Hss & ->).
    right. right. split; [exact Hsc|]. split; [reflexivity|]. split; [auto|]. right. eauto.
  - apply stream_check_inv in H
      as (g & s & d & Hg & _ & _ & Hsc & Hss & [(_ & _ & Hst & ->) | (_ & Hst & ->)]);
      right; right; (split; [exact Hsc|]); (split; [reflexivity|]); (split; [auto|]);
      right; eauto.
  - destruct Ht as (s & s' & Hs & Htr & -> & ->). right. right.
    split; [reflexivity|]. split; [destruct (nonempty line); reflexivity|].
    split; [right; eauto 10 | auto].
  - destruct Ht as (s & s' & Hs & Htr & -> & ->). right. right.
    split; [reflexivity|]. split; [reflexivity|]. split; [right; eauto 10 | auto].
  - destruct Ht as (s & s' & Hs & Htr & -> & ->). right. right.
    split; [reflexivity|]. split; [destruct (nonempty line); reflexivity|].
    split; [right; eauto 10 | auto].
  - destruct Ht as (s & s' & Hs & Htr & -> & ->). right. right.
    split; [reflexivity|]. split; [reflexivity|]. split; [right; eauto 10 | auto].
Qed.

Lemma step_refs_valid w a w' o :
  refs_valid w -> step w a = Some (w', o) -> refs_valid w'.
Proof.
  intros [Hsc Hst] H.
  destruct (step_effect _ _ _ _ H)
    as [(id & cmd & E1 & E2 & E3 & _) | [(id & ref & Hid & E1 & E2 & E3 & _) |
        (E1 & _ & E2 & E3)]].
  - split.
    + intros id' ref Hid. rewrite E1 in Hid. rewrite E2, length_app. simpl.
      destruct (decide (id = id')) as [->|Hne].
      * rewrite lookup_insert_eq in Hid. injection Hid as <-. lia.
      * rewrite lookup_insert_ne in Hid by exact Hne. specialize (Hsc _ _ Hid). lia.
    + intros k g Hg. rewrite E3 in Hg. rewrite E2, length_app.
      specialize (Hst _ _ Hg). lia.
  - split.
    + intros id' r Hid'. rewrite E1 in Hid'. rewrite E2. eauto.
    + intros k g Hg. rewrite E3 in Hg. rewrite E2.
      apply lookup_app_Some in Hg as [Hg | [_ Hg]]; [eauto|].
      apply list_lookup_singleton_Some in Hg as [_ <-]. cbn [g_meta]. eauto.
  - assert (Hlen : length (sessions w') = length (sessions w)).
    { destruct E2 as [-> | (r & s & s' & _ & -> & _)]; [reflexivity | apply length_insert]. }
    split.
    + intros id ref Hid. rewrite E1 in Hid. rewrite Hlen. eauto.
    + intros k g Hg. rewrite Hlen. destruct E3 as [E3 | (k0 & g0 & pc' & Hg0 & E3)];
        rewrite E3 in Hg; [eauto|].
      destruct (decide (k0 = k)) as [->|Hne].
      * rewrite list_lookup_insert_eq in Hg by (eapply lookup_lt_Some, Hg0).
        injection Hg as <-. cbn [g_meta]. eauto.
      * rewrite list_lookup_insert_ne in Hg by exact Hne. eauto.
Qed.

Lemma run_refs_valid acts w tr : run init acts = Some (w, tr) -> refs_valid w.
Proof.
  apply (run_invariant refs_valid step_refs_valid acts init w tr).
  split; [intros id ref H | intros k g H]; cbn in H.
  - rewrite lookup_empty in H. discriminate.
  - discriminate.
Qed.

Lemma p_cmd_kept a ref s s' :
  session_trans a ref s s' -> p_cmd (proc (s_meta s')) = p_cmd (proc (s_meta s)).
Proof.
  destruct 1; fields; try reflexivity.
  destruct (enqueue_output_line_fields (s_meta s) line) as (_ & -> & _). reflexivity.
Qed.

Lemma spawned_app tr1 tr2 : spawned (tr1 ++ tr2) = spawned tr1 ++ spawned tr2.
Proof. apply flat_map_app. Qed.

Lemma step_spawned w a w' o :
  step w a = Some (w', o) ->
  (exists cmd,
      spawned o = [(length (sessions w), cmd)] /\
      sessions w' =
        sessions w ++
        [Session (Meta (Process cmd false false false) [] 0 0 false) OutReading ErrReading]) \/
  (spawned o = [] /\ length (sessions w') = length (sessions w) /\
   map (fun s => p_cmd (proc (s_meta s))) (sessions w') =
     map (fun s => p_cmd (proc (s_meta s))) (sessions w)).
Proof.
  intros H.
  destruct (step_effect _ _ _ _ H)
    as [(id & cmd & _ & E2 & _ & ->) | [(id & ref & _ & _ & E2 & _ & ->) |
        (_ & Hsp & E2 & _)]].
  - left. eauto.
  - right. rewrite E2. auto.
  - right. split; [exact Hsp|].
    destruct E2 as [-> | (r & s & s' & Hs & -> & Htr)]; [auto|].
    split; [apply length_insert|].
    rewrite list_fmap_insert. apply list_insert_id.
    rewrite list_lookup_fmap, Hs. simpl. f_equal. symmetry. eapply p_cmd_kept, Htr.
Qed.

Lemma run_spawned acts w w' tr :
  run w acts = Some (w', tr) ->
  map fst (spawned tr) = seq (length (sessions w)) (length (spawned tr)) /\
  map (fun s => p_cmd (proc (s_meta s))) (sessions w') =
    map (fun s => p_cmd (proc (s_meta s))) (sessions w) ++ map snd (spawned tr).
Proof.
  revert w tr. induction acts as [|a acts IH]; intros w tr Hrun.
  - injection Hrun as <- <-. simpl. rewrite app_nil_r. auto.
  - apply run_cons_inv in Hrun as (w1 & o1 & o2 & Hstep & Hr & ->).
    destruct (IH _ _ Hr) as [IH1 IH2].
    rewrite spawned_app, !map_app, length_app, IH1, IH2.
    destruct (step_spawned _ _ _ _ Hstep) as [(cmd & -> & ->) | (-> & Hlen & ->)].
    + rewrite length_app, map_app. simpl. rewrite <- app_assoc.
      replace (length (sessions w) + 1) with (S (length (sessions w))) by lia. auto.
    + rewrite Hlen. auto.
Qed.

(** X3. The store is the list of the children spawned: after every run it
    holds one session for each child [Popen] has given, in the order they
    were spawned, the n-th at reference n, and each session still holds the
    argument list its child was started with. No session is ever removed
    or replaced. *)
Theorem spawned_sessions (acts : list action) (w : world) (tr : list obs) :
  run init acts = Some (w, tr) ->
  map fst (spawned tr) = seq 0 (length (sessions w)) /\
  map (fun s => p_cmd (proc (s_meta s))) (sessions w) = map snd (spawned tr) /\
  (forall acts' w' tr' ref s,
      run w acts' = Some (w', tr') -> sessions w !! ref = Some s ->
      exists s', sessions w' !! ref = Some s' /\
                 p_cmd (proc (s_meta s')) = p_cmd (proc (s_meta s))).
Proof.
  intros Hrun. destruct (run_spawned _ _ _ _ Hrun) as [H1 H2]. cbn in H1, H2.
  assert (Hlen : length (spawned tr) = length (sessions w)).
  { apply (f_equal (@length _)) in H2. rewrite !length_map in H2. congruence. }
  split; [rewrite H1, Hlen; reflexivity|]. split; [exact H2|].
  intros acts' w' tr' ref s Hrun' Hs. destruct (run_spawned _ _ _ _ Hrun') as [_ H3].
  apply (f_equal (fun l => l !! ref)) in H3.
  rewrite list_lookup_fmap, lookup_app_l in H3
    by (rewrite length_map; eapply lookup_lt_Some, Hs).
  rewrite list_lookup_fmap, Hs in H3. simpl in H3.
  destruct (sessions w' !! ref) as [s'|]; [|discriminate].
  exists s'. split; [reflexivity|]. simpl in H3. congruence.
Qed.


(** ** What the pumps read *)

Lemma lines_read_app ref acts1 acts2 :
  lines_read ref (acts1 ++ acts2) = lines_read ref acts1 ++ lines_read ref acts2.
Proof. apply flat_map_app. Qed.

Lemma stdout_lines_app ref acts1 acts2 :
  stdout_lines ref (acts1 ++ acts2) = stdout_lines ref acts1 ++ stdout_lines ref acts2.
Proof. apply flat_map_app. Qed.

Lemma step_lines_put w a w' o ref :
  step w a = Some (w', o) -> lines_put ref o = lines_read ref [a].
Proof.
  intros H. pose proof (request_step_inv _ _ _ _ H) as Hr.
  pose proof (thread_step_inv _ _ _ _ H) as Ht.
  unfold lines_read. destruct a; cbn [step flat_map app] in *.
  - destruct Hr as [[_ [-> | ->]] | (p & cmd & _ & _ & ->)]; reflexivity.
  - destruct Hr as [[_ ->] | (r & _ & _ & ->)]; reflexivity.
  - destruct Hr as [_ [-> | [r [-> | ->]]]]; reflexivity.
  - destruct Hr as [[_ ->] | (r & _ & _ & ->)]; reflexivity.
  - destruct Hr as (hs & _ & [-> | [r ->]]); reflexivity.
  - apply stream_get_inv in H
      as (g & s & _ & _ & _ & _ & _ & [(_ & _ & ->) | (l & r & _ & _ & ->)]); reflexivity.
  - apply stream_snapshot_inv in H as (g & s & _ & _ & _ & _ & _ & _ & ->). reflexivity.
  - apply stream_yield_inv in H as (g & d & p & t & _ & _ & _ & _ & _ & ->). reflexivity.
  - apply stream_check_inv in H
      as (g & s & d & _ & _ & _ & _ & _ & [(_ & _ & _ & ->) | (_ & _ & ->)]); reflexivity.
  - destruct Ht as (s & s' & _ & _ & _ & ->). unfold lines_put.
    destruct (nonempty line); simpl; destruct (decide (ref0 = ref)); reflexivity.
  - destruct Ht as (s & s' & _ & _ & _ & ->). reflexivity.
  - destruct Ht as (s & s' & _ & _ & _ & ->). unfold lines_put.
    destruct (nonempty line); simpl; destruct (decide (ref0 = ref)); reflexivity.
  - destruct Ht as (s & s' & _ & _ & _ & ->). reflexivity.
Qed.

Lemma run_lines_put acts w w' tr ref :
  run w acts = Some (w', tr) -> lines_put ref tr = lines_read ref acts.
Proof.
  revert w tr. induction acts as [|a acts IH]; intros w tr Hrun.
  - injection Hrun as _ <-. reflexivity.
  - apply run_cons_inv in Hrun as (w1 & o1 & o2 & Hstep & Hr & ->).
    rewrite lines_put_app, (step_lines_put _ _ _ _ ref Hstep), (IH _ _ Hr).
    change (a :: acts) with ([a] ++ acts). rewrite lines_read_app. reflexivity.
Qed.

(** X4. Every non-empty line a pump thread reads, from stdout or from
    stderr, is sanitized and put on the queue of its session once, in the
    order the lines were read; nothing else is ever put, and the end of a
    stream puts nothing. So what the two pumps of a session have read is
    what its generators have taken followed by what still waits. *)
Theorem lines_enqueued (acts : list action) (w : world) (tr : list obs) (ref : nat) :
  run init acts = Some (w, tr) ->
  lines_put ref tr = lines_read ref acts /\
  lines_read ref acts = lines_taken w ref tr ++ queue_of w ref.
Proof.
  intros Hrun. pose proof (run_lines_put _ _ _ _ ref Hrun) as Hput.
  split; [exact Hput|]. destruct (run_queue _ _ _ _ ref Hrun) as [Hq _].
  rewrite <- Hput. exact Hq.
Qed.

Lemma session_trans_pair a ref s s' :
  session_trans a ref s s' ->
  (progress (s_meta s'), total (s_meta s')) =
    match a with
    | OutRead _ line =>
        if nonempty line then
          default (progress (s_meta s), total (s_meta s))
                  (parse_progress (clean_line line))
        else (progress (s_meta s), total (s_meta s))
    | _ => (progress (s_meta s), total (s_meta s))
    end.
Proof.
  destruct 1 as [k ref s line rest Hq | ref line s Ho Hl | ref line s Ho Hl | ref s Ho He
                | ref line s He Hl | ref line s He Hl | ref s He]; fields;
    rewrite ?Hl; try reflexivity.
  unfold enqueue_output_line.
  destruct (parse_progress (clean_line line)) as [[c t]|]; reflexivity.
Qed.

Lemma step_pair_quiet w a w' o ref :
  step w a = Some (w', o) ->
  (forall r line, a <> OutRead r line) ->
  pair_of w' ref = pair_of w ref.
Proof.
  intros H Hno. unfold pair_of.
  destruct (sessions w' !! ref) as [s'|] eqn:Hs'.
  - pose proof (step_session_at _ _ _ _ _ _ H Hs') as Hat.
    destruct (sessions w !! ref) as [s|] eqn:Hs.
    + destruct Hat as [-> | Ht]; [reflexivity|].
      rewrite (session_trans_pair _ _ _ _ Ht).
      destruct a; try reflexivity. destruct (Hno ref0 line eq_refl).
    + destruct Hat as [cmd ->]. reflexivity.
  - destruct (sessions w !! ref) as [s|] eqn:Hs; [|reflexivity].
    destruct (step_session_kept _ _ _ _ _ _ H Hs) as [? ?]. congruence.
Qed.

Lemma step_pair w a w' o ref :
  step w a = Some (w', o) ->
  pair_of w' ref = latest_progress (pair_of w ref) (stdout_lines ref [a]).
Proof.
  intros H.
  assert (Hq : (forall r line, a <> OutRead r line) ->
               stdout_lines ref [a] = [] ->
               pair_of w' ref = latest_progress (pair_of w ref) (stdout_lines ref [a])).
  { intros Hno ->. apply (step_pair_quiet _ _ _ _ _ H Hno). }
  destruct a; try (apply Hq; [intros ? ? [=] | reflexivity]).
  destruct (thread_step_inv _ _ _ _ H) as (s0 & s1 & Hs0 & Htr & -> & _).
  unfold pair_of. cbn [stdout_lines flat_map app sessions with_session with_sessions].
  destruct (decide (ref0 = ref)) as [->|Hne].
  - rewrite Hs0, list_lookup_insert_eq by (eapply lookup_lt_Some, Hs0).
    rewrite (session_trans_pair _ _ _ _ Htr). destruct (nonempty line); reflexivity.
  - rewrite list_lookup_insert_ne by exact Hne. reflexivity.
Qed.

Lemma run_pair acts w w' tr ref :
  run w acts = Some (w', tr) ->
  pair_of w' ref = latest_progress (pair_of w ref) (stdout_lines ref acts).
Proof.
  revert w tr. induction acts as [|a acts IH]; intros w tr Hrun.
  - injection Hrun as <- _. reflexivity.
  - apply run_cons_inv in Hrun as (w1 & o1 & o2 & Hstep & Hr & _).
    rewrite (IH _ _ Hr), (step_pair _ _ _ _ ref Hstep).
    change (a :: acts) with ([a] ++ acts). rewrite stdout_lines_app.
    unfold latest_progress. rewrite fold_left_app. reflexivity.
Qed.

(** X5. The progress a session shows is that of the last progress line of
    its child's stdout: after every run the pair [(progress, total)] is the
    pair parsed from the last line read from stdout that gave one, and
    [(0, 0)] while none has. Lines of stderr never count, whatever they
    hold, nor do lines without the pattern; the locked read of a generator
    of the session reads that pair. *)
Theorem progress_is_latest (acts : list action) (w : world) (tr : list obs) (ref : nat) :
  run init acts = Some (w, tr) ->
  pair_of w ref = latest_progress (0, 0)%Z (stdout_lines ref acts) /\
  (forall k g w' o,
      streams w !! k = Some g -> g_meta g = ref ->
      step w (StreamSnapshot k) = Some (w', o) ->
      exists d,
        streams w' !! k =
          Some (Generator ref
                  (AtProgress d
                     (fst (latest_progress (0, 0)%Z (stdout_lines ref acts)))
                     (snd (latest_progress (0, 0)%Z (stdout_lines ref acts)))))).
Proof.
  intros Hrun. pose proof (run_pair _ _ _ _ ref Hrun) as Hp.
  change (pair_of init ref) with (0, 0)%Z in Hp. split; [exact Hp|].
  intros k g w' o Hg Href Hstep. cbn [step] in Hstep.
  apply stream_snapshot_inv in Hstep as (g' & s & Hg' & _ & Hs & Hst & _).
  rewrite Hg in Hg'. injection Hg' as <-. rewrite Href in Hs, Hst.
  rewrite <- Hp. unfold pair_of. rewrite Hs. cbn [fst snd]. exists (done (s_meta s)).
  rewrite Hst. apply list_lookup_insert_eq. eapply lookup_lt_Some, Hg.
Qed.

(** ** The progress event and [status] *)









(** ** Completion *)

Lemma step_finished_are_done w a w' o :
  refs_valid w -> finished_are_done w -> step w a = Some (w', o) ->
  finished_are_done w'.
Proof.
  intros [_ Hval] Hinv H k g' s' Hg' Hs' Hpc.
  pose proof (step_stream_at _ _ _ _ k H) as Hat.
  destruct (streams w !! k) as [g|] eqn:Hg.
  - destruct Hat as (pc' & Hk & Hmove). rewrite Hg' in Hk. injection Hk as ->.
    cbn [g_meta g_pc] in *.
    destruct (lookup_lt_is_Some_2 _ _ (Hval _ _ Hg)) as [s Hs].
    pose proof (step_session_at _ _ _ _ _ _ H Hs') as Hsat. rewrite Hs in Hsat.
    assert (Hmono : done (s_meta s) = true -> done (s_meta s') = true).
    { destruct Hsat as [-> | Ht]; [auto | apply (session_trans_done _ _ _ _ Ht)]. }
    apply Hmono. destruct Hmove as [[-> _] | Ht].
    + eapply Hinv; eauto.
    + destruct Ht as [s0 Hp Hs0 Hq | s0 line rest Hp Hs0 Hq | s0 Hp Hs0 | d p t Hp
                     | s0 Hp Hs0 Hq | s0 d Hp Hs0 Hd];
        try (destruct Hpc as [(? & ? & [=]) | [[=] | [=]]]; fail).
      * rewrite Hs in Hs0. injection Hs0 as <-.
        destruct Hpc as [(? & ? & [= E _ _]) | [[=] | [=]]]. exact E.
      * destruct Hpc as [(? & ? & [=]) | [[= ->] | [=]]]. eapply Hinv; eauto.
      * eapply Hinv; eauto.
  - destruct Hat as [_ [Hn | [ref Hn]]]; rewrite Hg' in Hn; [discriminate|].
    injection Hn as ->. destruct Hpc as [(? & ? & [=]) | [[=] | [=]]].
Qed.

Lemma run_finished_are_done acts w tr :
  run init acts = Some (w, tr) -> finished_are_done w.
Proof.
  intros Hrun.
  assert (Hstep : forall w0 a w1 o,
             refs_valid w0 /\ finished_are_done w0 -> step w0 a = Some (w1, o) ->
             refs_valid w1 /\ finished_are_done w1).
  { intros w0 a w1 o [Hv Hf] Hstep.
    split; [eapply step_refs_valid | eapply step_finished_are_done]; eauto. }
  apply (run_invariant _ Hstep acts init w tr); [|exact Hrun].
  split; [apply (run_refs_valid [] init []); reflexivity|].
  intros k g s H. discriminate.
Qed.

(** X6. [complete] is never sent for a scan that still runs: in every run, a
    generator that has yielded [complete], or has finished, belongs to a
    session whose [done] is set, so the thread of [_enqueue_output] has
    read the child's stdout to its end, closed it and found the child
    terminated. *)
Theorem complete_only_when_done
  (acts : list action) (w : world) (tr : list obs) (k : nat) (g : generator) :
  run init acts = Some (w, tr) ->
  streams w !! k = Some g ->
  In Complete (yields k tr) \/ g_pc g = Closed ->
  exists s,
    sessions w !! g_meta g = Some s /\ done (s_meta s) = true /\
    s_out s = OutReturned /\ p_stdout_closed (proc (s_meta s)) = true /\
    p_exited (proc (s_meta s)) = true.
Proof.
  intros Hrun Hg Hc.
  assert (Hpc : g_pc g = Closed).
  { destruct Hc as [Hin | E]; [|exact E].
    pose proof (run_init_shaped _ _ _ Hrun k) as Hsh. rewrite Hg in Hsh.
    apply (shape_complete _ _ Hsh), Hin. }
  destruct (run_refs_valid _ _ _ Hrun) as [_ Hval].
  destruct (lookup_lt_is_Some_2 _ _ (Hval _ _ Hg)) as [s Hs].
  pose proof (run_finished_are_done _ _ _ Hrun k g s Hg Hs (or_intror (or_intror Hpc)))
    as Hd.
  assert (Hok : Forall session_ok (sessions w)).
  { apply (run_invariant (fun w => Forall session_ok (sessions w)) step_sessions_ok
             acts init w tr); [constructor | exact Hrun]. }
  pose proof (Forall_lookup_1 _ _ _ _ Hok Hs) as Hs_ok. unfold session_ok in Hs_ok.
  exists s. split; [exact Hs|]. split; [exact Hd|].
  destruct (s_out s); intuition congruence.
Qed.

(** ** Who writes what *)

Lemma step_works_on w a w' o ref s :
  step w a = Some (w', o) -> sessions w !! ref = Some s ->
  works_on w a <> Some ref -> sessions w' !! ref = Some s.
Proof.
  intros H Hs Hw. pose proof (thread_step_inv _ _ _ _ H) as Ht.
  assert (Hins : forall r s1, w' = with_session w r s1 -> r <> ref ->
                              sessions w' !! ref = Some s).
  { intros r s1 -> Hne. cbn [sessions with_session with_sessions].
    rewrite list_lookup_insert_ne by exact Hne. exact Hs. }
  destruct a; cbn [works_on] in Hw.
  - destruct (step_effect _ _ _ _ H)
      as [(id & cmd & _ & -> & _) | [(id & r & _ & _ & -> & _) | (_ & _ & [-> | E] & _)]];
      [apply lookup_app_l_Some, Hs | exact Hs | exact Hs |].
    destruct E as (r & s0 & s1 & _ & _ & Htr). inversion Htr.
  - destruct (request_step_inv _ _ _ _ H) as [[-> _] | (r & _ & -> & _)]; exact Hs.
  - destruct (request_step_inv _ _ _ _ H) as [-> _]. exact Hs.
  - destruct (request_step_inv _ _ _ _ H) as [[-> _] | (r & _ & -> & _)]; exact Hs.
  - destruct (request_step_inv _ _ _ _ H) as (hs & -> & _). exact Hs.
  - cbn [step] in H. apply stream_get_inv in H
      as (g & s0 & Hg & _ & Hs0 & _ & _ & [(_ & -> & _) | (l & r & _ & -> & _)]);
      [exact Hs|].
    rewrite Hg in Hw. cbn in Hw. rewrite list_lookup_insert_ne; [exact Hs | congruence].
  - cbn [step] in H. apply stream_snapshot_inv in H as (g & s0 & _ & _ & _ & _ & _ & -> & _).
    exact Hs.
  - cbn [step] in H. apply stream_yield_inv in H as (g & d & p & t & _ & _ & _ & _ & -> & _).
    exact Hs.
  - cbn [step] in H. apply stream_check_inv in H as (g & s0 & d & _ & _ & _ & _ & -> & _).
    exact Hs.
  - destruct Ht as (s0 & s1 & _ & _ & E & _). apply (Hins _ _ E). congruence.
  - destruct Ht as (s0 & s1 & _ & _ & E & _). apply (Hins _ _ E). congruence.
  - destruct Ht as (s0 & s1 & _ & _ & E & _). apply (Hins _ _ E). congruence.
  - destruct Ht as (s0 & s1 & _ & _ & E & _). apply (Hins _ _ E). congruence.
Qed.

(** X7. The side effects of a step stay in one session. A handler writes no
    session that exists; a step of a pump thread, the exit of a child and
    the generator that takes a line leave every session but their own as it
    is. On its own session a generator changes nothing but the queue, of
    which it takes the oldest line, and the thread of [_enqueue_err] changes
    neither [progress], [total] nor [done]. *)
Theorem session_isolation
  (w : world) (a : action) (w' : world) (o : list obs) (ref : nat) (s : session) :
  step w a = Some (w', o) ->
  sessions w !! ref = Some s ->
  (works_on w a <> Some ref -> sessions w' !! ref = Some s) /\
  (forall s', sessions w' !! ref = Some s' ->
     (forall k, a = StreamGet k ->
        s' = s \/ exists line, queue (s_meta s) = line :: queue (s_meta s') /\
                     s' = Session (set_queue (s_meta s) (queue (s_meta s'))) (s_out s) (s_err s)) /\
     (forall r line, a = ErrRead r line ->
        progress (s_meta s') = progress (s_meta s) /\ total (s_meta s') = total (s_meta s) /\
        done (s_meta s') = done (s_meta s) /\ s_out s' = s_out s)).
Proof.
  intros H Hs. split; [apply (step_works_on _ _ _ _ _ _ H Hs)|].
  intros s' Hs'. pose proof (step_session_at _ _ _ _ _ _ H Hs') as Hat. rewrite Hs in Hat.
  split.
  - intros k ->. destruct Hat as [-> | Ht]; [auto|]. right.
    inversion Ht as [? ? ? line rest Hq| | | | | |]; subst. exists line. fields. auto.
  - intros r line ->. destruct Hat as [-> | Ht]; [auto|].
    inversion Ht; subst; fields; auto.
Qed.


(** ** After the pumps *)

Lemma session_trans_pumps_ended a ref s s' :
  session_trans a ref s s' -> pumps_ended s ->
  pumps_ended s' /\ (forall r line, a <> OutRead r line /\ a <> ErrRead r line).
Proof.
  unfold pumps_ended.
  destruct 1 as [k ref s line rest Hq | ref line s Ho Hl | ref line s Ho Hl | ref s Ho He
                | ref line s He Hl | ref line s He Hl | ref s He];
    cbn [s_out s_err]; intros [H1 H2]; try congruence;
    (split; [split; [congruence | assumption] | intros r l; split; discriminate]).
Qed.

Lemma step_pumps_ended w a w' o ref s :
  step w a = Some (w', o) -> sessions w !! ref = Some s -> pumps_ended s ->
  lines_put ref o = [] /\ exists s', sessions w' !! ref = Some s' /\ pumps_ended s'.
Proof.
  intros H Hs He. destruct (step_session_kept _ _ _ _ _ _ H Hs) as [s' Hs'].
  pose proof (step_session_at _ _ _ _ _ _ H Hs') as Hat. rewrite Hs in Hat.
  rewrite (step_lines_put _ _ _ _ ref H).
  assert (Hread : forall r line, a = OutRead r line \/ a = ErrRead r line -> r = ref ->
                                 False).
  { intros r line Ha ->. pose proof (thread_step_inv _ _ _ _ H) as Ht.
    destruct Ha as [-> | ->]; destruct Ht as (s0 & s1 & Hs0 & Htr & _);
      rewrite Hs in Hs0; injection Hs0 as <-;
      destruct (session_trans_pumps_ended _ _ _ _ Htr He) as [_ Hno];
      destruct (Hno ref line) as [? ?]; congruence. }
  split.
  - unfold lines_read. destruct a; try reflexivity; cbn [flat_map app];
      (destruct (decide (ref0 = ref)) as [E|]; [|reflexivity]);
      exfalso; eapply Hread; eauto.
  - exists s'. split; [exact Hs'|]. destruct Hat as [-> | Ht]; [exact He|].
    apply (session_trans_pumps_ended _ _ _ _ Ht He).
Qed.

(** X8. Once both pump threads of a session have left their loops, nothing
    is put on its queue any more: in every run from such a world no line is
    put for that session, the threads stay where they are, and the queue
    only loses, from its front, the lines the generators take. *)
Theorem quiet_after_pumps
  (w : world) (acts : list action) (w' : world) (tr : list obs) (ref : nat) (s : session) :
  sessions w !! ref = Some s -> pumps_ended s ->
  run w acts = Some (w', tr) ->
  lines_put ref tr = [] /\
  (exists s', sessions w' !! ref = Some s' /\ pumps_ended s') /\
  queue (s_meta s) = lines_taken w' ref tr ++ queue_of w' ref.
Proof.
  intros Hs He Hrun.
  assert (H : lines_put ref tr = [] /\
              exists s', sessions w' !! ref = Some s' /\ pumps_ended s').
  { revert w s tr Hs He Hrun. induction acts as [|a acts IH]; intros w s tr Hs He Hrun.
    - injection Hrun as <- <-. eauto.
    - apply run_cons_inv in Hrun as (w1 & o1 & o2 & Hstep & Hr & ->).
      destruct (step_pumps_ended _ _ _ _ _ _ Hstep Hs He) as (Hp1 & s1 & Hs1 & He1).
      destruct (IH _ _ _ Hs1 He1 Hr) as [Hp2 Hex].
      rewrite lines_put_app, Hp1, Hp2. auto. }
  destruct H as [Hput Hex]. split; [exact Hput|]. split; [exact Hex|].
  destruct (run_queue _ _ _ _ ref Hrun) as [Hq _].
  rewrite Hput, app_nil_r in Hq. unfold queue_of in Hq at 1. rewrite Hs in Hq. exact Hq.
Qed.

(** ** The numbers *)

Lemma digit_value_nonneg c : is_digit c = true -> (0 <= digit_value c)%Z.
Proof.
  destruct c as [[] [] [] [] [] [] [] []]; vm_compute; intros; congruence.
Qed.

Lemma decimal_nonneg d : forallb is_digit d = true -> (0 <= decimal d)%Z.
Proof.
  unfold decimal.
  assert (H : forall acc, (0 <= acc)%Z -> forallb is_digit d = true ->
                (0 <= fold_left (fun a c => 10 * a + digit_value c) d acc)%Z).
  { induction d as [|c d IH]; intros acc Hacc Hd; simpl in *; [exact Hacc|].
    apply andb_true_iff in Hd as [Hc Hd]. apply IH; [|exact Hd].
    pose proof (digit_value_nonneg c Hc). lia. }
  apply H. lia.
Qed.

Lemma numeral_digits d : Decimal.nb_digits (numeral d) = length d.
Proof.
  induction d as [|c d IH]; [reflexivity|].
  cbn [numeral length]. rewrite <- IH.
  destruct c as [[] [] [] [] [] [] [] []]; reflexivity.
Qed.

Lemma numeral_acc d : forall p,
  forallb is_digit d = true ->
  Zpos (Pos.of_uint_acc (numeral d) p) =
    fold_left (fun acc c => 10 * acc + digit_value c)%Z d (Zpos p).
Proof.
  induction d as [|c d IH]; intros p H; [reflexivity|].
  cbn [forallb] in H. apply andb_true_iff in H as [Hc Hd].
  cbn [fold_left numeral].
  destruct c as [[] [] [] [] [] [] [] []]; try (vm_compute in Hc; discriminate Hc);
    cbn [Pos.of_uint_acc]; rewrite (IH _ Hd); f_equal;
    match goal with |- context [digit_value ?c] =>
      let v := eval vm_compute in (digit_value c) in change (digit_value c) with v end;
    lia.
Qed.

Lemma numeral_value d :
  forallb is_digit d = true -> Z.of_N (Pos.of_uint (numeral d)) = decimal d.
Proof.
  unfold decimal. induction d as [|c d IH]; intros H; [reflexivity|].
  cbn [forallb] in H. apply andb_true_iff in H as [Hc Hd].
  cbn [fold_left numeral].
  destruct c as [[] [] [] [] [] [] [] []]; try (vm_compute in Hc; discriminate Hc);
    cbn [Pos.of_uint];
    first [ exact (IH Hd) | cbn [Z.of_N]; rewrite (numeral_acc _ _ Hd); reflexivity ].
Qed.

(** [str] of the value of a run of digits has no more digits than the
    run. *)
Lemma decimal_digits d :
  digits d -> (int_digits_of (Z.to_int (decimal d)) <= length d)%nat.
Proof.
  intros [Hne Hd]. rewrite <- (numeral_value d Hd).
  change (Z.of_N (Pos.of_uint (numeral d))) with (Z.of_int (Decimal.Pos (numeral d))).
  rewrite DecimalZ.to_of. cbn [Decimal.norm int_digits_of].
  rewrite <- numeral_digits. apply DecimalFacts.nb_digits_unorm.
  destruct d as [|c d]; [congruence|].
  cbn [numeral]. destruct c as [[] [] [] [] [] [] [] []]; discriminate.
Qed.

Lemma printable_zero : printable 0.
Proof.
  split; [lia|]. unfold py_str. cbn [Z.to_int int_digits_of Decimal.nb_digits].
  destruct int_max_str_digits as [|n]; cbn; eauto.
Qed.

Lemma printable_decimal d :
  digits d -> within_limit d = true -> printable (decimal d).
Proof.
  intros Hd Hl. split; [apply decimal_nonneg, Hd|].
  unfold py_str. pose proof (decimal_digits d Hd) as Hn.
  unfold within_limit in Hl.
  destruct (int_max_str_digits =? 0)%nat; [cbn; eauto|].
  cbn [orb] in *. apply Nat.leb_le in Hl.
  destruct (Nat.leb_spec (int_digits_of (Z.to_int (decimal d))) int_max_str_digits);
    [eauto | lia].
Qed.

Lemma parse_progress_printable clean cur tot :
  parse_progress clean = Some (cur, tot) -> printable cur /\ printable tot.
Proof.
  unfold parse_progress.
  destruct (re_search deploying clean) as [[[pre ps] post]|] eqn:Hs; [|discriminate].
  apply re_search_deploying in Hs as (ws & d1 & d2 & -> & [(_ & _ & Hd1 & Hd2 & _) _]).
  change (group1 (deploying_pieces ws d1 d2)) with d1.
  change (group2 (deploying_pieces ws d1 d2)) with d2.
  rewrite (py_int_digits d1 Hd1), (py_int_digits d2 Hd2).
  destruct (within_limit d1) eqn:H1; [|discriminate].
  destruct (within_limit d2) eqn:H2; [|discriminate].
  intros [= <- <-]. split; apply printable_decimal; assumption.
Qed.

Lemma session_trans_printable a ref s s' :
  session_trans a ref s s' -> session_printable s -> session_printable s'.
Proof.
  unfold session_printable.
  destruct 1 as [k ref s line rest Hq | ref line s Ho Hl | ref line s Ho Hl | ref s Ho He
                | ref line s He Hl | ref line s He Hl | ref s He]; fields; try exact id.
  unfold enqueue_output_line.
  destruct (parse_progress (clean_line line)) as [[c t]|] eqn:Hp; fields; [|exact id].
  intros _. apply (parse_progress_printable _ _ _ Hp).
Qed.

Lemma step_printable w a w' o :
  world_printable w -> step w a = Some (w', o) -> world_printable w'.
Proof.
  intros [Hinv Hgen] H. split.
  - intros ref s' Hs'.
    pose proof (step_session_at _ _ _ _ _ _ H Hs') as Hat.
    destruct (sessions w !! ref) as [s|] eqn:Hs.
    + destruct Hat as [-> | Ht]; [eapply Hinv, Hs|].
      eapply session_trans_printable; [exact Ht | eapply Hinv, Hs].
    + destruct Hat as [cmd ->]. split; apply printable_zero.
  - intros k g' Hg'. pose proof (step_stream_at _ _ _ _ k H) as Hat.
    destruct (streams w !! k) as [g|] eqn:Hg.
    + destruct Hat as (pc' & Hk & Hmove). rewrite Hg' in Hk. injection Hk as ->.
      unfold generator_printable. cbn [g_pc].
      destruct Hmove as [[-> _] | Ht]; [apply (Hgen _ _ Hg)|].
      destruct Ht as [s0 Hp Hs0 Hq | s0 line rest Hp Hs0 Hq | s0 Hp Hs0 | d p t Hp
                     | s0 Hp Hs0 Hq | s0 d Hp Hs0 Hd]; try exact I.
      apply (Hinv _ _ Hs0).
    + destruct Hat as [_ [Hn | [ref Hn]]]; rewrite Hg' in Hn; [discriminate|].
      injection Hn as ->. exact I.
Qed.

(** The events of one step are made of what the generator holds and of the
    queue of its session. *)
Lemma step_yielded w a w' o k e :
  step w a = Some (w', o) -> In (Yielded k e) o ->
  exists g,
    streams w !! k = Some g /\
    match e with
    | Data line =>
        exists s rest, sessions w !! g_meta g = Some s /\ queue (s_meta s) = line :: rest
    | Progress p t => exists d, g_pc g = AtProgress d p t
    | Complete => True
    end.
Proof.
  intros H Hin.
  assert (Hy : In e (yields k o)).
  { unfold yields. apply in_flat_map. exists (Yielded k e). split; [exact Hin|].
    destruct (decide (k = k)); [left; reflexivity | congruence]. }
  pose proof (step_stream_at _ _ _ _ k H) as Hat.
  destruct (streams w !! k) as [g|] eqn:Hg.
  - destruct Hat as (pc' & _ & [[_ E] | Ht]); [rewrite E in Hy; destruct Hy|].
    exists g.
    destruct Ht as [s0 Hp Hs0 Hq | s0 line rest Hp Hs0 Hq | s0 Hp Hs0 | d p t Hp
                   | s0 Hp Hs0 Hq | s0 d Hp Hs0 Hd]; try (destruct Hy; fail);
      (split; [reflexivity|]); destruct Hy as [<- | []]; eauto.
  - destruct Hat as [E _]. rewrite E in Hy. destruct Hy.
Qed.

Lemma event_text_printable e :
  match e with Progress p t => printable p /\ printable t | _ => True end ->
  is_Some (event_text e).
Proof.
  destruct e as [line | p t |]; cbn [event_text]; [eauto | | eauto].
  intros [[_ [sp ->]] [_ [st ->]]]. cbn. eauto.
Qed.

Lemma run_printable acts : forall w w' tr,
  world_printable w ->
  run w acts = Some (w', tr) ->
  world_printable w' /\
  (forall k p t, In (Yielded k (Progress p t)) tr -> printable p /\ printable t).
Proof.
  induction acts as [|a acts IH]; intros w w' tr Hinv Hrun.
  - injection Hrun as <- <-. split; [exact Hinv | intros ? ? ? []].
  - apply run_cons_inv in Hrun as (w1 & o1 & o2 & Hstep & Hr & ->).
    destruct (IH _ _ _ (step_printable _ _ _ _ Hinv Hstep) Hr) as [Hs Hy].
    split; [exact Hs|]. intros k p t Hin. apply in_app_iff in Hin as [Hin | Hin].
    + destruct (step_yielded _ _ _ _ _ _ Hstep Hin) as (g & Hg & d & Hpc).
      pose proof (proj2 Hinv _ _ Hg) as Hp. unfold generator_printable in Hp.
      rewrite Hpc in Hp. exact Hp.
    + apply (Hy _ _ _ Hin).
Qed.

Lemma init_printable : world_printable init.
Proof.
  split; [intros ref s | intros k g]; cbn; rewrite lookup_nil; discriminate.
Qed.

(** X9. Formatting an event never raises. In every run from the empty
    server, the progress and the total of every session are not negative
    and [str] converts them, whatever the bound on integer string
    conversion: they are 0 or the value of a run of digits that [int]
    converted. So every progress event a generator yields carries such a
    pair, and the string of every event yielded is defined. *)
Theorem events_format (acts : list action) (w : world) (tr : list obs) :
  run init acts = Some (w, tr) ->
  (forall ref s,
      sessions w !! ref = Some s ->
      printable (progress (s_meta s)) /\ printable (total (s_meta s))) /\
  (forall k p t, In (Yielded k (Progress p t)) tr -> printable p /\ printable t) /\
  (forall k e, In (Yielded k e) tr -> is_Some (event_text e)).
Proof.
  intros Hrun.
  destruct (run_printable _ _ _ _ init_printable Hrun) as [[Hs _] Hy].
  split; [exact Hs|]. split; [exact Hy|].
  intros k e Hin. apply event_text_printable.
  destruct e as [line | p t |]; [exact I | apply (Hy _ _ _ Hin) | exact I].
Qed.


(** ** The text of the events *)

Lemma to_int_nonnil z : Z.to_int z <> Decimal.Pos Decimal.Nil /\ Z.to_int z <> Decimal.Neg Decimal.Nil.
Proof.
  destruct z as [|p|p]; cbn [Z.to_int]; split; try discriminate;
    intros [= E]; apply (DecimalPos.Unsigned.to_uint_nonnil p E).
Qed.

Lemma py_str_inj z1 z2 t : py_str z1 = Some t -> py_str z2 = Some t -> z1 = z2.
Proof.
  unfold py_str. intros H1 H2.
  destruct (_ || _); [|discriminate]. destruct (_ || _); [|discriminate].
  injection H1 as H1. injection H2 as H2. rewrite <- H2 in H1.
  apply (f_equal string_of_list_ascii) in H1.
  rewrite !string_of_list_ascii_of_string in H1.
  apply (f_equal DecimalString.NilZero.int_of_string) in H1.
  destruct (to_int_nonnil z1) as [Ha Hb]. destruct (to_int_nonnil z2) as [Hc Hd].
  rewrite !DecimalString.NilZero.isi in H1 by assumption.
  injection H1 as H1. apply DecimalZ.to_int_inj, H1.
Qed.

Lemma uint_chars u :
  forallb num_char (list_ascii_of_string (DecimalString.NilEmpty.string_of_uint u)) = true.
Proof. induction u; cbn; auto. Qed.

Lemma py_str_chars z t : py_str z = Some t -> forallb num_char t = true.
Proof.
  unfold py_str. destruct (_ || _); [|discriminate]. intros [= <-].
  destruct (Z.to_int z) as [u|u]; cbn;
    destruct u; try reflexivity; apply (uint_chars (_ u)).
Qed.


(** Drops the characters two texts start with alike. *)
Ltac peel H :=
  repeat match type of H with _ :: _ = _ :: _ => injection H as H end.

(** X10. The strings of the events can be told apart: two events with the
    same string are the same event, so a client that reads the stream
    recovers the line of a data event, the pair of a progress event and the
    end of the stream from the text alone. *)
Theorem event_text_injective (e1 e2 : event) (t : text) :
  event_text e1 = Some t -> event_text e2 = Some t -> e1 = e2.
Proof.
  intros H1 H2.
  destruct e1 as [l1 | p1 t1 |], e2 as [l2 | p2 t2 |]; cbn [event_text] in H1, H2;
    try (destruct (py_str p1) as [sp1|] eqn:Hp1; [|discriminate];
         destruct (py_str t1) as [st1|] eqn:Ht1; [|discriminate]);
    try (destruct (py_str p2) as [sp2|] eqn:Hp2; [|discriminate];
         destruct (py_str t2) as [st2|] eqn:Ht2; [|discriminate]);
    cbn [mbind option_bind] in H1, H2;
    injection H1 as H1; injection H2 as H2; rewrite <- H2 in H1; clear H2;
    try (cbn in H1; discriminate H1); try reflexivity.
  - peel H1. apply app_inv_tail in H1. congruence.
  - peel H1.
    destruct (run_unique num_char _ _ _ _ (py_str_chars _ _ Hp1) (py_str_chars _ _ Hp2) H1)
      as [-> H3]; [reflexivity | reflexivity |].
    cbn [app list_ascii_of_string] in H3. peel H3. apply app_inv_tail in H3. subst st2.
    rewrite (py_str_inj _ _ _ Hp1 Hp2), (py_str_inj _ _ _ Ht1 Ht2). reflexivity.
Qed.


(** ** One event, one frame *)

Lemma clean_line_sublist line : sublist (clean_line line) (rstrip_nl line).
Proof. apply csi_removed_sublist, sub_empty_from_removed. reflexivity. Qed.

(** The sanitizer adds no character to the body of a line. *)
Lemma clean_line_readline l c :
  readline_line l -> c = newline \/ c = CR -> ~ In c (clean_line l).
Proof.
  intros (body & Hl & Hnl & Hcr) Hc Hin.
  assert (Hb : In c body).
  { assert (Hr : rstrip_nl l = rstrip_nl body).
    { destruct Hl as [-> | ->]; [reflexivity|].
      unfold rstrip_nl. apply rstrip_chars_app_drop. reflexivity. }
    pose proof (clean_line_sublist l) as Hsub. rewrite Hr in Hsub.
    destruct (rstrip_chars_split (is_char newline) body) as (nls & Hbody & _).
    rewrite Hbody. apply in_app_iff. left.
    apply list_elem_of_In. eapply elem_of_sublist; [|exact Hsub].
    apply list_elem_of_In, Hin. }
  destruct Hc as [-> | ->]; auto.
Qed.

Lemma session_trans_queue a ref s s' x :
  session_trans a ref s s' -> In x (queue (s_meta s')) ->
  In x (queue (s_meta s)) \/
  exists r l, (a = OutRead r l \/ a = ErrRead r l) /\ x = clean_line l.
Proof.
  destruct 1 as [k ref s line rest Hq | ref line s Ho Hl | ref line s Ho Hl | ref s Ho He
                | ref line s He Hl | ref line s He Hl | ref s He]; fields; auto.
  - intros Hin. left. rewrite Hq. right. exact Hin.
  - destruct (enqueue_output_line_fields (s_meta s) line) as (_ & _ & ->).
    intros Hin. apply in_app_iff in Hin as [Hin | [<- | []]]; eauto 6.
  - intros Hin. apply in_app_iff in Hin as [Hin | [<- | []]]; eauto 6.
Qed.

Lemma step_queues_clean w a w' o :
  (forall r l, a = OutRead r l \/ a = ErrRead r l -> readline_line l) ->
  queues_clean w -> step w a = Some (w', o) -> queues_clean w'.
Proof.
  intros Hrl Hinv H ref s' x Hs' Hin.
  pose proof (step_session_at _ _ _ _ _ _ H Hs') as Hat.
  destruct (sessions w !! ref) as [s|] eqn:Hs.
  - destruct Hat as [-> | Ht]; [eapply Hinv; eauto|].
    destruct (session_trans_queue _ _ _ _ _ Ht Hin) as [Hold | (r & l & Ha & ->)].
    + eapply Hinv; eauto.
    + pose proof (Hrl _ _ Ha) as Hl.
      split; apply clean_line_readline; auto.
  - destruct Hat as [cmd ->]. destruct Hin.
Qed.

Lemma not_in_by_test (c : ascii) (l : text) :
  forallb (fun x => negb (Ascii.eqb c x)) l = true -> ~ In c l.
Proof.
  intros H Hin. rewrite forallb_forall in H. specialize (H _ Hin).
  rewrite Ascii.eqb_refl in H. discriminate.
Qed.

Lemma num_char_not_in c t :
  num_char c = false -> forallb num_char t = true -> ~ In c t.
Proof.
  intros Hc H Hin. rewrite forallb_forall in H. specialize (H _ Hin). congruence.
Qed.

(** A newline between two texts without one is no blank line. *)
Lemma no_blank_line a b pre post :
  ~ In newline a -> ~ In newline b ->
  a ++ [newline] ++ b <> pre ++ [newline; newline] ++ post.
Proof.
  revert pre. induction a as [|c a IH]; intros pre Ha Hb E.
  - destruct pre as [|c' pre]; cbn in E.
    + injection E as E. apply Hb. subst b. left. reflexivity.
    + injection E as _ E. apply Hb. subst b. apply in_app_iff. right. left. reflexivity.
  - destruct pre as [|c' pre]; cbn in E.
    + injection E as E _. apply Ha. left. exact E.
    + injection E as _ E.
      apply (IH pre); [intros Hin; apply Ha; right; exact Hin | exact Hb | exact E].
Qed.

Lemma last_not_in (c : ascii) (b : text) : ~ In c b -> last b <> Some c.
Proof.
  intros Hb E. apply last_Some_elem_of, list_elem_of_In in E. auto.
Qed.

Lemma frame_of_field b :
  b <> [] -> ~ In newline b -> ~ In CR b -> one_frame (b ++ [newline; newline]).
Proof.
  intros Hne Hnl Hcr. exists b. split; [reflexivity|]. split; [exact Hcr|].
  split; [apply last_not_in, Hnl|].
  intros pre post ->. apply Hnl. apply in_app_iff. right. left. reflexivity.
Qed.

Lemma frame_of_fields a b :
  b <> [] -> ~ In newline a -> ~ In newline b -> ~ In CR a -> ~ In CR b ->
  one_frame (a ++ [newline] ++ b ++ [newline; newline]).
Proof.
  intros Hne Ha Hb Hca Hcb. exists (a ++ [newline] ++ b).
  split; [rewrite <- !app_assoc; reflexivity|].
  split; [rewrite !in_app_iff; cbn; intros [H | [[H | []] | H]]; [auto | discriminate H | auto]|].
  split; [|intros pre post; apply no_blank_line; assumption].
  rewrite app_assoc, last_app.
  destruct (last b) as [y|] eqn:Hy.
  - intros [= ->]. apply last_Some_elem_of, list_elem_of_In in Hy. auto.
  - destruct b; [congruence|]. apply last_None in Hy. discriminate.
Qed.

Lemma not_in_parts (c : ascii) (sp st A B C : text) :
  ~ In c sp -> ~ In c st -> ~ In c A -> ~ In c B -> ~ In c C ->
  ~ In c (A ++ sp ++ B ++ st ++ C).
Proof. rewrite !in_app_iff. tauto. Qed.

Lemma event_text_frame e :
  match e with
  | Data line => ~ In newline line /\ ~ In CR line
  | Progress p t => printable p /\ printable t
  | Complete => True
  end ->
  exists t, event_text e = Some t /\ one_frame t.
Proof.
  destruct e as [line | p t |]; cbn [event_text].
  - intros [Hnl Hcr]. eexists. split; [reflexivity|].
    rewrite app_assoc. apply frame_of_field.
    + discriminate.
    + rewrite in_app_iff. intros [H | H]; [revert H; apply not_in_by_test; reflexivity | auto].
    + rewrite in_app_iff. intros [H | H]; [revert H; apply not_in_by_test; reflexivity | auto].
  - intros [[_ [sp Hp]] [_ [st Ht]]]. rewrite Hp, Ht. cbn [mbind option_bind].
    eexists. split; [reflexivity|].
    pose proof (py_str_chars _ _ Hp) as Hcp. pose proof (py_str_chars _ _ Ht) as Hct.
    assert (Hparts : forall c, num_char c = false ->
              ~ In c ("data: {" ++ [quote] ++ "progress" ++ [quote] ++ ": ") ->
              ~ In c (", " ++ [quote] ++ "total" ++ [quote] ++ ": ") ->
              ~ In c ("}" : text) ->
              ~ In c (("data: {" ++ [quote] ++ "progress" ++ [quote] ++ ": ") ++
                      sp ++ (", " ++ [quote] ++ "total" ++ [quote] ++ ": ") ++ st ++ "}")).
    { intros c Hc. apply not_in_parts;
        [apply (num_char_not_in c sp Hc Hcp) | apply (num_char_not_in c st Hc Hct)]. }
    match goal with |- one_frame ?t =>
      replace t with
        ("event: progress" ++ [newline] ++
         (("data: {" ++ [quote] ++ "progress" ++ [quote] ++ ": ") ++
          sp ++ (", " ++ [quote] ++ "total" ++ [quote] ++ ": ") ++ st ++ "}") ++
         [newline; newline])
        by (rewrite <- !app_assoc; reflexivity)
    end.
    apply frame_of_fields.
    + discriminate.
    + apply not_in_by_test. reflexivity.
    + apply Hparts; [reflexivity | | |]; apply not_in_by_test; reflexivity.
    + apply not_in_by_test. reflexivity.
    + apply Hparts; [reflexivity | | |]; apply not_in_by_test; reflexivity.
  - intros _. eexists. split; [reflexivity|].
    apply (frame_of_fields "event: complete" "data: done");
      [discriminate | | | |]; apply not_in_by_test; reflexivity.
Qed.

Lemma run_queues_clean acts : forall w w' tr,
  readline_lines acts -> queues_clean w ->
  run w acts = Some (w', tr) ->
  queues_clean w' /\
  forall k line, In (Yielded k (Data line)) tr -> ~ In newline line /\ ~ In CR line.
Proof.
  induction acts as [|a acts IH]; intros w w' tr Hrl Hinv Hrun.
  - injection Hrun as <- <-. split; [exact Hinv | intros ? ? []].
  - apply run_cons_inv in Hrun as (w1 & o1 & o2 & Hstep & Hr & ->).
    assert (Ha : forall r l, a = OutRead r l \/ a = ErrRead r l -> readline_line l).
    { intros r l [-> | ->]; apply (Hrl r l); [left | right]; left; reflexivity. }
    assert (Hrl' : readline_lines acts).
    { intros r l [H | H]; apply (Hrl r l); [left | right]; right; exact H. }
    destruct (IH _ _ _ Hrl' (step_queues_clean _ _ _ _ Ha Hinv Hstep) Hr) as [Hq Hy].
    split; [exact Hq|]. intros k line Hin. apply in_app_iff in Hin as [Hin | Hin].
    + destruct (step_yielded _ _ _ _ _ _ Hstep Hin) as (g & _ & s & rest & Hss & Hqs).
      apply (Hinv _ _ _ Hss). rewrite Hqs. left. reflexivity.
    + apply (Hy _ _ Hin).
Qed.

(** X11. One event, one frame. When every line the pump threads read is a
    line of [readline] with universal newlines (no carriage return, no
    newline but a last one), the string of every event a generator yields
    is one frame of the event stream: it ends in a blank line and holds no
    other blank line and no carriage return, whatever the child writes. *)
Theorem one_frame_per_event (acts : list action) (w : world) (tr : list obs) :
  run init acts = Some (w, tr) ->
  readline_lines acts ->
  forall k e, In (Yielded k e) tr -> exists t, event_text e = Some t /\ one_frame t.
Proof.
  intros Hrun Hrl k e Hin.
  assert (Hq : queues_clean init)
    by (intros ref s x; cbn; rewrite lookup_nil; discriminate).
  destruct (run_printable _ _ _ _ init_printable Hrun) as [_ Hy].
  destruct (run_queues_clean _ _ _ _ Hrl Hq Hrun) as [_ Hd].
  apply event_text_frame.
  destruct e as [line | p t |]; [apply (Hd _ _ Hin) | apply (Hy _ _ _ Hin) | exact I].
Qed.


(** ** Draining the queue *)

Lemma run_app acts1 : forall acts2 w w1 tr1,
  run w acts1 = Some (w1, tr1) ->
  run w (acts1 ++ acts2) =
    match run w1 acts2 with
    | Some (w2, tr2) => Some (w2, tr1 ++ tr2)
    | None => None
    end.
Proof.
  induction acts1 as [|a acts1 IH]; intros acts2 w w1 tr1 H.
  - injection H as <- <-. cbn [app]. destruct (run w acts2) as [[w2 tr2]|]; reflexivity.
  - apply run_cons_inv in H as (w0 & o1 & o2 & Hstep & Hr & ->).
    cbn [app run]. rewrite Hstep. cbn. rewrite (IH acts2 _ _ _ Hr).
    destruct (run w1 acts2) as [[w2 tr2]|]; cbn; [rewrite app_assoc|]; reflexivity.
Qed.

Lemma step_get_fwd w k ref s :
  streams w !! k = Some (Generator ref AtGet) ->
  sessions w !! ref = Some s ->
  step w (StreamGet k) =
    Some (World (scans w)
                (<[ref := Session (set_queue (s_meta s) (tail (queue (s_meta s))))
                                  (s_out s) (s_err s)]> (sessions w))
                (<[k := Generator ref AtSnapshot]> (streams w))
                (polls w),
          map (Yielded k)
              (match queue (s_meta s) with line :: _ => [Data line] | [] => [] end)).
Proof.
  intros Hg Hs. cbn [step]. unfold stream_get. rewrite Hg. cbn. rewrite Hs. cbn.
  destruct s as [[p q pr tt d] so se]. fields.
  destruct q as [|line rest]; cbn [tail map]; [|reflexivity].
  unfold with_streams, set_queue. cbn [proc progress total done]. rewrite (list_insert_id _ _ _ Hs). reflexivity.
Qed.

Lemma step_snapshot_fwd w k ref s :
  streams w !! k = Some (Generator ref AtSnapshot) ->
  sessions w !! ref = Some s ->
  step w (StreamSnapshot k) =
    Some (with_streams w
            (<[k := Generator ref
                      (AtProgress (done (s_meta s)) (progress (s_meta s)) (total (s_meta s)))]>
               (streams w)),
          []).
Proof.
  intros Hg Hs. cbn [step]. unfold stream_snapshot. rewrite Hg. cbn. rewrite Hs. reflexivity.
Qed.

Lemma step_yield_fwd w k ref d p t :
  streams w !! k = Some (Generator ref (AtProgress d p t)) ->
  step w (StreamYield k) =
    Some (with_streams w (<[k := Generator ref (AtCheck d)]> (streams w)),
          [Yielded k (Progress p t)]).
Proof.
  intros Hg. cbn [step]. unfold stream_yield. rewrite Hg. reflexivity.
Qed.

Lemma step_check_fwd w k ref s d :
  streams w !! k = Some (Generator ref (AtCheck d)) ->
  sessions w !! ref = Some s ->
  step w (StreamCheck k) =
    Some (with_streams w
            (<[k := Generator ref (if d && q_empty (s_meta s) then Closed else AtGet)]>
               (streams w)),
          map (Yielded k) (if d && q_empty (s_meta s) then [Complete] else [])).
Proof.
  intros Hg Hs. cbn [step]. unfold stream_check. rewrite Hg. cbn. rewrite Hs. cbn.
  destruct (d && q_empty (s_meta s)); reflexivity.
Qed.

(** One pass of a generator that waits at the head of its loop: it takes
    the oldest line if there is one, reads the metadata and tests for the
    end. *)
Lemma pass_run w k ref s :
  streams w !! k = Some (Generator ref AtGet) ->
  sessions w !! ref = Some s ->
  let rest := tail (queue (s_meta s)) in
  let ended := done (s_meta s) && match rest with [] => true | _ :: _ => false end in
  run w (pass k) =
    Some (World (scans w)
                (<[ref := Session (set_queue (s_meta s) rest) (s_out s) (s_err s)]> (sessions w))
                (<[k := Generator ref (if ended then Closed else AtGet)]> (streams w))
                (polls w),
          map (Yielded k)
              (match queue (s_meta s) with line :: _ => [Data line] | [] => [] end ++
               [Progress (progress (s_meta s)) (total (s_meta s))] ++
               (if ended then [Complete] else []))).
Proof.
  intros Hg Hs rest ended.
  pose proof (lookup_lt_Some _ _ _ Hg) as Hk.
  pose proof (lookup_lt_Some _ _ _ Hs) as Hr.
  set (s1 := Session (set_queue (s_meta s) rest) (s_out s) (s_err s)).
  set (w1 := World (scans w) (<[ref := s1]> (sessions w))
                   (<[k := Generator ref AtSnapshot]> (streams w)) (polls w)).
  assert (Hs1 : sessions w1 !! ref = Some s1)
    by (apply list_lookup_insert_eq; exact Hr).
  assert (Hg1 : streams w1 !! k = Some (Generator ref AtSnapshot))
    by (apply list_lookup_insert_eq; exact Hk).
  set (pc2 := AtProgress (done (s_meta s1)) (progress (s_meta s1)) (total (s_meta s1))).
  set (w2 := with_streams w1 (<[k := Generator ref pc2]> (streams w1))).
  assert (Hg2 : streams w2 !! k = Some (Generator ref pc2))
    by (apply list_lookup_insert_eq; cbn; rewrite length_insert; exact Hk).
  set (w3 := with_streams w2
               (<[k := Generator ref (AtCheck (done (s_meta s1)))]> (streams w2))).
  assert (Hs3 : sessions w3 !! ref = Some s1) by exact Hs1.
  assert (Hg3 : streams w3 !! k = Some (Generator ref (AtCheck (done (s_meta s1)))))
    by (apply list_lookup_insert_eq; cbn; rewrite !length_insert; exact Hk).
  unfold pass. cbn [run].
  rewrite (step_get_fwd _ _ _ _ Hg Hs). fold rest s1 w1. cbn [mbind option_bind].
  rewrite (step_snapshot_fwd _ _ _ _ Hg1 Hs1). fold pc2 w2. cbn [mbind option_bind].
  rewrite (step_yield_fwd _ _ _ _ _ _ Hg2). fold w3. cbn [mbind option_bind].
  rewrite (step_check_fwd _ _ _ _ _ Hg3 Hs3). cbn [mbind option_bind].
  assert (He : done (s_meta s1) && q_empty (s_meta s1) = ended) by reflexivity.
  rewrite He. unfold w3, w2, w1, with_streams. cbn [scans sessions streams polls].
  rewrite !list_insert_insert_eq, app_nil_r, !map_app. reflexivity.
Qed.

(** X12. A subscriber alone on a finished scan gets all that is left and
    ends. When [done] is set and a generator waits at the head of its loop,
    its passes, one for each line of the queue and one if the queue is
    empty, run to the end without any other step: the generator yields
    every line left in the queue, in order, each followed by a progress
    event with the final pair, then the complete event, and stops; the
    queue is left empty and nothing else of the server changes. *)
Theorem lone_subscriber_drains (w : world) (k ref : nat) (s : session) :
  streams w !! k = Some (Generator ref AtGet) ->
  sessions w !! ref = Some s ->
  done (s_meta s) = true ->
  run w (passes k (Nat.max 1 (length (queue (s_meta s))))) =
    Some (World (scans w)
                (<[ref := Session (set_queue (s_meta s) []) (s_out s) (s_err s)]> (sessions w))
                (<[k := Generator ref Closed]> (streams w))
                (polls w),
          map (Yielded k)
              (drained (queue (s_meta s)) (progress (s_meta s)) (total (s_meta s)))).
Proof.
  intros Hg Hs Hd.
  remember (queue (s_meta s)) as q eqn:Hq. revert w s Hg Hs Hd Hq.
  induction q as [|line q IH]; intros w s Hg Hs Hd Hq.
  - cbn [length Nat.max passes]. rewrite app_nil_r.
    rewrite (pass_run _ _ _ _ Hg Hs), <- Hq, Hd. reflexivity.
  - pose proof (pass_run _ _ _ _ Hg Hs) as Hp. rewrite <- Hq, Hd in Hp. cbn [tail] in Hp.
    destruct q as [|line' q].
    + cbn [length Nat.max passes]. rewrite app_nil_r. exact Hp.
    + cbn [andb] in Hp.
      change (Nat.max 1 (length (line :: line' :: q))) with (S (length (line' :: q))).
      cbn [passes]. rewrite (run_app _ _ _ _ _ Hp).
      pose proof (lookup_lt_Some _ _ _ Hg) as Hk.
      pose proof (lookup_lt_Some _ _ _ Hs) as Hr.
      match type of Hp with
      | _ = Some (?w1, _) =>
          specialize (IH w1 (Session (set_queue (s_meta s) (line' :: q)) (s_out s) (s_err s)))
      end.
      cbn [streams sessions scans] in IH.
      rewrite !list_lookup_insert_eq in IH by assumption.
      specialize (IH eq_refl eq_refl Hd eq_refl).
      change (Nat.max 1 (length (line' :: q))) with (length (line' :: q)) in IH.
      rewrite IH. rewrite !list_insert_insert_eq. reflexivity.
Qed.


(** ** Escape characters that survive *)

Lemma clean_line_removed line : csi_removed (rstrip_nl line) (clean_line line).
Proof. apply sub_empty_from_removed. reflexivity. Qed.

Lemma class_not_esc c :
  char_range "0" "?" c = true \/ char_range " " "/" c = true \/ char_range "@" "~" c = true ->
  c <> ESC.
Proof. intros H ->. vm_compute in H. intuition discriminate. Qed.

(** A control sequence holds one escape character, its first. *)
Lemma csi_shape e : is_csi e -> exists e', e = ESC :: e' /\ ~ In ESC e'.
Proof.
  intros (pa & im & fi & -> & Hpa & Him & Hfi). eexists. split; [reflexivity|].
  rewrite forallb_forall in Hpa, Him.
  cbn [In]. rewrite !in_app_iff. cbn [In].
  intros [H | [H | [H | [H | []]]]].
  - discriminate H.
  - apply (class_not_esc ESC); auto.
  - apply (class_not_esc ESC); auto.
  - subst fi. apply (class_not_esc ESC); auto.
Qed.

Lemma rstrip_nl_final (x : text) fi :
  char_range "@" "~" fi = true -> rstrip_nl (x ++ [fi]) = x ++ [fi].
Proof.
  intros Hfi. unfold rstrip_nl. apply rstrip_chars_snoc_keep.
  destruct (is_char newline fi) eqn:E; [|reflexivity].
  apply is_char_eq in E. subst fi. vm_compute in Hfi. discriminate.
Qed.

Lemma csi_last e r : is_csi e -> rstrip_nl (r ++ e) = r ++ e.
Proof.
  intros (pa & im & fi & -> & _ & _ & Hfi).
  replace (r ++ ESC :: "["%char :: pa ++ im ++ [fi])
    with ((r ++ ESC :: "["%char :: pa ++ im) ++ [fi])
    by (rewrite <- !app_assoc; cbn; rewrite <- !app_assoc; reflexivity).
  apply rstrip_nl_final, Hfi.
Qed.

Lemma csi_removed_escapes s o :
  csi_removed s o ->
  ~ In ESC o <-> forall pre post, s = pre ++ ESC :: post -> starts_csi (ESC :: post).
Proof.
  induction 1 as [|e r o He Hr IH|c r o Hn Hr IH].
  - split; [intros _ [|? ?] ? [=] | auto].
  - destruct (csi_shape e He) as (e' & -> & He'). split.
    + intros Ho pre post E. apply app_eq_app in E as [l [[E1 E2] | [E1 E2]]].
      * destruct l as [|c l].
        { cbn in E2. apply (proj1 IH Ho []). symmetry. exact E2. }
        cbn in E2. injection E2 as <- ->.
        destruct pre as [|c0 pre].
        { cbn in E1. injection E1 as ->. exists (ESC :: l), r. split; [exact He | reflexivity]. }
        cbn in E1. injection E1 as _ E1. destruct He'. rewrite E1.
        apply in_app_iff. right. left. reflexivity.
      * apply (proj1 IH Ho l). exact E2.
    + intros Hall. apply IH. intros pre post ->.
      apply (Hall ((ESC :: e') ++ pre)). rewrite <- app_assoc. reflexivity.
  - split.
    + intros Ho [|c0 pre] post E; cbn in E; injection E as -> E.
      * destruct Ho. left. reflexivity.
      * apply (proj1 IH (fun H => Ho (or_intror H)) pre). exact E.
    + intros Hall [-> | Hin].
      * apply Hn. apply (Hall [] r). reflexivity.
      * revert Hin. apply IH. intros pre post ->. apply (Hall (c :: pre)). reflexivity.
Qed.

(** X13. Which escape characters reach the client. The sanitized line holds
    no escape character exactly when every escape character of the line
    starts a control sequence of the pattern; an escape character that
    starts none (a lone one, or one before a sequence cut short) stays in
    the result. *)
Theorem escape_free_result (line : text) :
  ~ In ESC (clean_line line) <->
  forall pre post, rstrip_nl line = pre ++ ESC :: post -> starts_csi (ESC :: post).
Proof. apply csi_removed_escapes, clean_line_removed. Qed.

(** X14. Sanitizing is one pass, and a second one can find more. For every
    control sequence [e], the line made of an escape character, [e], and
    [e] again without its escape character is sanitized to [e] itself: the
    result is a control sequence, which a second pass would delete. *)
Theorem sequence_survives (e : text) :
  is_csi e ->
  clean_line (ESC :: e ++ tail e) = e /\
  clean_line (clean_line (ESC :: e ++ tail e)) = [].
Proof.
  intros He.
  assert (He0 : clean_line e = []).
  { apply (csi_removed_fun (rstrip_nl e)); [apply clean_line_removed|].
    pose proof (csi_last e [] He) as Hl. cbn [app] in Hl. rewrite Hl, <- (app_nil_r e).
    apply removed_csi; [exact He | constructor]. }
  assert (H : clean_line (ESC :: e ++ tail e) = e); [|rewrite H; auto].
  pose proof (clean_line_removed (ESC :: e ++ tail e)) as Hc.
  apply (csi_removed_fun _ _ Hc). clear Hc.
  destruct (csi_shape e He) as (e' & -> & He'). cbn [tail].
  assert (Hr : rstrip_nl (ESC :: (ESC :: e') ++ e') = ESC :: (ESC :: e') ++ e').
  { destruct He as (pa & im & fi & E & Hpa & Him & Hfi). injection E as ->.
    replace (ESC :: (ESC :: "["%char :: pa ++ im ++ [fi]) ++ "["%char :: pa ++ im ++ [fi])
      with ((ESC :: (ESC :: "["%char :: pa ++ im ++ [fi]) ++ "["%char :: pa ++ im) ++ [fi])
      by (cbn; rewrite <- !app_assoc; cbn; rewrite <- !app_assoc; reflexivity).
    apply rstrip_nl_final, Hfi. }
  rewrite Hr. apply removed_keep.
  - intros (e1 & r1 & (pa & im & fi & -> & _) & E). cbn in E. discriminate E.
  - apply removed_csi; [exact He|]. apply csi_removed_free, csi_free_no_esc, He'.
Qed.


End Server.

(** * Instances *)

Lemma clean_line_spec_witness :
  clean_line coloured_line = "abcred" /\
  clean_line ("50% done" ++ [newline]) = "50% done".
Proof.
  split.
  - symmetry. apply (proj1 (proj2 (clean_line_spec coloured_line))).
    change (rstrip_nl coloured_line)
      with ("abc" ++ ([ESC] ++ "[31;1m") ++ "red" ++ ([ESC] ++ "[0m") ++ []).
    do 3 (apply removed_keep;
          [intros (e & r & (pa & im & fi & -> & _) & [=]) |]).
    apply removed_csi; [exists "31;1", [], "m"%char; repeat split|].
    do 3 (apply removed_keep;
          [intros (e & r & (pa & im & fi & -> & _) & [=]) |]).
    apply removed_csi; [exists ["0"%char], [], "m"%char; repeat split|].
    apply removed_nil.
  - apply (proj1 (proj2 (proj2 (proj2 (clean_line_spec ("50% done" ++ [newline])))))).
    apply csi_free_no_esc. vm_compute. intuition discriminate.
Defined.

(** Escape sequences that are no control sequence of the pattern are kept,
    and so is the control sequence that the deletion of another one leaves
    behind a lone escape character. *)
Lemma sequences_kept :
  clean_line reset_terminal = reset_terminal /\
  is_escape_sequence reset_terminal /\
  clean_line window_title = window_title /\
  is_escape_sequence window_title /\
  clean_line (ESC :: reset_colours ++ tail reset_colours) = reset_colours /\
  is_csi reset_colours /\
  ~ all_sequences_removed.
Proof.
  assert (H1 : is_escape_sequence reset_terminal).
  { right. right. exists [], "c"%char. repeat split; discriminate. }
  assert (H2 : is_escape_sequence window_title).
  { right. left. exists "0;scan". split; reflexivity. }
  assert (H3 : is_csi reset_colours).
  { exists ["0"%char], [], "m"%char. repeat split. }
  split; [vm_compute; reflexivity|]. split; [exact H1|].
  split; [vm_compute; reflexivity|]. split; [exact H2|].
  split; [vm_compute; reflexivity|]. split; [exact H3|].
  intros H. apply (H reset_terminal [] reset_terminal []); [|exact H1].
  vm_compute. reflexivity.
Qed.

Lemma progress_extraction_witness :
  let m1 := enqueue_output_line 4300 example_meta "Deploying 3/81 | foo" in
  let m2 := enqueue_output_line 4300 example_meta "no number here" in
  let m3 := enqueue_output_line 4300 example_meta "Deploying abc/81" in
  (progress m1, total m1) = (3, 81)%Z /\
  (progress m2, total m2) = (7, 9)%Z /\
  (progress m3, total m3) = (7, 9)%Z.
Proof.
  assert (Hnone : forall s : text, re_search deploying s = None -> ~ has_deploying s).
  { intros s Hs Hocc. destruct (has_deploying_search s Hocc) as [? E]. congruence. }
  split; [|split].
  - pose proof (proj1 (proj2 (proj2 (proj2
                  (progress_extraction 4300 example_meta "Deploying 3/81 | foo"))))
                [] [" "%char] ["3"%char] "81" " | foo") as H.
    apply H. split.
    + repeat split; try discriminate.
    + intros. simpl. lia.
  - apply (proj1 (proj2 (proj2 (proj2 (proj2 (proj2
             (progress_extraction 4300 example_meta "no number here"))))))).
    apply Hnone. reflexivity.
  - apply (proj1 (proj2 (proj2 (proj2 (proj2 (proj2
             (progress_extraction 4300 example_meta "Deploying abc/81"))))))).
    apply Hnone. reflexivity.
Defined.

Lemma match_within_limit_updates_witness :
  parse_progress 4300 "Deploying 3/81 | foo" = Some (3, 81)%Z.
Proof.
  apply (match_within_limit_updates 4300 "Deploying 3/81 | foo" []
           (deploying_pieces [" "%char] ["3"%char] "81") " | foo");
    reflexivity.
Defined.

(** The bound of 4300 digits is the interpreter's default: a total of 4301
    digits matches the pattern and its conversion raises. *)
Lemma conversion_raises :
  re_search deploying long_total =
    Some ([], deploying_pieces [" "%char] ["1"%char] (repeat "9"%char 4301), []) /\
  py_int 4300 (repeat "9"%char 4301) = None /\
  parse_progress 4300 long_total = None /\
  ~ conversion_never_raises 4300.
Proof.
  assert (Hs : re_search deploying long_total =
                 Some ([], deploying_pieces [" "%char] ["1"%char] (repeat "9"%char 4301), []))
    by (vm_compute; reflexivity).
  assert (Hp : parse_progress 4300 long_total = None) by (vm_compute; reflexivity).
  split; [exact Hs|]. split; [vm_compute; reflexivity|]. split; [exact Hp|].
  intros H. destruct (H long_total _ _ _ Hs) as (cur & tot & E). congruence.
Qed.

Lemma command_line_witness :
  build_cmd example_path "example.com" "a, b  c" =
    ["python3" : text; "-u" : text; example_path; "-n" : text;
     "--skip" : text; "a" : text; "--skip" : text; "b" : text; "--skip" : text; "c" : text;
     "example.com" : text] /\
  skip_tokens ("  " ++ [newline]) = [].
Proof.
  pose proof (command_line example_path
                (Request (Some (" example.com " : text)) (Some ("a, b  c" : text)))) as H.
  pose proof (command_line example_path
                (Request (Some ("x" : text)) (Some ("  " ++ [newline])))) as H'.
  split.
  - exact (proj1 H).
  - apply (proj1 (proj2 (proj2 (proj2 (proj2 (proj2 H')))))). reflexivity.
Defined.



Lemma complete_spec_witness :
  exists w tr,
    run 4300 example_path init two_readers = Some (w, tr) /\
    yields 0 tr =
      [Data "Deploying 1/10"; Progress 1 10; Progress 1 10; Complete] /\
    yields 1 tr = [Progress 1 10; Progress 1 10; Complete] /\
    (In Complete (yields 1 tr) <->
     exists g, streams w !! 1 = Some g /\ g_pc g = Closed).
Proof.
  destruct (run 4300 example_path init two_readers) as [[w tr]|] eqn:Hrun;
    [|vm_compute in Hrun; discriminate].
  exists w, tr. split; [reflexivity|].
  pose proof (complete_spec 4300 example_path two_readers w tr 1 Hrun) as H.
  vm_compute in Hrun. injection Hrun as <- <-.
  split; [reflexivity|]. split; [reflexivity|].
  exact (proj1 (proj2 (proj2 (proj2 (proj2 (proj2 H)))))).
Defined.



Lemma done_set_once_witness :
  exists w tr,
    run 4300 example_path init two_readers = Some (w, tr) /\
    forall s, sessions w !! 0 = Some s -> done (s_meta s) = true ->
              s_out s = OutReturned /\ p_stdout_closed (proc (s_meta s)) = true /\
              p_exited (proc (s_meta s)) = true.
Proof.
  destruct (run 4300 example_path init two_readers) as [[w tr]|] eqn:Hrun;
    [|vm_compute in Hrun; discriminate].
  exists w, tr. split; [reflexivity|].
  exact (proj1 (done_set_once 4300 example_path two_readers w tr Hrun) 0).
Defined.

Lemma stop_spec_witness :
  exists w tr,
    run 4300 example_path init two_readers = Some (w, tr) /\
    step 4300 example_path w (DoStop "id0" false false) =
      Some (w, [SendSigint 0 false; Terminate 0 false; Responded Stopping]).
Proof.
  destruct (run 4300 example_path init two_readers) as [[w tr]|] eqn:Hrun;
    [|vm_compute in Hrun; discriminate].
  exists w, tr. split; [reflexivity|].
  apply (stop_spec 4300 example_path w "id0" 0 false false).
  vm_compute in Hrun. injection Hrun as <- <-. reflexivity.
Defined.

Lemma queue_delivery_witness :
  exists w tr,
    run 4300 example_path init two_readers = Some (w, tr) /\
    lines_put 0 tr = lines_taken w 0 tr ++ queue_of w 0 /\
    length (lines_seen 0 tr) + length (lines_seen 1 tr) <= length (lines_put 0 tr).
Proof.
  destruct (run 4300 example_path init two_readers) as [[w tr]|] eqn:Hrun;
    [|vm_compute in Hrun; discriminate].
  exists w, tr. split; [reflexivity|].
  destruct (queue_delivery 4300 example_path two_readers w tr 0 Hrun) as (Hq & _ & Htwo & _).
  split; [exact Hq|].
  apply (Htwo 0 1 (Generator 0 Closed) (Generator 0 Closed)); try reflexivity;
    [discriminate | |]; vm_compute in Hrun; injection Hrun as <- <-; reflexivity.
Defined.

(** Two generators on one session: the line put after both subscriptions is
    taken by the first, and the second runs to its end without it. *)
Lemma second_reader_misses_line :
  exists w tr,
    run 4300 example_path init two_readers = Some (w, tr) /\
    streams w !! 0 = Some (Generator 0 Closed) /\
    streams w !! 1 = Some (Generator 0 Closed) /\
    lines_put 0 (until_complete 1 (after_subscription 1 tr)) = ["Deploying 1/10" : text] /\
    lines_seen 0 tr = ["Deploying 1/10" : text] /\
    lines_seen 1 tr = [] /\
    ~ broadcast_log 4300 example_path.
Proof.
  destruct (run 4300 example_path init two_readers) as [[w tr]|] eqn:Hrun;
    [|vm_compute in Hrun; discriminate].
  exists w, tr. split; [reflexivity|].
  assert (Hb : ~ broadcast_log 4300 example_path).
  { intros H. specialize (H two_readers w tr 1 (Generator 0 Closed) Hrun).
    vm_compute in Hrun. injection Hrun as <- <-.
    specialize (H eq_refl eq_refl). vm_compute in H. inversion H. }
  vm_compute in Hrun. injection Hrun as <- <-.
  repeat (split; [reflexivity|]). exact Hb.
Qed.

Lemma registry_issued_witness :
  exists w tr,
    run 4300 example_path init two_readers = Some (w, tr) /\
    is_Some (scans w !! "id0") /\
    step 4300 example_path w (DoStream "id1") = Some (w, [Responded InvalidScanId]).
Proof.
  destruct (run 4300 example_path init two_readers) as [[w tr]|] eqn:Hrun;
    [|vm_compute in Hrun; discriminate].
  exists w, tr. split; [reflexivity|].
  pose proof (registry_issued 4300 example_path two_readers w tr "id0" Hrun) as [H0 _].
  pose proof (registry_issued 4300 example_path two_readers w tr "id1" Hrun) as [_ H1].
  vm_compute in Hrun. injection Hrun as <- <-. split.
  - apply H0. right. left. reflexivity.
  - apply H1. intros Hin. vm_compute in Hin. intuition discriminate.
Defined.

Lemma spawned_sessions_witness :
  exists w tr,
    run 4300 example_path init two_scans = Some (w, tr) /\
    map fst (spawned tr) = [0; 1] /\
    map (fun s => p_cmd (proc (s_meta s))) (sessions w) =
      [ build_cmd example_path "a.example" []; build_cmd example_path "b.example" [] ].
Proof.
  destruct (run 4300 example_path init two_scans) as [[w tr]|] eqn:Hrun;
    [|vm_compute in Hrun; discriminate].
  exists w, tr. split; [reflexivity|].
  pose proof (spawned_sessions 4300 example_path two_scans w tr Hrun) as (H1 & H2 & _).
  rewrite H1, H2. vm_compute in Hrun. injection Hrun as <- <-.
  split; vm_compute; reflexivity.
Defined.

Lemma lines_enqueued_witness :
  exists w tr,
    run 4300 example_path init backlog = Some (w, tr) /\
    lines_put 0 tr = ["Deploying 1/10" : text; "Deploying 7/10" : text; "Deploying 5/10" : text] /\
    lines_taken w 0 tr ++ queue_of w 0 =
      ["Deploying 1/10" : text; "Deploying 7/10" : text; "Deploying 5/10" : text].
Proof.
  destruct (run 4300 example_path init backlog) as [[w tr]|] eqn:Hrun;
    [|vm_compute in Hrun; discriminate].
  exists w, tr. split; [reflexivity|].
  pose proof (lines_enqueued 4300 example_path backlog w tr 0 Hrun) as [H1 H2].
  rewrite <- H2, H1. split; vm_compute; reflexivity.
Defined.

Lemma progress_is_latest_witness :
  exists w tr w',
    run 4300 example_path init (backlog ++ [StreamGet 0]) = Some (w, tr) /\
    pair_of w 0 = (5, 10)%Z /\
    step 4300 example_path w (StreamSnapshot 0) = Some (w', []) /\
    streams w' !! 0 = Some (Generator 0 (AtProgress true 5 10)).
Proof.
  destruct (run 4300 example_path init (backlog ++ [StreamGet 0])) as [[w tr]|] eqn:Hrun;
    [|vm_compute in Hrun; discriminate].
  exists w, tr.
  destruct (step 4300 example_path w (StreamSnapshot 0)) as [[w' o]|] eqn:Hstep;
    [|exfalso; vm_compute in Hrun; injection Hrun as <- <-; vm_compute in Hstep;
      discriminate].
  assert (Ho : o = [])
    by (vm_compute in Hrun; injection Hrun as <- <-; vm_compute in Hstep;
        injection Hstep as <- <-; reflexivity).
  subst o. exists w'. split; [reflexivity|].
  pose proof (progress_is_latest 4300 example_path _ w tr 0 Hrun) as [H1 H2].
  split; [rewrite H1; vm_compute; reflexivity|]. split; [reflexivity|].
  destruct (H2 0 (Generator 0 AtSnapshot) w' [] ) as [d Hd];
    [vm_compute in Hrun; injection Hrun as <- <-; reflexivity | reflexivity | exact Hstep |].
  rewrite Hd. f_equal. f_equal.
  vm_compute in Hrun. injection Hrun as <- <-. vm_compute in Hstep.
  injection Hstep as <-. vm_compute in Hd. injection Hd as <-. vm_compute. reflexivity.
Defined.

Lemma complete_only_when_done_witness :
  exists w tr,
    run 4300 example_path init two_readers = Some (w, tr) /\
    exists s, sessions w !! 0 = Some s /\ done (s_meta s) = true /\ s_out s = OutReturned.
Proof.
  destruct (run 4300 example_path init two_readers) as [[w tr]|] eqn:Hrun;
    [|vm_compute in Hrun; discriminate].
  exists w, tr. split; [reflexivity|].
  pose proof (complete_only_when_done 4300 example_path two_readers w tr 1
                (Generator 0 Closed) Hrun) as H.
  vm_compute in Hrun. injection Hrun as <- <-.
  destruct (H eq_refl (or_intror eq_refl)) as (s & Hs & Hd & Ho & _).
  exists s. auto.
Defined.

Lemma session_isolation_witness :
  exists w tr w' o s,
    run 4300 example_path init two_scans = Some (w, tr) /\
    step 4300 example_path w (OutRead 1 ("Deploying 2/9" ++ [newline])) = Some (w', o) /\
    sessions w !! 0 = Some s /\
    sessions w' !! 0 = Some s.
Proof.
  destruct (run 4300 example_path init two_scans) as [[w tr]|] eqn:Hrun;
    [|vm_compute in Hrun; discriminate].
  exists w, tr.
  destruct (step 4300 example_path w (OutRead 1 ("Deploying 2/9" ++ [newline])))
    as [[w' o]|] eqn:Hstep;
    [|exfalso; vm_compute in Hrun; injection Hrun as <- <-; vm_compute in Hstep; discriminate].
  destruct (sessions w !! 0) as [s|] eqn:Hs;
    [|exfalso; vm_compute in Hrun; injection Hrun as <- <-; vm_compute in Hs; discriminate].
  exists w', o, s. split; [reflexivity|]. split; [reflexivity|]. split; [reflexivity|].
  apply (proj1 (session_isolation 4300 example_path w _ w' o 0 s Hstep Hs)).
  cbn [works_on]. intros [=].
Defined.

Lemma quiet_after_pumps_witness :
  exists w tr w' tr' s,
    run 4300 example_path init backlog = Some (w, tr) /\
    sessions w !! 0 = Some s /\
    run 4300 example_path w (passes 0 3) = Some (w', tr') /\
    lines_put 0 tr' = [] /\
    queue (s_meta s) = lines_taken w' 0 tr' ++ queue_of w' 0.
Proof.
  destruct (run 4300 example_path init backlog) as [[w tr]|] eqn:Hrun;
    [|vm_compute in Hrun; discriminate].
  exists w, tr.
  destruct (sessions w !! 0) as [s|] eqn:Hs;
    [|exfalso; vm_compute in Hrun; injection Hrun as <- <-; vm_compute in Hs; discriminate].
  destruct (run 4300 example_path w (passes 0 3)) as [[w' tr']|] eqn:Hrun';
    [|exfalso; vm_compute in Hrun; injection Hrun as <- <-; vm_compute in Hrun'; discriminate].
  exists w', tr', s. split; [reflexivity|]. split; [reflexivity|]. split; [reflexivity|].
  assert (He : pumps_ended s).
  { vm_compute in Hrun. injection Hrun as <- <-. vm_compute in Hs. injection Hs as <-.
    split; [discriminate | reflexivity]. }
  destruct (quiet_after_pumps 4300 example_path w (passes 0 3) w' tr' 0 s Hs He Hrun')
    as (H1 & _ & H3).
  split; assumption.
Defined.

Lemma events_format_witness :
  exists w tr,
    run 4300 example_path init two_readers = Some (w, tr) /\
    In (Yielded 0 (Progress 1 10)) tr /\
    is_Some (event_text 4300 (Progress 1 10)).
Proof.
  destruct (run 4300 example_path init two_readers) as [[w tr]|] eqn:Hrun;
    [|vm_compute in Hrun; discriminate].
  exists w, tr. split; [reflexivity|].
  pose proof (events_format 4300 example_path two_readers w tr Hrun) as (_ & _ & H).
  assert (Hin : In (Yielded 0 (Progress 1 10)) tr).
  { vm_compute in Hrun. injection Hrun as <- <-.
    repeat (first [left; reflexivity | right]). }
  split; [exact Hin | apply (H 0 _ Hin)].
Defined.

Lemma event_text_injective_witness :
  exists txt,
    event_text 4300 (Progress 3 81) = Some txt /\
    forall e, event_text 4300 e = Some txt -> e = Progress 3 81.
Proof.
  eexists. split; [reflexivity|].
  intros e He. apply (event_text_injective 4300 e (Progress 3 81) _ He). reflexivity.
Defined.

Lemma one_frame_per_event_witness :
  exists w tr,
    run 4300 example_path init two_readers = Some (w, tr) /\
    readline_lines two_readers /\
    exists t, event_text 4300 (Data "Deploying 1/10") = Some t /\ one_frame t.
Proof.
  destruct (run 4300 example_path init two_readers) as [[w tr]|] eqn:Hrun;
    [|vm_compute in Hrun; discriminate].
  exists w, tr. split; [reflexivity|].
  assert (Hrl : readline_lines two_readers).
  { intros r l [H | H]; cbn in H;
      repeat (destruct H as [H | H]; [try discriminate H; injection H as <- <- |]);
      try (destruct H; fail).
    - exists "Deploying 1/10". split; [right; reflexivity|].
      split; apply not_in_by_test; reflexivity.
    - exists []. split; [left; reflexivity|]. split; intros [].
    - exists []. split; [left; reflexivity|]. split; intros []. }
  split; [exact Hrl|].
  apply (one_frame_per_event 4300 example_path two_readers w tr Hrun Hrl 0).
  vm_compute in Hrun. injection Hrun as <- <-.
  repeat (first [left; reflexivity | right]).
Defined.

Lemma lone_subscriber_drains_witness :
  exists w tr w',
    run 4300 example_path init backlog = Some (w, tr) /\
    run 4300 example_path w (passes 0 3) =
      Some (w', map (Yielded 0)
                    [ Data "Deploying 1/10"; Progress 5 10;
                      Data "Deploying 7/10"; Progress 5 10;
                      Data "Deploying 5/10"; Progress 5 10; Complete ]) /\
    streams w' !! 0 = Some (Generator 0 Closed).
Proof.
  destruct (run 4300 example_path init backlog) as [[w tr]|] eqn:Hrun;
    [|vm_compute in Hrun; discriminate].
  exists w, tr.
  destruct (sessions w !! 0) as [s|] eqn:Hs;
    [|exfalso; vm_compute in Hrun; injection Hrun as <- <-; vm_compute in Hs; discriminate].
  assert (Hg : streams w !! 0 = Some (Generator 0 AtGet))
    by (vm_compute in Hrun; injection Hrun as <- <-; reflexivity).
  assert (Hd : done (s_meta s) = true)
    by (vm_compute in Hrun; injection Hrun as <- <-; vm_compute in Hs;
        injection Hs as <-; reflexivity).
  pose proof (lone_subscriber_drains 4300 example_path w 0 0 s Hg Hs Hd) as H.
  vm_compute in Hrun. injection Hrun as <- <-. vm_compute in Hs. injection Hs as <-.
  eexists. split; [reflexivity|]. split; [exact H | reflexivity].
Defined.

Lemma sequence_survives_witness :
  clean_line (ESC :: reset_colours ++ tail reset_colours) = reset_colours /\
  clean_line (clean_line (ESC :: reset_colours ++ tail reset_colours)) = [].
Proof.
  apply (sequence_survives reset_colours).
  exists ["0"%char], [], "m"%char. repeat split.
Defined.
